(** * Spotify export: a shallow embedding of [get_all_songs.py]

    The script walks the paginated listings of the Spotify Web API, builds
    the list of playlists (plus the synthetic "Liked Songs" one), fetches
    the tracks of every playlist and writes two JSON documents.

    The embedding keeps the shape of the Python code:
    - JSON-like Python values are the inductive [pyval]; a [dict] is an
      association list in insertion order (the order [json.dump] and
      [dict.items()] observe), a [str] is a sequence of characters;
    - exceptions are the type [exn]; pure expressions that may raise return
      a [res], statements that log, print, call the API or use the
      [lru_cache] run in the monad [M] over a [world];
    - [while] loops over API pages take fuel, as the server decides how
      many pages there are. *)

From Stdlib Require Import List String Ascii ZArith Bool Lia.
From Stdlib Require Import Sorting.Sorted Sorting.Permutation.
From Stdlib Require Import DecimalString OrderedTypeEx.
Import ListNotations.
Local Open Scope string_scope.
Local Open Scope list_scope.

(** ** Python values *)

#[warnings="-register-all"] Inductive pyval : Type :=
| PNone
| PBool (b : bool)
| PInt (z : Z)
| PStr (s : string)
| PList (l : list pyval)
| PDict (d : list (string * pyval)).

(** The exceptions the script can meet on JSON-like values. *)
Inductive exn : Type :=
| KeyError (key : string)
| AttributeError (attr : string)
| TypeError.

Inductive res (A : Type) : Type :=
| Ok (a : A)
| Err (e : exn).
Arguments Ok {A} a.
Arguments Err {A} e.

Definition res_bind {A B} (r : res A) (k : A -> res B) : res B :=
  match r with
  | Ok a => k a
  | Err e => Err e
  end.

Notation "'let?' x ':=' e 'in' k" := (res_bind e (fun x => k))
  (at level 10, x pattern, e at level 100, k at level 200).

Fixpoint mapM {A B} (f : A -> res B) (l : list A) : res (list B) :=
  match l with
  | [] => Ok []
  | x :: rest =>
      let? y := f x in
      let? ys := mapM f rest in
      Ok (y :: ys)
  end.

(** *** Dictionaries *)

Definition pydict := list (string * pyval).

Fixpoint dict_lookup (k : string) (d : pydict) : option pyval :=
  match d with
  | [] => None
  | (k', v) :: d' => if (k' =? k)%string then Some v else dict_lookup k d'
  end.

(** [d[k] = v]: an existing key keeps its position, a new key goes last. *)
Fixpoint dict_set (k : string) (v : pyval) (d : pydict) : pydict :=
  match d with
  | [] => [(k, v)]
  | (k', v') :: d' =>
      if (k' =? k)%string then (k, v) :: d' else (k', v') :: dict_set k v d'
  end.

Definition isinstance_dict (v : pyval) : bool :=
  match v with
  | PDict _ => true
  | _ => false
  end.

Definition is_none (v : pyval) : bool :=
  match v with
  | PNone => true
  | _ => false
  end.

(** [k in d] for a dict [d]. *)
Definition dict_contains (k : string) (d : pydict) : bool :=
  match dict_lookup k d with
  | Some _ => true
  | None => false
  end.

(** [v[k]] with a string key: only a dict accepts it. *)
Definition subscript (v : pyval) (k : string) : res pyval :=
  match v with
  | PDict d =>
      match dict_lookup k d with
      | Some x => Ok x
      | None => Err (KeyError k)
      end
  | _ => Err TypeError
  end.

(** [v.get(k, default)]: only a dict has the method. *)
Definition get_default (v : pyval) (k : string) (default : pyval) : res pyval :=
  match v with
  | PDict d =>
      match dict_lookup k d with
      | Some x => Ok x
      | None => Ok default
      end
  | _ => Err (AttributeError "get")
  end.

(** [v.get(k)], whose default is [None]. *)
Definition get (v : pyval) (k : string) : res pyval := get_default v k PNone.

Definition chars (s : string) : list pyval :=
  map (fun c => PStr (String c EmptyString)) (list_ascii_of_string s).

(** [for x in v]: a list yields its elements, a dict its keys, a str its
    characters; nothing else is iterable. *)
Definition iterate (v : pyval) : res (list pyval) :=
  match v with
  | PList l => Ok l
  | PDict d => Ok (map (fun kv => PStr (fst kv)) d)
  | PStr s => Ok (chars s)
  | _ => Err TypeError
  end.

(** [sep.join(items)]: every item must be a str. *)
Fixpoint join (sep : string) (items : list pyval) : res string :=
  match items with
  | [] => Ok ""
  | PStr s :: rest =>
      match rest with
      | [] => Ok s
      | _ :: _ => let? r := join sep rest in Ok (s ++ sep ++ r)%string
      end
  | _ :: _ => Err TypeError
  end.

(** ** Effects *)

Inductive level : Type := INFO | WARNING | ERROR.

(** An f-string is kept as its pieces: literal text, formatted values and
    formatted exceptions. *)
Inductive piece : Type :=
| Lit (s : string)
| Fmt (v : pyval)
| FmtExn (e : exn).

(** A page of a paginated listing: the typed view of the API's paging
    object, of which the script reads ['items'] and ['next']. *)
Record Page : Type := mkPage {
  items : list pyval;
  next : option string
}.

Inductive api_call : Type :=
| CurrentUserPlaylists
| CurrentUserSavedTracks
| PlaylistTracks (playlist_id : string)
| Next (result : Page).

(** [MakeDirs] and [WriteFile] record [os.makedirs] and the [open] and
    [json.dump] of a file once they have succeeded; a failure of the file
    system has no counterpart here. *)
Inductive event : Type :=
| Log (lvl : level) (msg : list piece)
| Print (msg : list piece)
| Api (call : api_call)
| MakeDirs (path : string)
| WriteFile (path : string) (text : string).

(** The process state: everything observable that has happened so far, in
    order, and the table behind [@lru_cache] on [get_playlist_tracks]. *)
Record world : Type := mkWorld {
  trace : list event;
  memo : list (string * list pyval)
}.

Inductive outcome (A : Type) : Type :=
| Returns (a : A) (w : world)
| Raises (e : exn) (w : world)
| OutOfFuel.
Arguments Returns {A} a w.
Arguments Raises {A} e w.
Arguments OutOfFuel {A}.

Definition M (A : Type) : Type := world -> outcome A.

Definition ret {A} (a : A) : M A := fun w => Returns a w.

Definition raise {A} (e : exn) : M A := fun w => Raises e w.

Definition bind {A B} (m : M A) (k : A -> M B) : M B :=
  fun w =>
    match m w with
    | Returns a w' => k a w'
    | Raises e w' => Raises e w'
    | OutOfFuel => OutOfFuel
    end.

Notation "x <- m ;; k" := (bind m (fun x => k))
  (at level 100, m at next level, right associativity).
Notation "m ;; k" := (bind m (fun _ => k))
  (at level 100, right associativity).

Definition lift {A} (r : res A) : M A :=
  match r with
  | Ok a => ret a
  | Err e => raise e
  end.

Definition emit (ev : event) : M unit :=
  fun w => Returns tt (mkWorld (trace w ++ [ev]) (memo w)).

Definition logging (lvl : level) (msg : list piece) : M unit := emit (Log lvl msg).

Definition print (msg : list piece) : M unit := emit (Print msg).

(** [try: body except Exception as e: handler e]; what [body] did before
    raising stays done. *)
Definition try_except {A} (body : M A) (handler : exn -> M A) : M A :=
  fun w =>
    match body w with
    | Raises e w' => handler e w'
    | other => other
    end.

(** ** [format_track_data] *)

(** The dict display returned on the valid path (lines 185-196); its
    entries are evaluated top to bottom. *)
Definition track_projection (track : pyval) : res pyval :=
  let? track_info := subscript track "track" in
  let? id := get_default track_info "id" (PStr "") in
  let? name := get_default track_info "name" (PStr "") in
  let? artists := get_default track_info "artists" (PList []) in
  let? artists := iterate artists in
  let? artists := mapM (fun artist => get_default artist "name" (PStr "")) artists in
  let? album := get_default track_info "album" (PDict []) in
  let? album := get_default album "name" (PStr "") in
  let? duration_ms := get_default track_info "duration_ms" (PInt 0) in
  let? added_at := get_default track "added_at" (PStr "") in
  let? uri := get_default track_info "uri" (PStr "") in
  let? external_urls := get_default track_info "external_urls" (PDict []) in
  let? external_url := get_default external_urls "spotify" (PStr "") in
  Ok (PDict [("id", id);
             ("name", name);
             ("artists", PList artists);
             ("album", album);
             ("duration_ms", duration_ms);
             ("added_at", added_at);
             ("uri", uri);
             ("external_url", external_url)]).

Definition has_track_key (track : pyval) : bool :=
  match track with
  | PDict d => dict_contains "track" d
  | _ => false
  end.

Definition format_track_data (track : pyval) : M pyval :=
  if negb (isinstance_dict track) || negb (has_track_key track) then
    logging ERROR [Lit "Invalid track data: "; Fmt track] ;;
    ret (PDict [])
  else
    lift (track_projection track).

(** ** The API client

    [spotipy.Spotify] is an external library: the client is the snapshot of
    what its four calls answer.  [None] is an empty response; a page is a
    non-empty dict, hence true in [while results:].  A call that the
    library ends with an exception (an HTTP or a network error) has no
    counterpart here: what is proved of the listings is about the runs in
    which every call is answered. *)

Record Spotify : Type := mkSpotify {
  current_user_playlists : option Page;
  current_user_saved_tracks : option Page;
  playlist_tracks : string -> option Page;
  sp_next : Page -> option Page
}.

Definition api {A} (call : api_call) (answer : A) : M A :=
  emit (Api call) ;; ret answer.

(** [if results['next']:], the truth value of a cursor: [None] and the
    empty string are false. *)
Definition truthy (cursor : option string) : bool :=
  match cursor with
  | Some url => negb (url =? "")%string
  | None => false
  end.

(** The loop of [get_saved_tracks] (lines 139-144), which
    [get_playlist_tracks] repeats word for word (lines 164-169). *)
Fixpoint extend_loop (sp : Spotify) (fuel : nat) (results : option Page)
    (tracks : list pyval) : M (list pyval) :=
  match results with
  | None => ret tracks
  | Some page =>
      match fuel with
      | O => fun _ => OutOfFuel
      | S fuel' =>
          let tracks := tracks ++ items page in
          if truthy (next page) then
            results <- api (Next page) (sp_next sp page) ;;
            extend_loop sp fuel' results tracks
          else
            ret tracks
      end
  end.

Definition get_saved_tracks (sp : Spotify) (fuel : nat) : M (list pyval) :=
  results <- api CurrentUserSavedTracks (current_user_saved_tracks sp) ;;
  extend_loop sp fuel results [].

(** [value > 0] on a JSON value: [bool] is a subclass of [int]. *)
Definition gt_zero (value : pyval) : res bool :=
  match value with
  | PInt z => Ok (0 <? z)%Z
  | PBool b => Ok b
  | _ => Err TypeError
  end.

(** [playlist['tracks']['total'] > 0] *)
Definition has_tracks (playlist : pyval) : res bool :=
  let? tracks := subscript playlist "tracks" in
  let? total := subscript tracks "total" in
  gt_zero total.

(** The [for] loop over one page of playlists (lines 103-105). *)
Fixpoint append_nonempty (page_items : list pyval) (playlists : list pyval)
    : res (list pyval) :=
  match page_items with
  | [] => Ok playlists
  | playlist :: rest =>
      let? keep := has_tracks playlist in
      append_nonempty rest (if keep then playlists ++ [playlist] else playlists)
  end.

(** The paginated loop of the playlist listing (lines 102-109). *)
Fixpoint playlists_loop (sp : Spotify) (fuel : nat) (results : option Page)
    (playlists : list pyval) : M (list pyval) :=
  match results with
  | None => ret playlists
  | Some page =>
      match fuel with
      | O => fun _ => OutOfFuel
      | S fuel' =>
          playlists <- lift (append_nonempty (items page) playlists) ;;
          if truthy (next page) then
            results <- api (Next page) (sp_next sp page) ;;
            playlists_loop sp fuel' results playlists
          else
            ret playlists
      end
  end.

(** Lines 100-109: the playlist listing of
    [get_user_playlists_and_saved_tracks]. *)
Definition get_user_playlists (sp : Spotify) (fuel : nat) : M (list pyval) :=
  results <- api CurrentUserPlaylists (current_user_playlists sp) ;;
  playlists_loop sp fuel results [].

Definition liked_songs_playlist (saved_tracks : list pyval) : pyval :=
  PDict [("id", PStr "liked_songs");
         ("name", PStr "Liked Songs");
         ("tracks", PDict [("total", PInt (Z.of_nat (List.length saved_tracks)))])].

(** *** [list.sort(key=...)]

    Python's sort is stable and compares keys with [<] only; on a total
    order every stable sort returns the same list, so insertion from the
    right stands for it.  The keys are all computed before any comparison. *)

Fixpoint insert_keyed (kx : string * pyval) (sorted : list (string * pyval))
    : list (string * pyval) :=
  match sorted with
  | [] => [kx]
  | ky :: rest =>
      if String.ltb (fst ky) (fst kx) then ky :: insert_keyed kx rest
      else kx :: ky :: rest
  end.

Definition sort_keyed (l : list (string * pyval)) : list (string * pyval) :=
  fold_right insert_keyed [] l.

Definition list_sort (key : pyval -> res string) (l : list pyval) : res (list pyval) :=
  let? keys := mapM key l in
  Ok (map snd (sort_keyed (combine keys l))).

(** The [lru_cache(maxsize=None)] decorator, for the one client of a run:
    the table is keyed by the playlist id, and a call that raises stores
    nothing. *)
Fixpoint memo_lookup (key : string) (table : list (string * list pyval))
    : option (list pyval) :=
  match table with
  | [] => None
  | (k, v) :: rest => if (k =? key)%string then Some v else memo_lookup key rest
  end.

Definition lru_cache (f : string -> M (list pyval)) (key : string) : M (list pyval) :=
  fun w =>
    match memo_lookup key (memo w) with
    | Some cached => Returns cached w
    | None =>
        match f key w with
        | Returns v w' => Returns v (mkWorld (trace w') ((key, v) :: memo w'))
        | other => other
        end
    end.

Definition get_playlist_tracks_uncached (sp : Spotify) (fuel : nat)
    (playlist_id : string) : M (list pyval) :=
  if (playlist_id =? "liked_songs")%string then
    get_saved_tracks sp fuel
  else
    results <- api (PlaylistTracks playlist_id) (playlist_tracks sp playlist_id) ;;
    extend_loop sp fuel results [].

Definition get_playlist_tracks (sp : Spotify) (fuel : nat) : string -> M (list pyval) :=
  lru_cache (get_playlist_tracks_uncached sp fuel).

(** ** [json.dump(data, f, indent=2, ensure_ascii=False)] *)

Definition dquote : ascii := "034"%char.
Definition backslash : ascii := "092"%char.
Definition newline : ascii := "010"%char.

Definition hex_digit (n : nat) : ascii :=
  match n with
  | 0 => "0" | 1 => "1" | 2 => "2" | 3 => "3" | 4 => "4" | 5 => "5"
  | 6 => "6" | 7 => "7" | 8 => "8" | 9 => "9" | 10 => "a" | 11 => "b"
  | 12 => "c" | 13 => "d" | 14 => "e" | _ => "f"
  end%char.

(** The replacement table of [json.encoder.py_encode_basestring]: the
    quote, the backslash and the control characters below 0x20. *)
Definition escape_char (c : ascii) : string :=
  let n := nat_of_ascii c in
  if (c =? dquote)%char then String backslash (String dquote "")
  else if (c =? backslash)%char then String backslash (String backslash "")
  else if (n =? 8)%nat then String backslash "b"
  else if (n =? 12)%nat then String backslash "f"
  else if (n =? 10)%nat then String backslash "n"
  else if (n =? 13)%nat then String backslash "r"
  else if (n =? 9)%nat then String backslash "t"
  else if (n <? 32)%nat then
    String backslash
      (String "u" (String "0" (String "0"
         (String (hex_digit (n / 16)) (String (hex_digit (n mod 16)) "")))))
  else String c "".

Fixpoint escape (s : string) : string :=
  match s with
  | EmptyString => ""
  | String c rest => (escape_char c ++ escape rest)%string
  end.

Definition encode_basestring (s : string) : string :=
  (String dquote (escape s) ++ String dquote "")%string.

Definition int_repr (z : Z) : string := NilZero.string_of_int (Z.to_int z).

Fixpoint spaces (n : nat) : string :=
  match n with
  | O => ""
  | S n' => String " " (spaces n')
  end.

(** A line break followed by the indentation of a nesting level. *)
Definition newline_indent (level : nat) : string :=
  String newline (spaces (2 * level)).

Fixpoint dumps (level : nat) (v : pyval) {struct v} : string :=
  match v with
  | PNone => "null"
  | PBool true => "true"
  | PBool false => "false"
  | PInt z => int_repr z
  | PStr s => encode_basestring s
  | PList [] => "[]"
  | PList (first :: others) =>
      ("[" ++ newline_indent (S level) ++ dumps (S level) first
       ++ (fix rest (l : list pyval) : string :=
             match l with
             | [] => ""
             | x :: l' =>
                 "," ++ newline_indent (S level) ++ dumps (S level) x ++ rest l'
             end) others
       ++ newline_indent level ++ "]")%string
  | PDict [] => "{}"
  | PDict ((key, value) :: others) =>
      ("{" ++ newline_indent (S level) ++ encode_basestring key ++ ": "
       ++ dumps (S level) value
       ++ (fix rest (d : list (string * pyval)) : string :=
             match d with
             | [] => ""
             | (k, x) :: d' =>
                 "," ++ newline_indent (S level) ++ encode_basestring k ++ ": "
                 ++ dumps (S level) x ++ rest d'
             end) others
       ++ newline_indent level ++ "}")%string
  end.

(** [os.path.join(a, b)] on POSIX for a relative [b]. *)
Definition ends_with_slash (a : string) : bool :=
  match rev (list_ascii_of_string a) with
  | c :: _ => (c =? "/")%char
  | [] => false
  end.

Definition path_join (a b : string) : string :=
  if (a =? "")%string || ends_with_slash a then (a ++ b)%string
  else (a ++ "/" ++ b)%string.

(** The three readings of [datetime.now()] in [save_playlists_to_json], as
    formatted: [strftime("%Y_%m_%d_%H_%M_%S")] for the directory and
    [isoformat()] for each document. *)
Record clock : Type := mkClock {
  timestamp : string;
  export_date_full : string;
  export_date_minimal : string
}.

(** ** Example data *)

(** [str.lower] on ASCII text. *)
Definition ascii_lower (s : string) : string :=
  string_of_list_ascii
    (map (fun c =>
            let n := nat_of_ascii c in
            if (65 <=? n)%nat && (n <=? 90)%nat then ascii_of_nat (n + 32) else c)
         (list_ascii_of_string s)).

(** [str(v)] on the scalars; the examples format no list and no dict. *)
Definition repr_scalar (v : pyval) : string :=
  match v with
  | PNone => "None"
  | PBool true => "True"
  | PBool false => "False"
  | PInt z => int_repr z
  | PStr s => s
  | PList _ => "[...]"
  | PDict _ => "{...}"
  end.

Definition w0 : world := mkWorld [] [].

Definition playlist (id name : string) (total : Z) : pyval :=
  PDict [("id", PStr id);
         ("name", PStr name);
         ("tracks", PDict [("total", PInt total)])].

Definition track (name artist : string) : pyval :=
  PDict [("added_at", PStr "2024-05-01T10:00:00Z");
         ("track", PDict [("id", PStr name);
                          ("name", PStr name);
                          ("artists", PList [PDict [("name", PStr artist)]])])].

Definition playlists_page1 : Page :=
  mkPage [playlist "p1" "Mix" 3; playlist "p2" "Jazz" 0] (Some "playlists?offset=2").
Definition playlists_page2 : Page :=
  mkPage [playlist "p3" "Rock" 2; playlist "p5" "Mix" 1] None.
Definition saved_page1 : Page := mkPage [track "S1" "x"] (Some "tracks?offset=1").
Definition saved_page2 : Page := mkPage [track "S2" "y"] None.
Definition p1_page1 : Page := mkPage [track "T1" "x"; track "T2" "y"] (Some "p1?offset=2").
Definition p1_page2 : Page := mkPage [track "T3" "z"] None.
Definition p5_page : Page := mkPage [track "U1" "u"] None.

(** A server with two pages of playlists (one playlist is empty, two share
    a name), two pages of saved tracks, and a playlist-tracks endpoint
    that would also answer the literal id "liked_songs". *)
Definition demo_sp : Spotify :=
  mkSpotify
    (Some playlists_page1)
    (Some saved_page1)
    (fun playlist_id =>
       if (playlist_id =? "p1")%string then Some p1_page1
       else if (playlist_id =? "p5")%string then Some p5_page
       else if (playlist_id =? "liked_songs")%string
            then Some (mkPage [track "not a saved track" "n"] None)
       else None)
    (fun page =>
       match next page with
       | Some url =>
           if (url =? "playlists?offset=2")%string then Some playlists_page2
           else if (url =? "tracks?offset=1")%string then Some saved_page2
           else if (url =? "p1?offset=2")%string then Some p1_page2
           else None
       | None => None
       end).

(** A server whose playlists are named "b", "A" and "c", with no saved
    track. *)
Definition names_page : Page :=
  mkPage [playlist "n1" "b" 1; playlist "n2" "A" 1; playlist "n3" "c" 1] None.

Definition names_sp : Spotify :=
  mkSpotify (Some names_page) (Some (mkPage [] None)) (fun _ => None) (fun _ => None).

(** A server whose playlists are named "b", "A" and "C": the order of
    [str] puts "C" before "b", the order that ignores case after it. *)
Definition mixed_case_page : Page :=
  mkPage [playlist "m1" "b" 1; playlist "m2" "A" 1; playlist "m3" "C" 1] None.

Definition mixed_case_sp : Spotify :=
  mkSpotify (Some mixed_case_page) (Some (mkPage [] None)) (fun _ => None) (fun _ => None).

Definition demo_clock : clock :=
  mkClock "2024_05_01_10_00_00" "2024-05-01T10:00:00.000100" "2024-05-01T10:00:00.000200".

(** The server of the scenario "Rock (2 tracks), Jazz (0 tracks), one saved
    track". *)
Definition scenario_sp : Spotify :=
  mkSpotify
    (Some (mkPage [playlist "r" "Rock" 2; playlist "j" "Jazz" 0] None))
    (Some (mkPage [track "S1" "x"] None))
    (fun _ => None)
    (fun _ => None).

(** A server whose second page of playlists holds a null item. *)
Definition null_item_page1 : Page :=
  mkPage [playlist "p1" "Mix" 3] (Some "playlists?offset=1").
Definition null_item_page2 : Page :=
  mkPage [playlist "p3" "Rock" 2; PNone; playlist "p5" "Mix" 1] None.

Definition null_item_sp : Spotify :=
  mkSpotify
    (Some null_item_page1)
    (Some saved_page1)
    (fun _ => None)
    (fun page =>
       match next page with
       | Some url =>
           if (url =? "playlists?offset=1")%string then Some null_item_page2 else None
       | None => None
       end).

(** A server whose saved tracks go round in circles. *)
Definition circular_page : Page := mkPage [track "S1" "x"] (Some "tracks?offset=0").

Definition circular_sp : Spotify :=
  mkSpotify None (Some circular_page) (fun _ => Some circular_page)
            (fun _ => Some circular_page).

(** A server whose first page of saved tracks has a cursor that leads
    nowhere. *)
Definition dangling_page : Page := mkPage [track "S1" "x"] (Some "tracks?offset=1").

Definition dangling_sp : Spotify :=
  mkSpotify None (Some dangling_page) (fun _ => None) (fun _ => None).

(** A mapping with one entry whose track list is null. *)
Definition null_tracks_data : pydict :=
  [("Mix", PDict [("playlist_info", playlist "p1" "Mix" 3); ("tracks", PNone)])].

(** A mapping with one entry whose metadata has an empty name. *)
Definition unnamed_data : pydict :=
  [("", PDict [("playlist_info", playlist "p9" "" 1);
               ("tracks", PList [track "T1" "x"])])].

(** A mapping with one entry whose metadata is null, then a regular one. *)
Definition null_info_data : pydict :=
  [("Gone", PDict [("playlist_info", PNone); ("tracks", PList [])]);
   ("Rock", PDict [("playlist_info", playlist "p3" "Rock" 2);
                   ("tracks", PList [track "T1" "x"])])].

Section Runtime.

Set Default Proof Using "Type".

(** [str.lower], the case mapping of the Python runtime. *)
Variable str_lower : string -> string.

(** [str(v)] for a value that is not a [str], as an f-string formats it. *)
Variable repr : pyval -> string.

Definition format_value (v : pyval) : string :=
  match v with
  | PStr s => s
  | _ => repr v
  end.

(** [x.lower()]: a method of [str] only. *)
Definition lower (v : pyval) : res string :=
  match v with
  | PStr s => Ok (str_lower s)
  | _ => Err (AttributeError "lower")
  end.

(** [lambda x: x['name'].lower()] *)
Definition name_key (x : pyval) : res string :=
  let? name := subscript x "name" in
  lower name.

Definition get_user_playlists_and_saved_tracks (sp : Spotify) (fuel : nat)
    : M (list pyval * list pyval) :=
  playlists <- get_user_playlists sp fuel ;;
  saved_tracks <- get_saved_tracks sp fuel ;;
  let playlists :=
    match saved_tracks with
    | [] => playlists
    | _ :: _ => playlists ++ [liked_songs_playlist saved_tracks]
    end in
  playlists <- lift (list_sort name_key playlists) ;;
  ret (playlists, saved_tracks).

(** *** [save_playlists_to_json] *)

(** Lines 263-264: the line of the minimal listing for a formatted track. *)
Definition minimal_track (full_track : pyval) : res pyval :=
  let? artists := subscript full_track "artists" in
  let? artists := iterate artists in
  let? artists_str := join ", " artists in
  let? name := subscript full_track "name" in
  Ok (PStr (format_value name ++ " - [" ++ artists_str ++ "]")%string).

Definition log_track_error (playlist_name : string) (track : pyval) (e : exn)
    : M unit :=
  logging ERROR [Lit "Error formatting track in "; Fmt (PStr playlist_name);
                 Lit ": "; FmtExn e] ;;
  logging ERROR [Lit "Problematic track data: "; Fmt track].

(** One round of the loop over tracks (lines 254-268), on the two lists
    [full_playlist['tracks']] and [minimal_playlist['tracks']].  The [try]
    block appends to the first list before it computes the minimal line, so
    an exception raised after that append leaves the append done: the inner
    handler is the [except] clause reached from there. *)
Definition export_track (playlist_name : string) (track : pyval)
    (lists : list pyval * list pyval) : M (list pyval * list pyval) :=
  let (full_tracks, minimal_tracks) := lists in
  if is_none track then
    logging WARNING [Lit "Found a None track in "; Fmt (PStr playlist_name)] ;;
    ret (full_tracks, minimal_tracks)
  else
    try_except
      (full_track <- format_track_data track ;;
       let full_tracks := full_tracks ++ [full_track] in
       try_except
         (line <- lift (minimal_track full_track) ;;
          ret (full_tracks, minimal_tracks ++ [line]))
         (fun e =>
            log_track_error playlist_name track e ;;
            ret (full_tracks, minimal_tracks)))
      (fun e =>
         log_track_error playlist_name track e ;;
         ret (full_tracks, minimal_tracks)).

Fixpoint export_tracks (playlist_name : string) (tracks : list pyval)
    (lists : list pyval * list pyval) : M (list pyval * list pyval) :=
  match tracks with
  | [] => ret lists
  | track :: rest =>
      lists <- export_track playlist_name track lists ;;
      export_tracks playlist_name rest lists
  end.

(** The dict display of lines 234-241, before its ['tracks'] entry. *)
Definition full_playlist (playlist_info : pyval) : res pydict :=
  let? id := get playlist_info "id" in
  let? name := get playlist_info "name" in
  let? description := get_default playlist_info "description" (PStr "") in
  let? owner := get_default playlist_info "owner" (PDict []) in
  let? owner := get_default owner "display_name" (PStr "You") in
  let? tracks := get_default playlist_info "tracks" (PDict []) in
  let? tracks_count := get_default tracks "total" (PInt 0) in
  Ok [("id", id);
      ("name", name);
      ("description", description);
      ("owner", owner);
      ("tracks_count", tracks_count)].

(** The dict display of lines 244-247, before its ['tracks'] entry. *)
Definition minimal_playlist (playlist_info : pyval) : res pydict :=
  let? name := get playlist_info "name" in
  Ok [("name", name)].

(** One round of the loop over the mapping (lines 221-271), on the two
    lists [full_export_data['playlists']] and
    [minimal_export_data['playlists']]. *)
Definition export_entry (playlist_name : string) (playlist_data : pyval)
    (docs : list pyval * list pyval) : M (list pyval * list pyval) :=
  logging INFO [Lit "Processing playlist: "; Fmt (PStr playlist_name)] ;;
  if is_none playlist_data then
    logging WARNING [Lit "Playlist data is None for "; Fmt (PStr playlist_name)] ;;
    ret docs
  else
    playlist_info <- lift (get playlist_data "playlist_info") ;;
    if is_none playlist_info then
      logging WARNING [Lit "Playlist info is None for "; Fmt (PStr playlist_name)] ;;
      ret docs
    else
      full <- lift (full_playlist playlist_info) ;;
      minimal <- lift (minimal_playlist playlist_info) ;;
      tracks <- lift (get_default playlist_data "tracks" (PList [])) ;;
      tracks <- (if is_none tracks then
                   logging WARNING [Lit "Tracks is None for "; Fmt (PStr playlist_name)] ;;
                   ret (PList [])
                 else ret tracks) ;;
      tracks <- lift (iterate tracks) ;;
      lists <- export_tracks playlist_name tracks ([], []) ;;
      ret (fst docs ++ [PDict (full ++ [("tracks", PList (fst lists))])],
           snd docs ++ [PDict (minimal ++ [("tracks", PList (snd lists))])]).

Fixpoint export_entries (playlists_data : pydict) (docs : list pyval * list pyval)
    : M (list pyval * list pyval) :=
  match playlists_data with
  | [] => ret docs
  | (playlist_name, playlist_data) :: rest =>
      docs <- export_entry playlist_name playlist_data docs ;;
      export_entries rest docs
  end.

(** The playlists of the full and of the minimal document. *)
Definition export_documents (playlists_data : pydict) : M (list pyval * list pyval) :=
  export_entries playlists_data ([], []).

Definition export_data (export_date : string) (playlists : list pyval) : pyval :=
  PDict [("export_date", PStr export_date); ("playlists", PList playlists)].

Definition save_playlists_to_json (script_dir : string) (now : clock)
    (playlists_data : pydict) : M unit :=
  let output_dir :=
    path_join (path_join script_dir "output") ("spotify_export_" ++ timestamp now) in
  emit (MakeDirs output_dir) ;;
  docs <- export_documents playlists_data ;;
  let full_export_data := export_data (export_date_full now) (fst docs) in
  let minimal_export_data := export_data (export_date_minimal now) (snd docs) in
  let full_filepath := path_join output_dir "full_export.json" in
  emit (WriteFile full_filepath (dumps 0 full_export_data)) ;;
  let minimal_filepath := path_join output_dir "minimal_export.json" in
  emit (WriteFile minimal_filepath (dumps 0 minimal_export_data)) ;;
  logging INFO [Lit "Full playlist data has been exported to '";
                Fmt (PStr full_filepath); Lit "'"] ;;
  logging INFO [Lit "Minimal playlist data has been exported to '";
                Fmt (PStr minimal_filepath); Lit "'"] ;;
  print [Lit "Playlist data has been exported to the directory: '";
         Fmt (PStr output_dir); Lit "'"].

(** *** [main] *)

(** Lines 321-328: the mapping handed to the export, keyed by playlist
    name.  The keys of a [pydict] and the ids of [get_playlist_tracks] are
    strings.  A playlist listed by [get_user_playlists_and_saved_tracks]
    has a [str] name (its sort key [name.lower()] was computed).  An id
    that is not a [str] ends the loop here with [TypeError], where line 324
    hands the value to the client library unchecked: what is proved of
    this loop is about playlists whose id is a [str]. *)
Definition as_str (v : pyval) : res string :=
  match v with
  | PStr s => Ok s
  | _ => Err TypeError
  end.

Definition collect_playlist (sp : Spotify) (fuel : nat) (playlist : pyval)
    (all_playlist_data : pydict) : M pydict :=
  name <- lift (subscript playlist "name") ;;
  print [Lit "Fetching tracks for playlist: "; Fmt name] ;;
  playlist_id <- lift (subscript playlist "id") ;;
  playlist_id <- lift (as_str playlist_id) ;;
  tracks <- get_playlist_tracks sp fuel playlist_id ;;
  name <- lift (as_str name) ;;
  ret (dict_set name
         (PDict [("playlist_info", playlist); ("tracks", PList tracks)])
         all_playlist_data).

Fixpoint collect_playlists (sp : Spotify) (fuel : nat) (playlists : list pyval)
    (all_playlist_data : pydict) : M pydict :=
  match playlists with
  | [] => ret all_playlist_data
  | playlist :: rest =>
      all_playlist_data <- collect_playlist sp fuel playlist all_playlist_data ;;
      collect_playlists sp fuel rest all_playlist_data
  end.

(** The body of [main] from line 314 to line 333, for a client [sp]
    already authenticated; [confirmed] is the answer that
    [confirm_playlists] returns (its listing and its prompt on the console
    are left out).  The result tells whether the export ran. *)
Definition main (sp : Spotify) (fuel : nat) (script_dir : string) (now : clock)
    (confirmed : bool) : M bool :=
  print [Lit "Authentication successful. Fetching user playlists and saved tracks..."] ;;
  listing <- get_user_playlists_and_saved_tracks sp fuel ;;
  if negb confirmed then
    print [Lit "Operation cancelled by user. Exiting..."] ;;
    ret false
  else
    all_playlist_data <- collect_playlists sp fuel (fst listing) [] ;;
    print [Lit "Exporting all playlist data to JSON..."] ;;
    save_playlists_to_json script_dir now all_playlist_data ;;
    print [Lit "Export completed successfully!"] ;;
    ret true.

(** ** Specification vocabulary *)

(** The listing that starts with the response [first] consists of the
    pages [pages]: every page but the last carries a cursor that the loops
    follow, [sp.next] answers it with the page after, and the cursor of the
    last page is null. *)
Fixpoint serves (sp : Spotify) (first : option Page) (pages : list Page) : Prop :=
  match pages with
  | [] => first = None
  | page :: rest =>
      first = Some page /\
      match rest with
      | [] => next page = None
      | _ :: _ => truthy (next page) = true /\ serves sp (sp_next sp page) rest
      end
  end.

Definition all_items (pages : list Page) : list pyval := List.concat (map items pages).

(** The world after the API calls [calls]. *)
Definition called (calls : list api_call) (w : world) : world :=
  mkWorld (trace w ++ map Api calls) (memo w).

(** The [sp.next] calls of a walk over [pages]: one per page but the last. *)
Definition next_calls (pages : list Page) : list api_call :=
  map Next (removelast pages).

(** A playlist object whose [tracks.total] can be compared with 0. *)
Definition counted (playlist : pyval) : Prop :=
  exists keep, has_tracks playlist = Ok keep.

Definition total_positive (playlist : pyval) : bool :=
  match has_tracks playlist with
  | Ok keep => keep
  | Err _ => false
  end.

(** The response that opens the track listing of a playlist id. *)
Definition tracks_endpoint (sp : Spotify) (playlist_id : string) : option Page :=
  if (playlist_id =? "liked_songs")%string then current_user_saved_tracks sp
  else playlist_tracks sp playlist_id.

Definition tracks_call (playlist_id : string) : api_call :=
  if (playlist_id =? "liked_songs")%string then CurrentUserSavedTracks
  else PlaylistTracks playlist_id.

(** The server lists [tracks] for the id, within the fuel. *)
Definition tracks_served (sp : Spotify) (fuel : nat) (playlist_id : string)
    (tracks : list pyval) : Prop :=
  exists pages,
    List.length pages <= fuel /\
    serves sp (tracks_endpoint sp playlist_id) pages /\
    all_items pages = tracks.

(** Every list in the [lru_cache] table is the listing of its id. *)
Definition memo_sound (sp : Spotify) (fuel : nat)
    (table : list (string * list pyval)) : Prop :=
  forall playlist_id tracks,
    memo_lookup playlist_id table = Some tracks ->
    tracks_served sp fuel playlist_id tracks.

(** With the saved tracks listed, the playlists before the sort. *)
Definition with_liked_songs (playlists saved_tracks : list pyval) : list pyval :=
  match saved_tracks with
  | [] => playlists
  | _ :: _ => playlists ++ [liked_songs_playlist saved_tracks]
  end.

Definition named (playlist : pyval) : Prop :=
  exists name, subscript playlist "name" = Ok (PStr name).

(** The server answers both listings of the aggregator within the fuel,
    with playlist objects that carry a track count and, when kept, a name. *)
Definition well_listed (sp : Spotify) (fuel : nat)
    (playlist_pages saved_pages : list Page) : Prop :=
  serves sp (current_user_playlists sp) playlist_pages /\
  List.length playlist_pages <= fuel /\
  Forall counted (all_items playlist_pages) /\
  Forall named (filter total_positive (all_items playlist_pages)) /\
  serves sp (current_user_saved_tracks sp) saved_pages /\
  List.length saved_pages <= fuel.

Definition key_le (a b : string * pyval) : Prop :=
  String.leb (fst a) (fst b) = true.

(** The world after the events [evs]. *)
Definition logged (evs : list event) (w : world) : world :=
  mkWorld (trace w ++ evs) (memo w).

Definition finish {A} (r : res A) (w : world) : outcome A :=
  match r with
  | Ok a => Returns a w
  | Err e => Raises e w
  end.

(** A computation that never reads the world: it returns or raises [r]
    after the events [evs], whatever happened before. *)
Definition event_only {A} (m : M A) : Prop :=
  exists r evs, forall w, m w = finish r (logged evs w).

(** What a computation returns or raises, without the world. *)
Definition result {A} (o : outcome A) : option (res A) :=
  match o with
  | Returns a _ => Some (Ok a)
  | Raises e _ => Some (Err e)
  | OutOfFuel => None
  end.

(** [d.get(k, default)] on a dict known to be one. *)
Definition field (d : pydict) (k : string) (default : pyval) : pyval :=
  match dict_lookup k d with
  | Some x => x
  | None => default
  end.

Definition field_of (v : pyval) (k : string) (default : pyval) : pyval :=
  match v with
  | PDict d => field d k default
  | _ => default
  end.

(** An entry of the mapping that the export loop passes over: its value is
    null, or its metadata is absent or null. *)
Definition null_metadata (playlist_data : pyval) : Prop :=
  playlist_data = PNone \/
  exists d, playlist_data = PDict d /\
            (dict_lookup "playlist_info" d = None \/
             dict_lookup "playlist_info" d = Some PNone).

Definition nonempty_name (v : pyval) : Prop :=
  exists name, subscript v "name" = Ok (PStr name) /\ name <> "".

(** The sub-document [doc] has the name of the metadata of an entry of
    the mapping. *)
Definition name_copied (playlists_data : pydict) (doc : pyval) : Prop :=
  exists playlist_name playlist_data playlist_info name,
    In (playlist_name, playlist_data) playlists_data /\
    get playlist_data "playlist_info" = Ok playlist_info /\
    get playlist_info "name" = Ok name /\
    subscript doc "name" = Ok name.

(** The projection of a track whose nested object is the dict [info], with
    the default of every absent field. *)
Definition projected (d info : pydict) (artists : list pyval) : pyval :=
  PDict [("id", field info "id" (PStr ""));
         ("name", field info "name" (PStr ""));
         ("artists", PList (map (fun artist => field_of artist "name" (PStr "")) artists));
         ("album", field_of (field info "album" (PDict [])) "name" (PStr ""));
         ("duration_ms", field info "duration_ms" (PInt 0));
         ("added_at", field d "added_at" (PStr ""));
         ("uri", field info "uri" (PStr ""));
         ("external_url",
          field_of (field info "external_urls" (PDict [])) "spotify" (PStr ""))].

(** The value stored in [all_playlist_data] for a playlist (lines 325-328). *)
Definition entry_of (playlist : pyval) (tracks : list pyval) : pyval :=
  PDict [("playlist_info", playlist); ("tracks", PList tracks)].

(** A confirmed playlist with its name and the track listing that the
    server gives for its id. *)
Definition fetched : Type := pyval * string * list pyval.

Definition playlist_of (f : fetched) : pyval := fst (fst f).
Definition name_of (f : fetched) : string := snd (fst f).
Definition tracks_of (f : fetched) : list pyval := snd f.

Definition fetchable (sp : Spotify) (fuel : nat) (f : fetched) : Prop :=
  exists playlist_id,
    subscript (playlist_of f) "name" = Ok (PStr (name_of f)) /\
    subscript (playlist_of f) "id" = Ok (PStr playlist_id) /\
    tracks_served sp fuel playlist_id (tracks_of f).

(** The assignments of the loop of [main], one after the other. *)
Definition keyed (fs : list fetched) (all_playlist_data : pydict) : pydict :=
  fold_left (fun data f => dict_set (name_of f) (entry_of (playlist_of f) (tracks_of f)) data)
            fs all_playlist_data.

(** The two same-named playlists of [demo_sp], as [main] fetches them. *)
Definition demo_fetched : list fetched :=
  [(playlist "p1" "Mix" 3, "Mix", all_items [p1_page1; p1_page2]);
   (playlist "p5" "Mix" 1, "Mix", all_items [p5_page])].

(** The text of an export file up to the value of [export_date]. *)
Definition export_head : string :=
  ("{" ++ newline_indent 1 ++ encode_basestring "export_date" ++ ": ")%string.

(** The text of an export file after the value of [export_date]. *)
Definition export_rest (playlists : list pyval) : string :=
  ("," ++ newline_indent 1 ++ encode_basestring "playlists" ++ ": "
   ++ dumps 1 (PList playlists) ++ newline_indent 0 ++ "}")%string.


(** *** Walks over any server *)

Definition has_cursor (page : Page) : bool := truthy (next page).

(** The walk that starts with the response [first] visits the pages
    [pages]: it goes on as long as the cursor of the page is true and
    [sp.next] answers a page, and the last page is the first one where
    either fails. *)
Fixpoint walks (sp : Spotify) (first : option Page) (pages : list Page) : Prop :=
  match pages with
  | [] => first = None
  | page :: rest =>
      first = Some page /\
      match rest with
      | [] => has_cursor page = false \/ sp_next sp page = None
      | _ :: _ => has_cursor page = true /\ walks sp (sp_next sp page) rest
      end
  end.

(** The [sp.next] calls of such a walk: one per visited page whose cursor
    is true. *)
Definition cursor_calls (pages : list Page) : list api_call :=
  map Next (filter has_cursor pages).

(** A server that always has a next page. *)
Definition endless (sp : Spotify) : Prop :=
  forall page, has_cursor page = true ->
    exists page', sp_next sp page = Some page' /\ has_cursor page' = true.


(** *** Classes of events *)

(** The computation returns or raises after events that all satisfy [P],
    and leaves the cache as it is. *)
Definition emits {A} (P : event -> Prop) (m : M A) : Prop :=
  forall w,
    match m w with
    | Returns _ w' | Raises _ w' => exists evs, w' = logged evs w /\ Forall P evs
    | OutOfFuel => True
    end.

Definition is_log (ev : event) : Prop :=
  match ev with
  | Log _ _ => True
  | _ => False
  end.

(** The events of the aggregator: its calls to the two listings and to
    [sp.next]. *)
Definition is_listing_call (ev : event) : Prop :=
  match ev with
  | Api CurrentUserPlaylists | Api CurrentUserSavedTracks | Api (Next _) => True
  | _ => False
  end.

(** The sort key of [x] is [k]. *)
Definition has_key (key : pyval -> res string) (k : string) (x : pyval) : bool :=
  match key x with
  | Ok k' => (k' =? k)%string
  | Err _ => false
  end.

(** The record that [format_track_data] builds has the eight fields of a
    formatted track, in the order of the export, with a list of artists. *)
Definition formatted_track (record : pyval) : Prop :=
  exists id name artists album duration_ms added_at uri external_url,
    record = PDict [("id", id);
                    ("name", name);
                    ("artists", PList artists);
                    ("album", album);
                    ("duration_ms", duration_ms);
                    ("added_at", added_at);
                    ("uri", uri);
                    ("external_url", external_url)].


Definition is_print (ev : event) : Prop :=
  match ev with
  | Print _ => True
  | _ => False
  end.

(** A playlist object from which the export can build its header. *)
Definition exportable (playlist_info : pyval) : Prop :=
  exists full, full_playlist playlist_info = Ok full.

(** The [name] of each sub-document of a list. *)
Definition names_of (docs : list pyval) : list (res pyval) :=
  map (fun doc => subscript doc "name") docs.

(** The keys of a mapping, as the names they give to sub-documents. *)
Definition keys_as_names (playlists_data : pydict) : list (res pyval) :=
  map (fun entry => Ok (PStr (fst entry))) playlists_data.


(** ** The process: credentials, console input and exit status

    [get_spotify_client], [confirm_playlists] and the handlers of [main]
    read the environment and the console and end the process.  A
    [process] adds the lines waiting on standard input to the world;
    [raised] adds to [exn] the other exceptions that these functions meet.
    Nothing here raises [KeyboardInterrupt]: the interrupt is asynchronous,
    and line 40 replaces its handler. *)

Inductive raised : Type :=
| Exception (e : exn)
| EOFError
| SpotifyOauthError (message : string)
| KeyboardInterrupt
| SystemExit (code : Z).

Record process : Type := mkProcess {
  console : world;
  stdin : list string
}.

Inductive ending (A : Type) : Type :=
| Normal (a : A) (p : process)
| Abrupt (r : raised) (p : process)
| Unfinished.
Arguments Normal {A} a p.
Arguments Abrupt {A} r p.
Arguments Unfinished {A}.

Definition P (A : Type) : Type := process -> ending A.

Definition pret {A} (a : A) : P A := fun p => Normal a p.

Definition praise {A} (r : raised) : P A := fun p => Abrupt r p.

Definition pbind {A B} (m : P A) (k : A -> P B) : P B :=
  fun p =>
    match m p with
    | Normal a p' => k a p'
    | Abrupt r p' => Abrupt r p'
    | Unfinished => Unfinished
    end.

Notation "x <-- m ;; k" := (pbind m (fun x => k))
  (at level 100, m at next level, right associativity).
Notation "m ;;; k" := (pbind m (fun _ => k))
  (at level 100, right associativity).

(** A computation on the world, run by the process. *)
Definition run {A} (m : M A) : P A :=
  fun p =>
    match m (console p) with
    | Returns a w => Normal a (mkProcess w (stdin p))
    | Raises e w => Abrupt (Exception e) (mkProcess w (stdin p))
    | OutOfFuel => Unfinished
    end.

Definition say (msg : list piece) : P unit := run (print msg).

Definition sys_exit {A} (code : Z) : P A := praise (SystemExit code).

(** [input(prompt)]: the prompt is written, then a line is read; at the
    end of the input it raises [EOFError]. *)
Definition input (prompt : string) : P string :=
  fun p =>
    let w := logged [Print [Lit prompt]] (console p) in
    match stdin p with
    | [] => Abrupt EOFError (mkProcess w [])
    | line :: rest => Normal line (mkProcess w rest)
    end.

(** [str.strip()]: the white space of [str.isspace] among the characters
    below 256. *)
Definition isspace (c : ascii) : bool :=
  let n := nat_of_ascii c in
  ((9 <=? n)%nat && (n <=? 13)%nat) || ((28 <=? n)%nat && (n <=? 32)%nat)
  || (n =? 133)%nat || (n =? 160)%nat.

Fixpoint lstrip (s : string) : string :=
  match s with
  | EmptyString => EmptyString
  | String c rest => if isspace c then lstrip rest else s
  end.

Definition reverse (s : string) : string :=
  string_of_list_ascii (rev (list_ascii_of_string s)).

Definition strip (s : string) : string :=
  reverse (lstrip (reverse (lstrip s))).

(** *** [get_spotify_client] *)

(** The three variables that [os.getenv] reads, after [load_dotenv()]. *)
Record environment : Type := mkEnvironment {
  SPOTIPY_CLIENT_ID : option string;
  SPOTIPY_CLIENT_SECRET : option string;
  SPOTIPY_REDIRECT_URI : option string
}.

(** What a call of [spotipy.oauth2] answers: a value, or a
    [SpotifyOauthError] with its message. *)
Inductive oauth (A : Type) : Type :=
| Granted (a : A)
| Refused (message : string).
Arguments Granted {A} a.
Arguments Refused {A} message.

(** The [SpotifyOAuth] manager built from the credentials, the scope and
    the cache file: the answers of the four calls that the script makes.
    [cached_token_valid] is the truth value of
    [validate_token(cache_handler.get_cached_token())]. *)
Record SpotifyOAuth : Type := mkSpotifyOAuth {
  cached_token_valid : oauth bool;
  get_authorize_url : string;
  parse_response_code : string -> oauth string;
  get_access_token : string -> oauth unit
}.

Definition calls_oauth {A} (answer : oauth A) : P A :=
  match answer with
  | Granted a => pret a
  | Refused message => praise (SpotifyOauthError message)
  end.

(** [all([client_id, client_secret, redirect_uri])] *)
Definition credentials_present (env : environment) : bool :=
  truthy (SPOTIPY_CLIENT_ID env) && truthy (SPOTIPY_CLIENT_SECRET env)
  && truthy (SPOTIPY_REDIRECT_URI env).

(** Lines 53-88; [auth_manager] is the manager that line 63 builds and
    [sp] the client that line 88 builds from it. *)
Definition get_spotify_client (env : environment) (auth_manager : SpotifyOAuth)
    (sp : Spotify) : P Spotify :=
  if negb (credentials_present env) then
    say [Lit "Error: Missing Spotify API credentials. Please check your .env file."] ;;;
    sys_exit 1
  else
    valid <-- calls_oauth (cached_token_valid auth_manager) ;;
    (if negb valid then
       say [Lit "No valid token found. Please authenticate manually."] ;;;
       say [Lit (String newline
                   "Please navigate to the following URL to authorize the application:")] ;;;
       say [Fmt (PStr (get_authorize_url auth_manager))] ;;;
       say [Lit (String newline
                   "After authorizing, you will be redirected to a URL. Please copy and paste that URL here:")] ;;;
       response <-- input "Enter the URL you were redirected to: " ;;
       code <-- calls_oauth (parse_response_code auth_manager (strip response)) ;;
       calls_oauth (get_access_token auth_manager code)
     else pret tt) ;;;
    pret sp.

(** *** [confirm_playlists] *)

(** The loop of lines 297-298, from the number [i]. *)
Fixpoint show_playlists (i : Z) (playlists : list pyval) : M unit :=
  match playlists with
  | [] => ret tt
  | playlist :: rest =>
      name <- lift (subscript playlist "name") ;;
      tracks <- lift (subscript playlist "tracks") ;;
      total <- lift (subscript tracks "total") ;;
      print [Fmt (PInt i); Lit ". "; Fmt name; Lit " ("; Fmt total; Lit " tracks)"] ;;
      show_playlists (i + 1) rest
  end.

Definition confirm_prompt : string :=
  String newline "Are you okay with this list? (y/n): ".

Definition confirm_complaint : list piece :=
  [Lit "Please enter 'y' for yes or 'n' for no."].

(** [input(...).lower().strip()] *)
Definition normalise (line : string) : string := strip (str_lower line).

Definition is_yes (response : string) : bool :=
  (response =? "y")%string || (response =? "yes")%string.

Definition is_no (response : string) : bool :=
  (response =? "n")%string || (response =? "no")%string.

(** The loop of lines 300-307, which ends with an answer or with the
    input. *)
Fixpoint confirm_loop (lines : list string) (w : world) : ending bool :=
  let w := logged [Print [Lit confirm_prompt]] w in
  match lines with
  | [] => Abrupt EOFError (mkProcess w [])
  | line :: rest =>
      let response := normalise line in
      if is_yes response then Normal true (mkProcess w rest)
      else if is_no response then Normal false (mkProcess w rest)
      else confirm_loop rest (logged [Print confirm_complaint] w)
  end.

Definition confirm_playlists (playlists : list pyval) : P bool :=
  say [Lit (String newline "The following playlists were found:")] ;;;
  run (show_playlists 1 playlists) ;;;
  fun p => confirm_loop (stdin p) (console p).

(** *** [main] with its handlers *)

(** The [try] block of [main] (lines 311-333). *)
Definition main_try (env : environment) (auth_manager : SpotifyOAuth)
    (client : Spotify) (fuel : nat) (script_dir : string) (now : clock) : P unit :=
  say [Lit "Starting Spotify authentication process..."] ;;;
  sp <-- get_spotify_client env auth_manager client ;;
  say [Lit "Authentication successful. Fetching user playlists and saved tracks..."] ;;;
  listing <-- run (get_user_playlists_and_saved_tracks sp fuel) ;;
  confirmed <-- confirm_playlists (fst listing) ;;
  (if negb confirmed then
     say [Lit "Operation cancelled by user. Exiting..."] ;;;
     sys_exit 0
   else pret tt) ;;;
  all_playlist_data <-- run (collect_playlists sp fuel (fst listing) []) ;;
  say [Lit "Exporting all playlist data to JSON..."] ;;;
  run (save_playlists_to_json script_dir now all_playlist_data) ;;;
  say [Lit "Export completed successfully!"].

(** [str(e)] in the message of the last handler. *)
Definition error_text (r : raised) : piece :=
  match r with
  | Exception e => FmtExn e
  | EOFError => Lit "EOF when reading a line"
  | SpotifyOauthError message => Lit message
  | KeyboardInterrupt => Lit ""
  | SystemExit code => Fmt (PInt code)
  end.

(** The two [except] clauses of [main] (lines 334-339): [SystemExit] is
    not an [Exception] and goes through. *)
Definition main_except (r : raised) : P unit :=
  match r with
  | KeyboardInterrupt =>
      say [Lit (String newline "Operation cancelled by user. Exiting...")] ;;;
      sys_exit 0
  | SystemExit code => praise (SystemExit code)
  | _ =>
      say [Lit "An error occurred: "; error_text r] ;;;
      sys_exit 1
  end.

(** [main()] as the process runs it (lines 309-342). *)
Definition main_process (env : environment) (auth_manager : SpotifyOAuth)
    (client : Spotify) (fuel : nat) (script_dir : string) (now : clock) : P unit :=
  fun p =>
    match main_try env auth_manager client fuel script_dir now p with
    | Abrupt r p' => main_except r p'
    | other => other
    end.

(** The exit status of the interpreter: 0 at the end of the script, the
    code of [sys.exit], 1 for an exception that nothing caught and 130 for
    an interrupt that nothing caught. *)
Definition exit_status {A} (e : ending A) : option Z :=
  match e with
  | Normal _ _ => Some 0%Z
  | Abrupt (SystemExit code) _ => Some code
  | Abrupt KeyboardInterrupt _ => Some 130%Z
  | Abrupt _ _ => Some 1%Z
  | Unfinished => None
  end.


(** *** Vocabulary of the process *)

(** A variable of the environment that is unset or empty. *)
Definition missing (value : option string) : Prop :=
  value = None \/ value = Some "".

(** A response that is neither a yes nor a no. *)
Definition unclear (line : string) : Prop :=
  is_yes (normalise line) = false /\ is_no (normalise line) = false.

(** What the console shows for the responses that were not understood. *)
Definition reprompts (lines : list string) : list event :=
  flat_map (fun _ => [Print [Lit confirm_prompt]; Print confirm_complaint]) lines.

(** A playlist object that the listing of [confirm_playlists] can show. *)
Definition showable (playlist : pyval) : Prop :=
  exists name tracks total,
    subscript playlist "name" = Ok name /\
    subscript playlist "tracks" = Ok tracks /\
    subscript tracks "total" = Ok total.

(** The only way out of the computation with [sys.exit] is with the
    status 0 or 1. *)
Definition exits_0_or_1 {A} (m : P A) : Prop :=
  forall p code p', m p = Abrupt (SystemExit code) p' -> code = 0%Z \/ code = 1%Z.


(** The playlists that the aggregator lists, before the sort. *)
Definition listed (playlist_pages saved_pages : list Page) : list pyval :=
  with_liked_songs (filter total_positive (all_items playlist_pages))
                   (all_items saved_pages).

(** A listed playlist that [main] can fetch and the export can write. *)
Definition ready (sp : Spotify) (fuel : nat) (playlist : pyval) : Prop :=
  exportable playlist /\
  exists playlist_id tracks,
    subscript playlist "id" = Ok (PStr playlist_id) /\
    tracks_served sp fuel playlist_id tracks.

Definition export_dir (script_dir : string) (now : clock) : string :=
  path_join (path_join script_dir "output") ("spotify_export_" ++ timestamp now).


(** *** Reading back an escaped character *)

Definition hex_value (c : ascii) : nat :=
  let n := nat_of_ascii c in
  if (n <=? 57)%nat then n - 48 else n - 87.

(** The character that an escape sequence at the head of [s] stands for,
    and what follows it. *)
Definition unescape_head (s : string) : option (ascii * string) :=
  match s with
  | EmptyString => None
  | String c rest =>
      if (c =? backslash)%char then
        match rest with
        | EmptyString => None
        | String d rest' =>
            if (d =? "u")%char then
              match rest' with
              | String _ (String _ (String high (String low rest''))) =>
                  Some (ascii_of_nat (16 * hex_value high + hex_value low), rest'')
              | _ => None
              end
            else if (d =? "b")%char then Some (ascii_of_nat 8, rest')
            else if (d =? "f")%char then Some (ascii_of_nat 12, rest')
            else if (d =? "n")%char then Some (ascii_of_nat 10, rest')
            else if (d =? "r")%char then Some (ascii_of_nat 13, rest')
            else if (d =? "t")%char then Some (ascii_of_nat 9, rest')
            else Some (d, rest')
        end
      else Some (c, rest)
  end.


(** *** Example data of the process *)

Definition demo_env : environment :=
  mkEnvironment (Some "client") (Some "secret") (Some "http://localhost:8888/callback").

(** An environment whose secret is set to the empty string. *)
Definition empty_secret_env : environment :=
  mkEnvironment (Some "client") (Some "") (Some "http://localhost:8888/callback").

(** A manager whose cached token is valid. *)
Definition valid_auth : SpotifyOAuth :=
  mkSpotifyOAuth (Granted true) "https://accounts.spotify.com/authorize"
                 (fun url => Granted url) (fun _ => Granted tt).

(** A manager without a valid cached token, which takes the pasted URL as
    the code. *)
Definition stale_auth : SpotifyOAuth :=
  mkSpotifyOAuth (Granted false) "https://accounts.spotify.com/authorize"
                 (fun url => Granted url) (fun _ => Granted tt).

(** A mapping whose second entry is a string. *)
Definition ill_typed_data : pydict :=
  [("Rock", PDict [("playlist_info", playlist "p3" "Rock" 2); ("tracks", PList [])]);
   ("Oops", PStr "not an entry")].

(** *** Characters that the JSON encoder leaves as they are *)

(** A character from U+0020 on that is neither the quote nor the
    backslash. *)
Definition plain (c : ascii) : Prop :=
  (32 <=? nat_of_ascii c)%nat = true /\ c <> dquote /\ c <> backslash.

(** *** Names, ignoring case *)

(** The names of the playlists of a list, one by one. *)
Definition named_by (playlists : list pyval) (names : list string) : Prop :=
  Forall2 (fun playlist name => subscript playlist "name" = Ok (PStr name))
          playlists names.

(** The order of names that ignores case: with the letters A to Z read as
    a to z, [a] is no later than [b] in the order of [str]. *)
Definition caseless_le (a b : string) : Prop :=
  String.leb (ascii_lower a) (ascii_lower b) = true.

(** The runtime lower-cases [name] as ASCII text is lower-cased: so does
    [str.lower] on a name whose cased letters are among A to Z and a to
    z. *)
Definition lowered_as_ascii (name : string) : Prop :=
  str_lower name = ascii_lower name.

(** *** The playlists that reach the export *)

(** [f] is the last playlist of its name among [fs]. *)
Definition last_of_its_name (fs : list fetched) (f : fetched) : Prop :=
  exists before after,
    fs = before ++ f :: after /\ ~ In (name_of f) (map name_of after).

(** The mapping with one entry for each playlist of [kept], in order. *)
Definition entries_of (kept : list fetched) : pydict :=
  map (fun f => (name_of f, entry_of (playlist_of f) (tracks_of f))) kept.

(** [docs] are the two sub-documents, the full and the minimal one, that
    the export builds from the playlist [f] and its tracks alone. *)
Definition exported_alone (f : fetched) (docs : pyval * pyval) : Prop :=
  forall w,
    result (export_documents (entries_of [f]) w) =
    Some (Ok ([fst docs], [snd docs])).

(** ** The pagination loops *)

Lemma called_nil : forall w, called [] w = w.
Proof.
  intros [t m]. unfold called. simpl. now rewrite app_nil_r.
Qed.

Lemma called_app : forall a b w, called b (called a w) = called (a ++ b) w.
Proof.
  intros a b w. unfold called. simpl.
  now rewrite map_app, app_assoc.
Qed.

Lemma api_run : forall A call (answer : A) w,
  api call answer w = Returns answer (called [call] w).
Proof. reflexivity. Qed.

Lemma serves_deterministic : forall sp pages1 pages2 first,
  serves sp first pages1 -> serves sp first pages2 -> pages1 = pages2.
Proof.
  intros sp pages1.
  induction pages1 as [|p1 rest1 IH]; intros [|p2 rest2] first H1 H2; simpl in *.
  - reflexivity.
  - destruct H2 as [H2 _]. congruence.
  - destruct H1 as [H1 _]. congruence.
  - destruct H1 as [H1 T1], H2 as [H2 T2].
    assert (p1 = p2) by congruence. subst p2. f_equal.
    destruct rest1 as [|q1 r1], rest2 as [|q2 r2].
    + reflexivity.
    + destruct T2 as [T2 _]. rewrite T1 in T2. discriminate.
    + destruct T1 as [T1 _]. rewrite T2 in T1. discriminate.
    + destruct T1 as [_ T1], T2 as [_ T2]. exact (IH _ _ T1 T2).
Qed.

Lemma extend_loop_serves : forall sp pages fuel first tracks w,
  serves sp first pages ->
  List.length pages <= fuel ->
  extend_loop sp fuel first tracks w =
  Returns (tracks ++ all_items pages) (called (next_calls pages) w).
Proof.
  intros sp pages.
  induction pages as [|page rest IH]; intros fuel first tracks w Hs Hf.
  - simpl in Hs. subst first.
    destruct fuel; simpl; unfold ret, all_items; simpl;
      now rewrite app_nil_r, called_nil.
  - destruct Hs as [Hfirst Hrest]. subst first.
    destruct fuel as [|fuel]; [simpl in Hf; lia|].
    simpl in Hf. simpl extend_loop.
    destruct rest as [|page2 rest].
    + rewrite Hrest. simpl. unfold ret, all_items, next_calls. simpl.
      now rewrite app_nil_r, called_nil.
    + destruct Hrest as [Ht Hrest]. rewrite Ht.
      unfold bind. rewrite api_run.
      rewrite (IH fuel _ _ _ Hrest) by (simpl in *; lia).
      rewrite called_app. unfold all_items. simpl.
      now rewrite <- app_assoc.
Qed.

Lemma append_nonempty_filter : forall page_items playlists,
  Forall counted page_items ->
  append_nonempty page_items playlists =
  Ok (playlists ++ filter total_positive page_items).
Proof.
  induction page_items as [|playlist rest IH]; intros playlists H.
  - simpl. now rewrite app_nil_r.
  - inversion H as [|? ? [keep Hk] Hrest]; subst.
    simpl. unfold total_positive. rewrite Hk. simpl.
    rewrite (IH _ Hrest).
    destruct keep; [now rewrite <- app_assoc | reflexivity].
Qed.

Lemma playlists_loop_serves : forall sp pages fuel first playlists w,
  serves sp first pages ->
  List.length pages <= fuel ->
  Forall counted (all_items pages) ->
  playlists_loop sp fuel first playlists w =
  Returns (playlists ++ filter total_positive (all_items pages))
          (called (next_calls pages) w).
Proof.
  intros sp pages.
  induction pages as [|page rest IH]; intros fuel first playlists w Hs Hf Hc.
  - simpl in Hs. subst first.
    destruct fuel; simpl; unfold ret, all_items; simpl;
      now rewrite app_nil_r, called_nil.
  - destruct Hs as [Hfirst Hrest]. subst first.
    destruct fuel as [|fuel]; [simpl in Hf; lia|].
    simpl in Hf. unfold all_items in Hc. simpl in Hc.
    apply Forall_app in Hc. destruct Hc as [Hpage Hc].
    simpl playlists_loop. unfold bind at 1.
    rewrite (append_nonempty_filter _ _ Hpage). simpl.
    destruct rest as [|page2 rest].
    + rewrite Hrest. simpl. unfold ret, all_items, next_calls. simpl.
      now rewrite app_nil_r, called_nil.
    + destruct Hrest as [Ht Hrest]. rewrite Ht.
      unfold bind. rewrite api_run.
      rewrite (IH fuel _ _ _ Hrest) by (simpl in *; lia || exact Hc).
      rewrite called_app. unfold all_items. simpl.
      now rewrite (filter_app _ (items page)), <- app_assoc.
Qed.

Lemma get_saved_tracks_serves : forall sp fuel pages w,
  serves sp (current_user_saved_tracks sp) pages ->
  List.length pages <= fuel ->
  get_saved_tracks sp fuel w =
  Returns (all_items pages) (called (CurrentUserSavedTracks :: next_calls pages) w).
Proof.
  intros sp fuel pages w Hs Hf.
  unfold get_saved_tracks, bind. rewrite api_run.
  rewrite (extend_loop_serves _ _ _ _ _ _ Hs Hf).
  now rewrite called_app.
Qed.

Lemma get_user_playlists_serves : forall sp fuel pages w,
  serves sp (current_user_playlists sp) pages ->
  List.length pages <= fuel ->
  Forall counted (all_items pages) ->
  get_user_playlists sp fuel w =
  Returns (filter total_positive (all_items pages))
          (called (CurrentUserPlaylists :: next_calls pages) w).
Proof.
  intros sp fuel pages w Hs Hf Hc.
  unfold get_user_playlists, bind. rewrite api_run.
  rewrite (playlists_loop_serves _ _ _ _ _ _ Hs Hf Hc).
  now rewrite called_app.
Qed.

(** ** The cached track listing *)

Lemma get_playlist_tracks_hit : forall sp fuel playlist_id cached w,
  memo_lookup playlist_id (memo w) = Some cached ->
  get_playlist_tracks sp fuel playlist_id w = Returns cached w.
Proof.
  intros sp fuel playlist_id cached w H.
  unfold get_playlist_tracks, lru_cache. now rewrite H.
Qed.

Lemma get_playlist_tracks_miss : forall sp fuel playlist_id pages w,
  memo_lookup playlist_id (memo w) = None ->
  serves sp (tracks_endpoint sp playlist_id) pages ->
  List.length pages <= fuel ->
  get_playlist_tracks sp fuel playlist_id w =
  Returns (all_items pages)
          (mkWorld (trace w ++ map Api (tracks_call playlist_id :: next_calls pages))
                   ((playlist_id, all_items pages) :: memo w)).
Proof.
  intros sp fuel playlist_id pages w Hmiss Hs Hf.
  unfold get_playlist_tracks, lru_cache. rewrite Hmiss.
  unfold get_playlist_tracks_uncached, tracks_endpoint, tracks_call in *.
  destruct (playlist_id =? "liked_songs")%string.
  - now rewrite (get_saved_tracks_serves _ _ _ _ Hs Hf).
  - unfold bind. rewrite api_run.
    rewrite (extend_loop_serves _ _ _ _ _ _ Hs Hf).
    now rewrite called_app.
Qed.

Lemma tracks_served_unique : forall sp fuel playlist_id tracks1 tracks2,
  tracks_served sp fuel playlist_id tracks1 ->
  tracks_served sp fuel playlist_id tracks2 ->
  tracks1 = tracks2.
Proof.
  intros sp fuel playlist_id tracks1 tracks2 (p1 & _ & H1 & E1) (p2 & _ & H2 & E2).
  rewrite <- E1, <- E2. f_equal. eapply serves_deterministic; eassumption.
Qed.

(** A call on a sound table returns the listing of the id and leaves the
    table sound; it adds the API calls of one walk, or none on a hit. *)
Lemma get_playlist_tracks_pages : forall sp fuel playlist_id pages w,
  memo_sound sp fuel (memo w) ->
  serves sp (tracks_endpoint sp playlist_id) pages ->
  List.length pages <= fuel ->
  exists calls table,
    get_playlist_tracks sp fuel playlist_id w =
    Returns (all_items pages) (mkWorld (trace w ++ map Api calls) table) /\
    memo_sound sp fuel table /\
    (calls = [] \/ calls = tracks_call playlist_id :: next_calls pages).
Proof.
  intros sp fuel playlist_id pages w Hsound Hs Hf.
  assert (Hserved : tracks_served sp fuel playlist_id (all_items pages))
    by (exists pages; auto).
  destruct (memo_lookup playlist_id (memo w)) as [cached|] eqn:Hm.
  - exists [], (memo w). split; [|split; [exact Hsound | now left]].
    rewrite (get_playlist_tracks_hit _ _ _ _ _ Hm).
    rewrite (tracks_served_unique _ _ _ _ _ (Hsound _ _ Hm) Hserved).
    simpl. rewrite app_nil_r. now destruct w.
  - exists (tracks_call playlist_id :: next_calls pages),
           ((playlist_id, all_items pages) :: memo w).
    split; [|split; [|now right]].
    + now rewrite (get_playlist_tracks_miss _ _ _ _ _ Hm Hs Hf).
    + intros id l. simpl.
      destruct (playlist_id =? id)%string eqn:Eid.
      * apply String.eqb_eq in Eid. subst id.
        now intros [= <-].
      * apply Hsound.
Qed.

Lemma get_playlist_tracks_served : forall sp fuel playlist_id tracks w,
  memo_sound sp fuel (memo w) ->
  tracks_served sp fuel playlist_id tracks ->
  exists calls table,
    get_playlist_tracks sp fuel playlist_id w =
    Returns tracks (mkWorld (trace w ++ map Api calls) table) /\
    memo_sound sp fuel table.
Proof.
  intros sp fuel playlist_id tracks w Hsound (pages & Hf & Hs & E).
  destruct (get_playlist_tracks_pages _ _ _ _ _ Hsound Hs Hf)
    as (calls & table & Hrun & Htable & _).
  exists calls, table. now rewrite <- E.
Qed.

(** ** The sort *)

Lemma leb_trans : forall a b c,
  String.leb a b = true -> String.leb b c = true -> String.leb a c = true.
Proof.
  intros a b c. unfold String.leb.
  destruct (String.compare a b) eqn:Hab; try discriminate;
  destruct (String.compare b c) eqn:Hbc; try discriminate; intros _ _.
  - apply String_as_OT.cmp_eq in Hab. subst b. now rewrite Hbc.
  - apply String_as_OT.cmp_eq in Hab. subst b. now rewrite Hbc.
  - apply String_as_OT.cmp_eq in Hbc. subst c. now rewrite Hab.
  - apply String_as_OT.cmp_lt in Hab, Hbc.
    pose proof (String_as_OT.lt_trans _ _ _ Hab Hbc) as H.
    apply String_as_OT.cmp_lt in H. unfold String_as_OT.cmp in H. now rewrite H.
Qed.

Lemma ltb_leb : forall a b, String.ltb a b = true -> String.leb a b = true.
Proof.
  intros a b. unfold String.ltb, String.leb.
  now destruct (String.compare a b).
Qed.

Lemma not_ltb_leb : forall a b, String.ltb a b = false -> String.leb b a = true.
Proof.
  intros a b. unfold String.ltb, String.leb.
  rewrite (String.compare_antisym a b).
  now destruct (String.compare b a).
Qed.

Lemma insert_keyed_perm : forall kx sorted,
  Permutation (insert_keyed kx sorted) (kx :: sorted).
Proof.
  intros kx sorted. induction sorted as [|ky rest IH]; simpl.
  - apply Permutation_refl.
  - destruct (String.ltb (fst ky) (fst kx)).
    + eapply perm_trans; [apply perm_skip, IH | apply perm_swap].
    + apply Permutation_refl.
Qed.

Lemma sort_keyed_perm : forall l, Permutation (sort_keyed l) l.
Proof.
  induction l as [|kx l IH]; simpl.
  - apply perm_nil.
  - eapply perm_trans; [apply insert_keyed_perm | now apply perm_skip].
Qed.

Lemma insert_keyed_sorted : forall kx sorted,
  StronglySorted key_le sorted ->
  StronglySorted key_le (insert_keyed kx sorted).
Proof.
  intros kx sorted H. induction H as [|ky rest Hrest IH Hky]; simpl.
  - repeat constructor.
  - destruct (String.ltb (fst ky) (fst kx)) eqn:E.
    + constructor; [exact IH|].
      apply (Permutation_Forall (Permutation_sym (insert_keyed_perm kx rest))).
      constructor; [now apply ltb_leb | exact Hky].
    + apply not_ltb_leb in E.
      constructor; [now constructor|].
      constructor; [exact E|].
      eapply Forall_impl; [|exact Hky].
      intros kz Hz. unfold key_le in *. eapply leb_trans; eassumption.
Qed.

Lemma sort_keyed_sorted : forall l, StronglySorted key_le (sort_keyed l).
Proof.
  induction l as [|kx l IH]; simpl.
  - constructor.
  - now apply insert_keyed_sorted.
Qed.

Lemma mapM_combine : forall (key : pyval -> res string) l keys,
  mapM key l = Ok keys ->
  Forall (fun kx => key (snd kx) = Ok (fst kx)) (combine keys l) /\
  map snd (combine keys l) = l.
Proof.
  intros key l. induction l as [|x l IH]; intros keys H; simpl in H.
  - injection H as <-. simpl. auto.
  - destruct (key x) as [k|] eqn:Hk; [|discriminate]. simpl in H.
    destruct (mapM key l) as [ks|] eqn:Hks; [|discriminate]. simpl in H.
    injection H as <-. destruct (IH ks eq_refl) as [IH1 IH2].
    simpl. split; [constructor; [exact Hk | exact IH1] | now rewrite IH2].
Qed.

Lemma mapM_keys : forall (key : pyval -> res string) pairs,
  Forall (fun kx => key (snd kx) = Ok (fst kx)) pairs ->
  mapM key (map snd pairs) = Ok (map fst pairs).
Proof.
  intros key pairs H. induction H as [|kx rest Hk _ IH]; simpl.
  - reflexivity.
  - now rewrite Hk, IH.
Qed.

Lemma mapM_total : forall (key : pyval -> res string) l,
  Forall (fun x => exists k, key x = Ok k) l ->
  exists keys, mapM key l = Ok keys.
Proof.
  intros key l H. induction H as [|x l [k Hk] _ [ks IH]]; simpl.
  - now exists [].
  - exists (k :: ks). now rewrite Hk, IH.
Qed.

Lemma sorted_map_fst : forall pairs,
  StronglySorted key_le pairs ->
  StronglySorted (fun a b => String.leb a b = true) (map fst pairs).
Proof.
  intros pairs H. induction H as [|kx rest _ IH Hk]; simpl.
  - constructor.
  - constructor; [exact IH|].
    apply Forall_map. exact Hk.
Qed.

(** What [list.sort(key=...)] returns: a permutation of the list whose
    keys ascend. *)
Lemma list_sort_spec : forall key l keys,
  mapM key l = Ok keys ->
  exists sorted sorted_keys,
    list_sort key l = Ok sorted /\
    Permutation sorted l /\
    mapM key sorted = Ok sorted_keys /\
    StronglySorted (fun a b => String.leb a b = true) sorted_keys.
Proof.
  intros key l keys H.
  destruct (mapM_combine _ _ _ H) as [Hpairs Hsnd].
  pose proof (sort_keyed_perm (combine keys l)) as Hperm.
  exists (map snd (sort_keyed (combine keys l))),
         (map fst (sort_keyed (combine keys l))).
  repeat split.
  - unfold list_sort. now rewrite H.
  - rewrite <- Hsnd at 2. now apply Permutation_map.
  - apply mapM_keys.
    exact (Permutation_Forall (Permutation_sym Hperm) Hpairs).
  - apply sorted_map_fst, sort_keyed_sorted.
Qed.

(** ** The aggregator *)

Lemma named_name_key : forall playlist,
  named playlist -> exists k, name_key playlist = Ok k.
Proof.
  intros playlist [name H]. exists (str_lower name).
  unfold name_key. now rewrite H.
Qed.

Lemma liked_songs_named : forall saved_tracks, named (liked_songs_playlist saved_tracks).
Proof. intros. now exists "Liked Songs". Qed.

Lemma with_liked_songs_named : forall playlists saved_tracks,
  Forall named playlists -> Forall named (with_liked_songs playlists saved_tracks).
Proof.
  intros playlists [|t saved] H; simpl; [exact H|].
  apply Forall_app. split; [exact H|].
  constructor; [apply liked_songs_named | constructor].
Qed.

Lemma aggregator_returns : forall sp fuel playlist_pages saved_pages w,
  well_listed sp fuel playlist_pages saved_pages ->
  exists playlists keys,
    get_user_playlists_and_saved_tracks sp fuel w =
    Returns (playlists, all_items saved_pages)
            (called (CurrentUserPlaylists :: next_calls playlist_pages
                     ++ CurrentUserSavedTracks :: next_calls saved_pages) w) /\
    Permutation playlists
      (with_liked_songs (filter total_positive (all_items playlist_pages))
                        (all_items saved_pages)) /\
    mapM name_key playlists = Ok keys /\
    StronglySorted (fun a b => String.leb a b = true) keys.
Proof.
  intros sp fuel playlist_pages saved_pages w (Hp & Hpf & Hc & Hn & Hs & Hsf).
  pose proof (with_liked_songs_named _ (all_items saved_pages) Hn) as Hnamed.
  destruct (mapM_total name_key _
              (Forall_impl _ named_name_key Hnamed)) as [keys0 Hkeys].
  destruct (list_sort_spec _ _ _ Hkeys) as (sorted & keys & Hsort & Hperm & Hk & Hord).
  exists sorted, keys. repeat split; try assumption.
  unfold get_user_playlists_and_saved_tracks, bind.
  rewrite (get_user_playlists_serves _ _ _ _ Hp Hpf Hc).
  rewrite (get_saved_tracks_serves _ _ _ _ Hs Hsf).
  fold (with_liked_songs (filter total_positive (all_items playlist_pages))
                         (all_items saved_pages)).
  rewrite Hsort. simpl. unfold ret. now rewrite called_app.
Qed.

(** ** Computations that only append events *)

Lemma logged_nil : forall w, logged [] w = w.
Proof. intros [t m]. unfold logged. simpl. now rewrite app_nil_r. Qed.

Lemma logged_app : forall a b w, logged b (logged a w) = logged (a ++ b) w.
Proof. intros a b w. unfold logged. simpl. now rewrite app_assoc. Qed.

Lemma event_only_ret : forall A (a : A), event_only (ret a).
Proof. intros A a. exists (Ok a), []. intros w. simpl. now rewrite logged_nil. Qed.

Lemma event_only_lift : forall A (r : res A), event_only (lift r).
Proof.
  intros A r. exists r, []. intros w. rewrite logged_nil. now destruct r.
Qed.

Lemma event_only_emit : forall ev, event_only (emit ev).
Proof. intros ev. now exists (Ok tt), [ev]. Qed.

Lemma event_only_bind : forall A B (m : M A) (k : A -> M B),
  event_only m -> (forall a, event_only (k a)) -> event_only (bind m k).
Proof.
  intros A B m k ([a|e] & evs & Hm) Hk.
  - destruct (Hk a) as (r & evs' & Hka). exists r, (evs ++ evs').
    intros w. unfold bind. rewrite Hm. simpl. now rewrite Hka, logged_app.
  - exists (Err e), evs. intros w. unfold bind. now rewrite Hm.
Qed.

Lemma event_only_try : forall A (body : M A) (handler : exn -> M A),
  event_only body -> (forall e, event_only (handler e)) ->
  event_only (try_except body handler).
Proof.
  intros A body handler ([a|e] & evs & Hb) Hh.
  - exists (Ok a), evs. intros w. unfold try_except. now rewrite Hb.
  - destruct (Hh e) as (r & evs' & He). exists r, (evs ++ evs').
    intros w. unfold try_except. rewrite Hb. simpl. now rewrite He, logged_app.
Qed.

Ltac event_only_step :=
  first [ apply event_only_ret
        | apply event_only_lift
        | apply event_only_emit
        | apply event_only_try
        | apply event_only_bind
        | intro ].

Lemma event_only_format_track_data : forall track,
  event_only (format_track_data track).
Proof.
  intros track. unfold format_track_data, logging.
  destruct (negb (isinstance_dict track) || negb (has_track_key track));
    repeat event_only_step.
Qed.

Lemma event_only_export_track : forall playlist_name track lists,
  event_only (export_track playlist_name track lists).
Proof.
  intros playlist_name track [full_tracks minimal_tracks].
  unfold export_track, log_track_error, logging.
  destruct (is_none track); repeat event_only_step.
  apply event_only_format_track_data.
Qed.

Lemma event_only_export_tracks : forall playlist_name tracks lists,
  event_only (export_tracks playlist_name tracks lists).
Proof.
  intros playlist_name tracks.
  induction tracks as [|track rest IH]; intros lists; simpl.
  - apply event_only_ret.
  - apply event_only_bind; [apply event_only_export_track | exact IH].
Qed.

Lemma event_only_export_entry : forall playlist_name playlist_data docs,
  event_only (export_entry playlist_name playlist_data docs).
Proof.
  intros playlist_name playlist_data docs. unfold export_entry, logging.
  apply event_only_bind; [apply event_only_emit | intros _].
  destruct (is_none playlist_data); [repeat event_only_step|].
  apply event_only_bind; [apply event_only_lift | intros playlist_info].
  destruct (is_none playlist_info); [repeat event_only_step|].
  do 3 (apply event_only_bind; [apply event_only_lift | intro]).
  apply event_only_bind.
  - match goal with |- context [is_none ?t] => destruct (is_none t) end;
      repeat event_only_step.
  - intro. apply event_only_bind; [apply event_only_lift | intro].
    apply event_only_bind; [apply event_only_export_tracks | intro].
    apply event_only_ret.
Qed.

Lemma event_only_export_entries : forall playlists_data docs,
  event_only (export_entries playlists_data docs).
Proof.
  induction playlists_data as [|[playlist_name playlist_data] rest IH];
    intros docs; simpl.
  - apply event_only_ret.
  - apply event_only_bind; [apply event_only_export_entry | exact IH].
Qed.

Lemma event_only_result : forall A (m : M A) w1 w2,
  event_only m -> result (m w1) = result (m w2).
Proof.
  intros A m w1 w2 (r & evs & H). rewrite !H. now destruct r.
Qed.

Lemma export_entries_app : forall before after docs w,
  export_entries (before ++ after) docs w =
  bind (export_entries before docs) (export_entries after) w.
Proof.
  induction before as [|[k v] before IH]; intros after docs w.
  - unfold bind. simpl. reflexivity.
  - simpl. unfold bind in *.
    destruct (export_entry k v docs w); try reflexivity.
    now rewrite IH.
Qed.

(** ** Claims on the listings *)

(** C1 (amended).  For every listing made of pages of which only the last
    has a null [next] (the others carrying a non-empty cursor), with enough
    fuel for its length: the saved-track listing and the playlist-track
    listing return the concatenation of the pages' [items], in page order
    and in the order within each page; the playlist listing returns that
    concatenation restricted to the playlists with [tracks.total > 0], in
    the same order; each of the three calls [sp.next] once for every page
    but the last, in order, and stops there. *)
Theorem paginated_fetch_concatenates : forall sp fuel w,
  (forall pages,
      serves sp (current_user_saved_tracks sp) pages ->
      List.length pages <= fuel ->
      get_saved_tracks sp fuel w =
      Returns (all_items pages)
              (called (CurrentUserSavedTracks :: next_calls pages) w)) /\
  (forall playlist_id pages,
      (playlist_id =? "liked_songs")%string = false ->
      memo_lookup playlist_id (memo w) = None ->
      serves sp (playlist_tracks sp playlist_id) pages ->
      List.length pages <= fuel ->
      get_playlist_tracks sp fuel playlist_id w =
      Returns (all_items pages)
              (mkWorld (trace w ++ map Api (PlaylistTracks playlist_id :: next_calls pages))
                       ((playlist_id, all_items pages) :: memo w))) /\
  (forall pages,
      serves sp (current_user_playlists sp) pages ->
      List.length pages <= fuel ->
      Forall counted (all_items pages) ->
      get_user_playlists sp fuel w =
      Returns (filter total_positive (all_items pages))
              (called (CurrentUserPlaylists :: next_calls pages) w)).
Proof.
  intros sp fuel w. split; [|split].
  - intros pages Hs Hf. now apply get_saved_tracks_serves.
  - intros playlist_id pages Hid Hmiss Hs Hf.
    rewrite (get_playlist_tracks_miss sp fuel playlist_id pages w Hmiss).
    + unfold tracks_call. now rewrite Hid.
    + unfold tracks_endpoint. now rewrite Hid.
    + exact Hf.
  - intros pages Hs Hf Hc. now apply get_user_playlists_serves.
Qed.

(** C4.  On a sound cache, [get_playlist_tracks] on the id "liked_songs"
    returns the saved-track listing, which is what [get_saved_tracks]
    returns, and calls the saved-tracks endpoint or nothing, whatever the
    playlist-tracks endpoint would answer for that id; on any other id it
    returns the paginated listing of the playlist-tracks endpoint for that
    id. *)
Theorem liked_songs_id_lists_saved_tracks : forall sp fuel w,
  memo_sound sp fuel (memo w) ->
  (forall saved_pages,
      serves sp (current_user_saved_tracks sp) saved_pages ->
      List.length saved_pages <= fuel ->
      exists calls table,
        get_playlist_tracks sp fuel "liked_songs" w =
        Returns (all_items saved_pages) (mkWorld (trace w ++ map Api calls) table) /\
        result (get_playlist_tracks sp fuel "liked_songs" w) =
        result (get_saved_tracks sp fuel w) /\
        (calls = [] \/ calls = CurrentUserSavedTracks :: next_calls saved_pages)) /\
  (forall playlist_id pages,
      playlist_id <> "liked_songs" ->
      serves sp (playlist_tracks sp playlist_id) pages ->
      List.length pages <= fuel ->
      exists calls table,
        get_playlist_tracks sp fuel playlist_id w =
        Returns (all_items pages) (mkWorld (trace w ++ map Api calls) table) /\
        (calls = [] \/ calls = PlaylistTracks playlist_id :: next_calls pages)).
Proof.
  intros sp fuel w Hsound. split.
  - intros saved_pages Hs Hf.
    destruct (get_playlist_tracks_pages sp fuel "liked_songs" saved_pages w Hsound Hs Hf)
      as (calls & table & Hrun & _ & Hcalls).
    exists calls, table. split; [exact Hrun|]. split; [|exact Hcalls].
    rewrite Hrun, (get_saved_tracks_serves _ _ _ _ Hs Hf). reflexivity.
  - intros playlist_id pages Hid Hs Hf.
    apply String.eqb_neq in Hid.
    assert (Hs' : serves sp (tracks_endpoint sp playlist_id) pages)
      by (unfold tracks_endpoint; now rewrite Hid).
    destruct (get_playlist_tracks_pages sp fuel playlist_id pages w Hsound Hs' Hf)
      as (calls & table & Hrun & _ & Hcalls).
    exists calls, table. split; [exact Hrun|].
    unfold tracks_call in Hcalls. now rewrite Hid in Hcalls.
Qed.

Lemma total_positive_has_tracks : forall playlist,
  total_positive playlist = true -> has_tracks playlist = Ok true.
Proof.
  intros playlist. unfold total_positive.
  destruct (has_tracks playlist) as [[|]|]; congruence.
Qed.

Lemma liked_songs_has_tracks : forall track saved,
  has_tracks (liked_songs_playlist (track :: saved)) = Ok true.
Proof. reflexivity. Qed.

(** C5.  The aggregator appends the record with id "liked_songs", name
    "Liked Songs" and [tracks.total] the number of saved tracks exactly
    when there are saved tracks: the returned playlists are, up to the
    sort, the kept fetched playlists followed by that record when the
    saved-track list is not empty, and the kept fetched playlists alone
    when it is empty. *)
Theorem liked_songs_appended_iff_saved : forall sp fuel playlist_pages saved_pages w,
  well_listed sp fuel playlist_pages saved_pages ->
  exists playlists w',
    get_user_playlists_and_saved_tracks sp fuel w =
    Returns (playlists, all_items saved_pages) w' /\
    (all_items saved_pages = [] ->
       Permutation playlists (filter total_positive (all_items playlist_pages))) /\
    (all_items saved_pages <> [] ->
       Permutation playlists
         (filter total_positive (all_items playlist_pages)
          ++ [liked_songs_playlist (all_items saved_pages)])) /\
    subscript (liked_songs_playlist (all_items saved_pages)) "id"
      = Ok (PStr "liked_songs") /\
    subscript (liked_songs_playlist (all_items saved_pages)) "name"
      = Ok (PStr "Liked Songs") /\
    subscript (liked_songs_playlist (all_items saved_pages)) "tracks"
      = Ok (PDict [("total", PInt (Z.of_nat (List.length (all_items saved_pages))))]).
Proof.
  intros sp fuel playlist_pages saved_pages w H.
  destruct (aggregator_returns sp fuel playlist_pages saved_pages w H)
    as (playlists & keys & Hrun & Hperm & _).
  eexists playlists, _. split; [exact Hrun|].
  repeat split; try reflexivity.
  - intros E. now rewrite E in Hperm.
  - intros E. destruct (all_items saved_pages); [congruence | exact Hperm].
Qed.

(** C6.  In the playlists that the aggregator returns, every playlist has
    [tracks.total > 0]: a playlist whose total is zero is not among them,
    and every fetched playlist with a total of at least one is. *)
Theorem empty_playlists_excluded : forall sp fuel playlist_pages saved_pages w,
  well_listed sp fuel playlist_pages saved_pages ->
  exists playlists w',
    get_user_playlists_and_saved_tracks sp fuel w =
    Returns (playlists, all_items saved_pages) w' /\
    (forall playlist tracks,
       subscript playlist "tracks" = Ok tracks ->
       subscript tracks "total" = Ok (PInt 0) ->
       ~ In playlist playlists) /\
    (forall playlist tracks total,
       In playlist (all_items playlist_pages) ->
       subscript playlist "tracks" = Ok tracks ->
       subscript tracks "total" = Ok (PInt total) ->
       (1 <= total)%Z ->
       In playlist playlists).
Proof.
  intros sp fuel playlist_pages saved_pages w H.
  destruct (aggregator_returns sp fuel playlist_pages saved_pages w H)
    as (playlists & keys & Hrun & Hperm & _).
  eexists playlists, _. split; [exact Hrun|]. split.
  - intros playlist tracks Ht Hz Hin.
    assert (Hkept : has_tracks playlist = Ok true).
    { apply (Permutation_in _ Hperm) in Hin.
      unfold with_liked_songs in Hin.
      destruct (all_items saved_pages) as [|track saved].
      - apply filter_In in Hin. now apply total_positive_has_tracks.
      - apply in_app_or in Hin. destruct Hin as [Hin|[<-|[]]].
        + apply filter_In in Hin. now apply total_positive_has_tracks.
        + apply liked_songs_has_tracks. }
    unfold has_tracks in Hkept. rewrite Ht in Hkept. simpl in Hkept.
    rewrite Hz in Hkept. simpl in Hkept. discriminate.
  - intros playlist tracks total Hin Ht Hn Hpos.
    apply (Permutation_in _ (Permutation_sym Hperm)).
    assert (Hkept : In playlist (filter total_positive (all_items playlist_pages))).
    { apply filter_In. split; [exact Hin|].
      unfold total_positive, has_tracks. rewrite Ht. simpl. rewrite Hn. simpl.
      apply Z.ltb_lt. lia. }
    unfold with_liked_songs. destruct (all_items saved_pages); [exact Hkept|].
    apply in_or_app. now left.
Qed.

(** ** Claims on the formatter and the export *)

Lemma get_default_dict : forall d k default,
  get_default (PDict d) k default = Ok (field d k default).
Proof.
  intros d k default. unfold get_default, field.
  now destruct (dict_lookup k d).
Qed.

Lemma get_default_field_of : forall v k default,
  isinstance_dict v = true -> get_default v k default = Ok (field_of v k default).
Proof.
  intros [| | | | |d] k default H; try discriminate. apply get_default_dict.
Qed.

Lemma artist_names : forall artists,
  Forall (fun artist => isinstance_dict artist = true) artists ->
  mapM (fun artist => get_default artist "name" (PStr "")) artists =
  Ok (map (fun artist => field_of artist "name" (PStr "")) artists).
Proof.
  intros artists H. induction H as [|artist rest Ha _ IH]; simpl.
  - reflexivity.
  - now rewrite (get_default_field_of _ _ _ Ha), IH.
Qed.


Lemma export_entry_null : forall playlist_name playlist_data docs w,
  null_metadata playlist_data ->
  exists warning,
    export_entry playlist_name playlist_data docs w =
    Returns docs
      (logged [Log INFO [Lit "Processing playlist: "; Fmt (PStr playlist_name)];
               Log WARNING [Lit warning; Fmt (PStr playlist_name)]] w).
Proof.
  intros playlist_name playlist_data docs w [-> | (d & -> & H)].
  - exists "Playlist data is None for ".
    unfold export_entry, bind, logging, emit, logged, ret. simpl.
    now rewrite <- app_assoc.
  - exists "Playlist info is None for ".
    unfold export_entry, bind, logging, emit, logged, ret, get, get_default. simpl.
    destruct H as [-> | ->]; simpl; now rewrite <- app_assoc.
Qed.

Lemma full_playlist_named : forall playlist_info full,
  full_playlist playlist_info = Ok full ->
  is_none playlist_info = false /\
  exists name,
    get playlist_info "name" = Ok name /\
    minimal_playlist playlist_info = Ok [("name", name)] /\
    forall tracks, subscript (PDict (full ++ [("tracks", tracks)])) "name" = Ok name.
Proof.
  intros playlist_info full H.
  destruct playlist_info as [| | | | |d]; try discriminate.
  split; [reflexivity|].
  unfold full_playlist, minimal_playlist, get in *.
  rewrite !get_default_dict in *. simpl in H.
  exists (field d "name" PNone). split; [reflexivity|]. split; [reflexivity|].
  destruct (get_default (field d "owner" (PDict [])) "display_name" (PStr "You"));
    [|discriminate].
  simpl in H.
  destruct (get_default (field d "tracks" (PDict [])) "total" (PInt 0));
    [|discriminate].
  simpl in H. injection H as <-. reflexivity.
Qed.

(** C3 (amended).  The export loop passes over, with a logged warning and
    without adding a sub-document to either document, every entry whose
    value is null or whose playlist metadata is absent or null; the
    documents of a mapping are those of the mapping without such an entry.
    An entry whose track list is null is not passed over: a warning is
    logged and the entry is exported to both documents with an empty track
    list. *)
Theorem export_passes_over_null_metadata : forall playlist_name playlist_data docs w,
  (null_metadata playlist_data ->
   exists warning,
     export_entry playlist_name playlist_data docs w =
     Returns docs
       (logged [Log INFO [Lit "Processing playlist: "; Fmt (PStr playlist_name)];
                Log WARNING [Lit warning; Fmt (PStr playlist_name)]] w)) /\
  (null_metadata playlist_data ->
   forall before after docs0,
     result (export_entries (before ++ (playlist_name, playlist_data) :: after) docs0 w) =
     result (export_entries (before ++ after) docs0 w)) /\
  (forall d playlist_info full minimal,
     playlist_data = PDict d ->
     dict_lookup "playlist_info" d = Some playlist_info ->
     full_playlist playlist_info = Ok full ->
     minimal_playlist playlist_info = Ok minimal ->
     dict_lookup "tracks" d = Some PNone ->
     export_entry playlist_name playlist_data docs w =
     Returns (fst docs ++ [PDict (full ++ [("tracks", PList [])])],
              snd docs ++ [PDict (minimal ++ [("tracks", PList [])])])
       (logged [Log INFO [Lit "Processing playlist: "; Fmt (PStr playlist_name)];
                Log WARNING [Lit "Tracks is None for "; Fmt (PStr playlist_name)]] w)).
Proof.
  intros playlist_name playlist_data docs w. split; [|split].
  - intros H. now apply export_entry_null.
  - intros H before after docs0.
    rewrite !export_entries_app. unfold bind.
    destruct (export_entries before docs0 w) as [docs1 w1|e w1|]; try reflexivity.
    simpl. unfold bind.
    destruct (export_entry_null playlist_name playlist_data docs1 w1 H) as [warning ->].
    apply event_only_result, event_only_export_entries.
  - intros d playlist_info full minimal -> Hinfo Hfull Hminimal Htracks.
    destruct (full_playlist_named _ _ Hfull) as (Hnone & _).
    unfold export_entry, bind, logging, emit, get, get_default. simpl.
    rewrite Hinfo. simpl. rewrite Hnone, Hfull. simpl.
    rewrite Hminimal. simpl. rewrite Htracks. simpl.
    unfold ret, logged. simpl. now rewrite <- app_assoc.
Qed.

Lemma export_entry_cases : forall playlist_name playlist_data docs w docs' w',
  export_entry playlist_name playlist_data docs w = Returns docs' w' ->
  docs' = docs \/
  exists playlist_info full minimal lists,
    get playlist_data "playlist_info" = Ok playlist_info /\
    full_playlist playlist_info = Ok full /\
    minimal_playlist playlist_info = Ok minimal /\
    docs' = (fst docs ++ [PDict (full ++ [("tracks", PList (fst lists))])],
             snd docs ++ [PDict (minimal ++ [("tracks", PList (snd lists))])]).
Proof.
  intros playlist_name playlist_data docs w docs' w' H.
  unfold export_entry, bind, logging, emit, ret in H. simpl in H.
  destruct (is_none playlist_data); [injection H as <- _; now left|].
  destruct (get playlist_data "playlist_info") as [playlist_info|] eqn:Hinfo;
    simpl in H; [|discriminate].
  destruct (is_none playlist_info); [injection H as <- _; now left|].
  destruct (full_playlist playlist_info) as [full|] eqn:Hfull;
    simpl in H; [|discriminate].
  destruct (minimal_playlist playlist_info) as [minimal|] eqn:Hminimal;
    simpl in H; [|discriminate].
  destruct (get_default playlist_data "tracks" (PList [])) as [tracks|];
    simpl in H; [|discriminate].
  right. exists playlist_info, full, minimal.
  destruct (is_none tracks); simpl in H.
  - injection H as <- _. exists ([], []). auto.
  - destruct (iterate tracks) as [track_list|]; simpl in H; [|discriminate].
    destruct (export_tracks playlist_name track_list ([], []) _)
      as [lists w1|e w1|]; try discriminate.
    injection H as <- _. exists lists. auto.
Qed.

Lemma export_entries_names : forall playlists_data docs w docs' w',
  export_entries playlists_data docs w = Returns docs' w' ->
  exists new_full new_minimal,
    docs' = (fst docs ++ new_full, snd docs ++ new_minimal) /\
    Forall (name_copied playlists_data) new_full /\
    Forall (name_copied playlists_data) new_minimal.
Proof.
  induction playlists_data as [|[playlist_name playlist_data] rest IH];
    intros docs w docs' w' H; simpl in H.
  - injection H as <- _. exists [], []. rewrite !app_nil_r.
    destruct docs. auto.
  - unfold bind in H.
    destruct (export_entry playlist_name playlist_data docs w)
      as [docs1 w1|e w1|] eqn:Hentry; try discriminate.
    destruct (IH _ _ _ _ H) as (new_full & new_minimal & -> & Hf & Hm).
    assert (Hweak : forall l, Forall (name_copied rest) l ->
                              Forall (name_copied ((playlist_name, playlist_data) :: rest)) l).
    { intros l Hl. eapply Forall_impl; [|exact Hl].
      intros doc (k & data & info & name & Hin & rest_).
      exists k, data, info, name. split; [now right | exact rest_]. }
    destruct (export_entry_cases _ _ _ _ _ _ Hentry)
      as [-> | (info & full & minimal & lists & Hinfo & Hfull & Hminimal & ->)].
    + exists new_full, new_minimal. auto.
    + destruct (full_playlist_named _ _ Hfull) as (_ & name & Hname & Hmin & Hsub).
      rewrite Hmin in Hminimal. injection Hminimal as <-.
      simpl fst. simpl snd.
      eexists (_ :: new_full), (_ :: new_minimal).
      split; [now rewrite <- !app_assoc|].
      split; (constructor; [|auto]);
        exists playlist_name, playlist_data, info, name;
        (split; [now left|]); (split; [exact Hinfo|]); (split; [exact Hname|]).
      * apply Hsub.
      * reflexivity.
Qed.

(** C8 (amended).  The export copies the name of every sub-document from
    the playlist metadata of an entry of the mapping, unchecked: the
    sub-documents of both documents have non-empty names whenever the
    metadata of every entry that is not passed over has a non-empty name
    (for a metadata name that is empty the sub-document's name is empty). *)
Theorem exported_names_copied : forall playlists_data w full minimal w',
  export_documents playlists_data w = Returns (full, minimal) w' ->
  (Forall (name_copied playlists_data) full /\
   Forall (name_copied playlists_data) minimal) /\
  ((forall playlist_name playlist_data playlist_info,
      In (playlist_name, playlist_data) playlists_data ->
      get playlist_data "playlist_info" = Ok playlist_info ->
      playlist_info = PNone \/ nonempty_name playlist_info) ->
   Forall nonempty_name full /\ Forall nonempty_name minimal).
Proof.
  intros playlists_data w full minimal w' H.
  destruct (export_entries_names _ _ _ _ _ H)
    as (new_full & new_minimal & E & Hf & Hm).
  simpl in E. injection E as -> ->.
  split; [split; assumption|].
  intros Hnamed.
  assert (Hstep : forall doc, name_copied playlists_data doc -> nonempty_name doc).
  { intros doc (k & data & info & name & Hin & Hinfo & Hname & Hdoc).
    destruct (Hnamed _ _ _ Hin Hinfo) as [-> | (s & Hs & Hne)]; [discriminate|].
    exists s. split; [|exact Hne].
    rewrite Hdoc. destruct info as [| | | | |d]; try discriminate.
    unfold get, get_default in Hname. unfold subscript in Hs.
    destruct (dict_lookup "name" d); congruence. }
  split; eapply Forall_impl; eauto.
Qed.

Lemma append_assoc : forall a b c : string,
  ((a ++ b) ++ c = a ++ b ++ c)%string.
Proof.
  induction a as [|ch a IH]; intros b c; simpl; [reflexivity | now rewrite IH].
Qed.

Lemma append_empty_r : forall a : string, (a ++ "" = a)%string.
Proof.
  induction a as [|ch a IH]; simpl; [reflexivity | now rewrite IH].
Qed.

Lemma dumps_export_data : forall export_date playlists,
  dumps 0 (export_data export_date playlists) =
  (export_head ++ encode_basestring export_date ++ export_rest playlists)%string.
Proof.
  intros export_date playlists.
  unfold export_data, export_head, export_rest.
  cbn [dumps]. rewrite append_empty_r, !append_assoc. reflexivity.
Qed.

(** C9.  Two runs of the export on the same mapping end the same way,
    whatever the clock reads and whatever happened before: both raise the
    same exception, or both write a full and a minimal file whose JSON
    texts are, before and after the value of [export_date], the same in the
    two runs; only that value, and the directory named after the
    timestamp, differ. *)
Theorem export_rerun_identical : forall script_dir playlists_data,
  (exists e evs, forall now w,
      save_playlists_to_json script_dir now playlists_data w =
      Raises e
        (logged (MakeDirs (path_join (path_join script_dir "output")
                                     ("spotify_export_" ++ timestamp now)) :: evs) w)) \/
  (exists evs full minimal, forall now w,
      let output_dir :=
        path_join (path_join script_dir "output") ("spotify_export_" ++ timestamp now) in
      let full_filepath := path_join output_dir "full_export.json" in
      let minimal_filepath := path_join output_dir "minimal_export.json" in
      save_playlists_to_json script_dir now playlists_data w =
      Returns tt
        (logged
           (MakeDirs output_dir :: evs ++
            [WriteFile full_filepath
               (export_head ++ encode_basestring (export_date_full now)
                ++ export_rest full);
             WriteFile minimal_filepath
               (export_head ++ encode_basestring (export_date_minimal now)
                ++ export_rest minimal);
             Log INFO [Lit "Full playlist data has been exported to '";
                       Fmt (PStr full_filepath); Lit "'"];
             Log INFO [Lit "Minimal playlist data has been exported to '";
                       Fmt (PStr minimal_filepath); Lit "'"];
             Print [Lit "Playlist data has been exported to the directory: '";
                    Fmt (PStr output_dir); Lit "'"]]) w)).
Proof.
  intros script_dir playlists_data.
  destruct (event_only_export_entries playlists_data ([], []))
    as ([[full minimal]|e] & evs & Hrun).
  - right. exists evs, full, minimal. intros now_ w.
    unfold save_playlists_to_json, export_documents, bind, emit, logging, print, emit.
    rewrite Hrun. cbn [finish fst snd logged trace memo].
    rewrite !dumps_export_data.
    rewrite <- !app_assoc. reflexivity.
  - left. exists e, evs. intros now_ w.
    unfold save_playlists_to_json, export_documents, bind, emit.
    rewrite Hrun. unfold logged. cbn [finish trace memo].
    rewrite <- app_assoc. reflexivity.
Qed.

(** ** The mapping built by [main] *)

Lemma dict_lookup_set_same : forall k v d, dict_lookup k (dict_set k v d) = Some v.
Proof.
  intros k v d. induction d as [|[k' v'] d IH]; simpl.
  - now rewrite String.eqb_refl.
  - destruct (k' =? k)%string eqn:E; simpl.
    + now rewrite String.eqb_refl.
    + now rewrite E.
Qed.

Lemma dict_lookup_set_other : forall k k' v d,
  k <> k' -> dict_lookup k' (dict_set k v d) = dict_lookup k' d.
Proof.
  intros k k' v d Hne. induction d as [|[k0 v0] d IH]; simpl.
  - apply String.eqb_neq in Hne. now rewrite Hne.
  - destruct (k0 =? k)%string eqn:E; simpl.
    + apply String.eqb_eq in E. subst k0.
      apply String.eqb_neq in Hne. now rewrite Hne.
    + now rewrite IH.
Qed.

Lemma dict_set_keys : forall k v d k',
  In k' (map fst (dict_set k v d)) <-> k' = k \/ In k' (map fst d).
Proof.
  clear str_lower repr.
  intros k v d k'. induction d as [|[k0 v0] d IH]; simpl.
  - intuition.
  - destruct (k0 =? k)%string eqn:E; simpl.
    + apply String.eqb_eq in E. subst k0. intuition.
    + rewrite IH. intuition.
Qed.

Lemma dict_set_nodup : forall k v d,
  NoDup (map fst d) -> NoDup (map fst (dict_set k v d)).
Proof.
  intros k v d H. induction d as [|[k0 v0] d IH]; simpl.
  - repeat constructor. intros [].
  - simpl in H. inversion H as [|? ? Hnot Hrest]; subst.
    destruct (k0 =? k)%string eqn:E; simpl.
    + apply String.eqb_eq in E. subst k0. now constructor.
    + constructor; [|now apply IH].
      rewrite dict_set_keys. intros [-> | Hin]; [|contradiction].
      now rewrite String.eqb_refl in E.
Qed.

Lemma dict_lookup_in : forall d k v,
  NoDup (map fst d) -> In (k, v) d -> dict_lookup k d = Some v.
Proof.
  induction d as [|[k0 v0] d IH]; intros k v Hnd Hin; simpl in *.
  - contradiction.
  - inversion Hnd as [|? ? Hnot Hrest]; subst.
    destruct Hin as [[= -> ->] | Hin].
    + now rewrite String.eqb_refl.
    + destruct (k0 =? k)%string eqn:E.
      * apply String.eqb_eq in E. subst k0.
        exfalso. apply Hnot. now apply (in_map fst) in Hin.
      * now apply IH.
Qed.

Lemma keyed_app : forall before after d,
  keyed (before ++ after) d = keyed after (keyed before d).
Proof. intros. unfold keyed. apply fold_left_app. Qed.

Lemma keyed_lookup_other : forall fs d name,
  ~ In name (map name_of fs) ->
  dict_lookup name (keyed fs d) = dict_lookup name d.
Proof.
  clear str_lower repr.
  induction fs as [|f fs IH]; intros d name Hnot; simpl.
  - reflexivity.
  - simpl in Hnot. rewrite IH by tauto.
    apply dict_lookup_set_other. tauto.
Qed.

Lemma keyed_lookup_last : forall before f after d,
  ~ In (name_of f) (map name_of after) ->
  dict_lookup (name_of f) (keyed (before ++ f :: after) d) =
  Some (entry_of (playlist_of f) (tracks_of f)).
Proof.
  intros before f after d Hnot.
  rewrite keyed_app. simpl.
  rewrite (keyed_lookup_other _ _ _ Hnot).
  apply dict_lookup_set_same.
Qed.

Lemma keyed_keys : forall fs d name,
  In name (map fst (keyed fs d)) <-> In name (map fst d) \/ In name (map name_of fs).
Proof.
  clear str_lower repr.
  induction fs as [|f fs IH]; intros d name; simpl.
  - intuition.
  - rewrite IH, dict_set_keys. intuition.
Qed.

Lemma keyed_nodup : forall fs d, NoDup (map fst d) -> NoDup (map fst (keyed fs d)).
Proof.
  induction fs as [|f fs IH]; intros d H; simpl.
  - exact H.
  - apply IH. now apply dict_set_nodup.
Qed.

Lemma last_of_name : forall fs name,
  In name (map name_of fs) ->
  exists before f after,
    fs = before ++ f :: after /\ name_of f = name /\
    ~ In name (map name_of after).
Proof.
  induction fs as [|f fs IH]; intros name Hin; simpl in Hin.
  - contradiction.
  - destruct (in_dec string_dec name (map name_of fs)) as [Hlater | Hnot].
    + destruct (IH _ Hlater) as (before & g & after & -> & Hg & Hafter).
      exists (f :: before), g, after. auto.
    + destruct Hin as [Hf | Hin]; [|contradiction].
      exists [], f, fs. auto.
Qed.

Lemma collect_playlist_run : forall sp fuel f all_playlist_data w,
  memo_sound sp fuel (memo w) ->
  fetchable sp fuel f ->
  exists w',
    collect_playlist sp fuel (playlist_of f) all_playlist_data w =
    Returns (dict_set (name_of f) (entry_of (playlist_of f) (tracks_of f))
                      all_playlist_data) w' /\
    memo_sound sp fuel (memo w').
Proof.
  intros sp fuel f all_playlist_data w Hsound (playlist_id & Hname & Hid & Hserved).
  unfold collect_playlist, bind. rewrite Hname. simpl. rewrite Hid. simpl.
  assert (Hsound' : memo_sound sp fuel
            (memo (mkWorld (trace w ++ [Print [Lit "Fetching tracks for playlist: ";
                                               Fmt (PStr (name_of f))]]) (memo w))))
    by exact Hsound.
  destruct (get_playlist_tracks_served _ _ _ _ _ Hsound' Hserved)
    as (calls & table & Hrun & Htable).
  rewrite Hrun. eexists. split; [reflexivity | exact Htable].
Qed.

Lemma collect_playlists_run : forall sp fuel fs all_playlist_data w,
  memo_sound sp fuel (memo w) ->
  Forall (fetchable sp fuel) fs ->
  exists w',
    collect_playlists sp fuel (map playlist_of fs) all_playlist_data w =
    Returns (keyed fs all_playlist_data) w' /\
    memo_sound sp fuel (memo w').
Proof.
  intros sp fuel fs. induction fs as [|f fs IH]; intros d w Hsound Hall; simpl.
  - exists w. auto.
  - inversion Hall as [|? ? Hf Hrest]; subst.
    destruct (collect_playlist_run sp fuel f d w Hsound Hf) as (w1 & Hrun & Hsound1).
    unfold bind. rewrite Hrun. now apply IH.
Qed.

(** ** Further properties: walks over any server *)

Lemma extend_loop_walks : forall sp pages fuel first tracks w,
  walks sp first pages ->
  List.length pages <= fuel ->
  extend_loop sp fuel first tracks w =
  Returns (tracks ++ all_items pages) (called (cursor_calls pages) w).
Proof.
  intros sp pages.
  induction pages as [|page rest IH]; intros fuel first tracks w Hw Hf.
  - simpl in Hw. subst first.
    destruct fuel; simpl; unfold ret, all_items; simpl;
      now rewrite app_nil_r, called_nil.
  - destruct Hw as [-> Hrest].
    destruct fuel as [|fuel]; [simpl in Hf; lia|].
    simpl in Hf. simpl extend_loop. unfold cursor_calls. simpl filter.
    fold (has_cursor page).
    destruct rest as [|page2 rest].
    + destruct (has_cursor page) eqn:Hc.
      * destruct Hrest as [Hfalse | Hnone]; [discriminate|].
        unfold bind. rewrite api_run, Hnone.
        destruct fuel; simpl; unfold ret, all_items; simpl;
          now rewrite app_nil_r.
      * unfold ret, all_items. simpl. now rewrite app_nil_r, called_nil.
    + destruct Hrest as [Hc Hrest]. rewrite Hc.
      unfold bind. rewrite api_run.
      rewrite (IH fuel _ _ _ Hrest) by (simpl in *; lia).
      rewrite called_app. unfold all_items, cursor_calls. simpl.
      now rewrite <- app_assoc.
Qed.

Lemma extend_loop_returns : forall sp fuel first tracks w result_tracks w',
  extend_loop sp fuel first tracks w = Returns result_tracks w' ->
  exists pages,
    walks sp first pages /\ List.length pages <= fuel /\
    result_tracks = tracks ++ all_items pages /\
    w' = called (cursor_calls pages) w.
Proof.
  intros sp fuel.
  induction fuel as [|fuel IH]; intros first tracks w result_tracks w' H.
  - destruct first as [page|]; [discriminate|].
    injection H as <- <-. exists []. simpl.
    unfold all_items. simpl. now rewrite app_nil_r, called_nil.
  - destruct first as [page|].
    + simpl in H. fold (has_cursor page) in H.
      destruct (has_cursor page) eqn:Hc.
      * unfold bind in H. rewrite api_run in H.
        destruct (IH _ _ _ _ _ H) as (pages & Hw & Hlen & -> & ->).
        exists (page :: pages). split; [|split; [simpl; lia|split]].
        -- simpl. split; [reflexivity|].
           destruct pages as [|page2 pages]; [right; exact Hw | now split].
        -- unfold all_items. simpl. now rewrite <- app_assoc.
        -- rewrite called_app. unfold cursor_calls. simpl. now rewrite Hc.
      * injection H as <- <-. exists [page].
        split; [simpl; auto|]. split; [simpl; lia|].
        unfold all_items, cursor_calls. simpl.
        now rewrite Hc, app_nil_r, called_nil.
    + injection H as <- <-. exists []. simpl.
      unfold all_items. simpl. split; [reflexivity|]. split; [lia|].
      now rewrite app_nil_r, called_nil.
Qed.

(** X1.  The saved-track listing on a server that answers every call,
    with a page or with nothing: when the walk from the first response
    visits [pages] (it ends at the first page whose cursor is null or
    empty, or whose [sp.next] answers nothing, or at once on an empty first
    response), the listing returns the items of the visited pages in order
    after one [sp.next] call per page with a cursor, and conversely
    whatever the listing returns is the items of such a walk. *)
Theorem saved_tracks_walk : forall sp fuel w,
  (forall pages,
     walks sp (current_user_saved_tracks sp) pages ->
     List.length pages <= fuel ->
     get_saved_tracks sp fuel w =
     Returns (all_items pages) (called (CurrentUserSavedTracks :: cursor_calls pages) w)) /\
  (forall tracks w',
     get_saved_tracks sp fuel w = Returns tracks w' ->
     exists pages,
       walks sp (current_user_saved_tracks sp) pages /\
       List.length pages <= fuel /\
       tracks = all_items pages /\
       w' = called (CurrentUserSavedTracks :: cursor_calls pages) w).
Proof.
  intros sp fuel w. split.
  - intros pages Hw Hf. unfold get_saved_tracks, bind. rewrite api_run.
    rewrite (extend_loop_walks _ _ _ _ _ _ Hw Hf). now rewrite called_app.
  - intros tracks w' H. unfold get_saved_tracks, bind in H. rewrite api_run in H.
    destruct (extend_loop_returns _ _ _ _ _ _ _ H) as (pages & Hw & Hf & -> & ->).
    exists pages. repeat split; try assumption. now rewrite called_app.
Qed.

Lemma extend_loop_endless : forall sp fuel page tracks w,
  endless sp ->
  has_cursor page = true ->
  extend_loop sp fuel (Some page) tracks w = OutOfFuel.
Proof.
  intros sp fuel.
  induction fuel as [|fuel IH]; intros page tracks w Hendless Hc.
  - reflexivity.
  - simpl. fold (has_cursor page). rewrite Hc.
    destruct (Hendless page Hc) as (page' & Hnext & Hc').
    unfold bind. rewrite api_run, Hnext. now apply IH.
Qed.

(** X2.  There is no bound on the number of pages: on a server that
    always has a next page, neither track listing returns, however much
    fuel it is given. *)
Theorem endless_listing_never_returns : forall sp fuel w,
  endless sp ->
  (forall page,
     current_user_saved_tracks sp = Some page -> has_cursor page = true ->
     get_saved_tracks sp fuel w = OutOfFuel) /\
  (forall playlist_id page,
     memo_lookup playlist_id (memo w) = None ->
     tracks_endpoint sp playlist_id = Some page -> has_cursor page = true ->
     get_playlist_tracks sp fuel playlist_id w = OutOfFuel).
Proof.
  intros sp fuel w Hendless.
  assert (Hsaved : forall page w0,
            current_user_saved_tracks sp = Some page -> has_cursor page = true ->
            get_saved_tracks sp fuel w0 = OutOfFuel).
  { intros page w0 Hfirst Hc. unfold get_saved_tracks, bind.
    rewrite api_run, Hfirst. now apply extend_loop_endless. }
  split; [intros page; apply Hsaved|].
  intros playlist_id page Hmiss Hfirst Hc.
  unfold get_playlist_tracks, lru_cache. rewrite Hmiss.
  unfold get_playlist_tracks_uncached, tracks_endpoint in *.
  destruct (playlist_id =? "liked_songs")%string.
  - now rewrite (Hsaved page w Hfirst Hc).
  - unfold bind. rewrite api_run, Hfirst.
    now rewrite (extend_loop_endless _ _ _ _ _ Hendless Hc).
Qed.

(** ** Further properties: the cache *)

Lemma extend_loop_memo : forall sp fuel first tracks w result_tracks w',
  extend_loop sp fuel first tracks w = Returns result_tracks w' ->
  memo w' = memo w.
Proof.
  intros sp fuel first tracks w result_tracks w' H.
  destruct (extend_loop_returns _ _ _ _ _ _ _ H) as (pages & _ & _ & _ & ->).
  reflexivity.
Qed.

Lemma uncached_memo : forall sp fuel playlist_id w tracks w',
  get_playlist_tracks_uncached sp fuel playlist_id w = Returns tracks w' ->
  memo w' = memo w.
Proof.
  intros sp fuel playlist_id w tracks w' H.
  unfold get_playlist_tracks_uncached, get_saved_tracks, bind in H.
  destruct (playlist_id =? "liked_songs")%string;
    rewrite api_run in H; now apply extend_loop_memo in H.
Qed.

Lemma get_playlist_tracks_stores : forall sp fuel playlist_id w tracks w',
  get_playlist_tracks sp fuel playlist_id w = Returns tracks w' ->
  memo_lookup playlist_id (memo w') = Some tracks /\
  (forall other cached,
     memo_lookup other (memo w) = Some cached ->
     memo_lookup other (memo w') = Some cached).
Proof.
  intros sp fuel playlist_id w tracks w' H.
  unfold get_playlist_tracks, lru_cache in H.
  destruct (memo_lookup playlist_id (memo w)) as [cached|] eqn:Hm.
  - injection H as <- <-. auto.
  - destruct (get_playlist_tracks_uncached sp fuel playlist_id w)
      as [v w1|e w1|] eqn:Hrun; try discriminate.
    injection H as <- <-. simpl. rewrite String.eqb_refl. split; [reflexivity|].
    intros other cached Hother.
    rewrite (uncached_memo _ _ _ _ _ _ Hrun).
    destruct (playlist_id =? other)%string eqn:E; [|exact Hother].
    apply String.eqb_eq in E. subst other. congruence.
Qed.

(** X3.  The track listing of an id is fetched once per process: after a
    call that returned, every later call for the same id (the sentinel
    "liked_songs" included), even after a call for another id and with any
    fuel, returns the same list without calling the API or changing the
    state. *)
Theorem playlist_tracks_fetched_once :
  forall sp fuel1 fuel2 fuel3 playlist_id other tracks other_tracks w w1 w2,
  get_playlist_tracks sp fuel1 playlist_id w = Returns tracks w1 ->
  get_playlist_tracks sp fuel2 other w1 = Returns other_tracks w2 ->
  get_playlist_tracks sp fuel3 playlist_id w1 = Returns tracks w1 /\
  get_playlist_tracks sp fuel3 playlist_id w2 = Returns tracks w2.
Proof.
  intros sp fuel1 fuel2 fuel3 playlist_id other tracks other_tracks w w1 w2 H1 H2.
  destruct (get_playlist_tracks_stores _ _ _ _ _ _ H1) as [Hstored _].
  destruct (get_playlist_tracks_stores _ _ _ _ _ _ H2) as [_ Hkept].
  split; apply get_playlist_tracks_hit; auto.
Qed.


(** ** Further properties: the playlist listing *)

Lemma append_nonempty_raises : forall good bad rest playlists e,
  Forall counted good ->
  has_tracks bad = Err e ->
  append_nonempty (good ++ bad :: rest) playlists = Err e.
Proof.
  induction good as [|playlist good IH]; intros bad rest playlists e Hgood Hbad; simpl.
  - now rewrite Hbad.
  - inversion Hgood as [|? ? [keep Hk] Hrest]; subst.
    rewrite Hk. simpl. now apply IH.
Qed.

Lemma playlists_loop_raises : forall sp before fuel first page after good bad rest e playlists w,
  serves sp first (before ++ page :: after) ->
  List.length (before ++ [page]) <= fuel ->
  Forall counted (all_items before) ->
  items page = good ++ bad :: rest ->
  Forall counted good ->
  has_tracks bad = Err e ->
  playlists_loop sp fuel first playlists w = Raises e (called (map Next before) w).
Proof.
  intros sp before.
  induction before as [|b before IH];
    intros fuel first page after good bad rest e playlists w Hs Hf Hc Hitems Hgood Hbad.
  - simpl in Hs. destruct Hs as [-> _].
    destruct fuel as [|fuel]; [simpl in Hf; lia|].
    simpl. unfold bind. rewrite Hitems.
    rewrite (append_nonempty_raises _ _ _ _ _ Hgood Hbad). simpl.
    unfold raise. now rewrite called_nil.
  - simpl in Hs. destruct Hs as [-> Hs].
    destruct (before ++ page :: after) as [|page2 others] eqn:E;
      [now destruct before|].
    destruct Hs as [Ht Hs].
    destruct fuel as [|fuel]; [simpl in Hf; lia|].
    unfold all_items in Hc. simpl in Hc. apply Forall_app in Hc.
    destruct Hc as [Hb Hc].
    simpl. unfold bind at 1. rewrite (append_nonempty_filter _ _ Hb). simpl.
    rewrite Ht. unfold bind. rewrite api_run.
    rewrite <- E in Hs.
    rewrite (IH fuel _ page after good bad rest e _ _ Hs) by
      (try assumption; simpl in Hf; rewrite length_app in *; simpl in *; lia).
    now rewrite called_app.
Qed.

(** X4.  A playlist object without a comparable [tracks.total] (a null
    item, a missing [tracks]) aborts the aggregator: it raises the
    exception of the comparison at the first such item, after the
    [sp.next] calls of the pages before it, and the saved tracks are not
    fetched. *)
Theorem listing_raises_on_malformed_playlist :
  forall sp fuel before page after good bad rest e w,
  serves sp (current_user_playlists sp) (before ++ page :: after) ->
  List.length (before ++ [page]) <= fuel ->
  Forall counted (all_items before) ->
  items page = good ++ bad :: rest ->
  Forall counted good ->
  has_tracks bad = Err e ->
  get_user_playlists_and_saved_tracks sp fuel w =
  Raises e (called (CurrentUserPlaylists :: map Next before) w).
Proof.
  intros sp fuel before page after good bad rest e w Hs Hf Hc Hitems Hgood Hbad.
  unfold get_user_playlists_and_saved_tracks, get_user_playlists, bind.
  rewrite api_run.
  rewrite (playlists_loop_raises _ _ _ _ _ _ _ _ _ _ _ _ Hs Hf Hc Hitems Hgood Hbad).
  now rewrite called_app.
Qed.

(** ** Further properties: the sort is stable *)

Lemma ltb_irrefl : forall a, String.ltb a a = false.
Proof.
  intros a. unfold String.ltb.
  pose proof (proj2 (String_as_OT.cmp_eq a a) eq_refl) as H.
  unfold String_as_OT.cmp in H. now rewrite H.
Qed.

Lemma insert_keyed_filter : forall k kx sorted,
  filter (fun p => (fst p =? k)%string) (insert_keyed kx sorted) =
  filter (fun p => (fst p =? k)%string) (kx :: sorted).
Proof.
  intros k kx sorted. induction sorted as [|ky rest IH]; [reflexivity|].
  simpl insert_keyed. destruct (String.ltb (fst ky) (fst kx)) eqn:E; [|reflexivity].
  simpl filter at 1. rewrite IH. simpl.
  destruct (fst ky =? k)%string eqn:Ey, (fst kx =? k)%string eqn:Ex; try reflexivity.
  apply String.eqb_eq in Ey, Ex. rewrite Ey, Ex, ltb_irrefl in E. discriminate.
Qed.

Lemma sort_keyed_filter : forall k l,
  filter (fun p => (fst p =? k)%string) (sort_keyed l) =
  filter (fun p => (fst p =? k)%string) l.
Proof.
  intros k l. induction l as [|kx l IH]; [reflexivity|].
  simpl sort_keyed. rewrite insert_keyed_filter. simpl. now rewrite IH.
Qed.

Lemma filter_has_key : forall key k pairs,
  Forall (fun kx => key (snd kx) = Ok (fst kx)) pairs ->
  filter (has_key key k) (map snd pairs) =
  map snd (filter (fun p => (fst p =? k)%string) pairs).
Proof.
  intros key k pairs H. induction H as [|kx rest Hk _ IH]; [reflexivity|].
  simpl. unfold has_key at 1. rewrite Hk, IH.
  now destruct (fst kx =? k)%string.
Qed.

Lemma list_sort_stable : forall key l sorted k,
  list_sort key l = Ok sorted ->
  filter (has_key key k) sorted = filter (has_key key k) l.
Proof.
  intros key l sorted k H. unfold list_sort in H.
  destruct (mapM key l) as [keys|] eqn:Hkeys; [|discriminate].
  simpl in H. injection H as <-.
  destruct (mapM_combine _ _ _ Hkeys) as [Hpairs Hsnd].
  rewrite (filter_has_key key k (sort_keyed (combine keys l))).
  - rewrite sort_keyed_filter, <- (filter_has_key key k _ Hpairs). now rewrite Hsnd.
  - exact (Permutation_Forall (Permutation_sym (sort_keyed_perm _)) Hpairs).
Qed.

Lemma aggregator_sorts : forall sp fuel playlist_pages saved_pages w,
  well_listed sp fuel playlist_pages saved_pages ->
  exists playlists w',
    get_user_playlists_and_saved_tracks sp fuel w =
    Returns (playlists, all_items saved_pages) w' /\
    list_sort name_key
      (with_liked_songs (filter total_positive (all_items playlist_pages))
                        (all_items saved_pages)) = Ok playlists.
Proof.
  intros sp fuel playlist_pages saved_pages w (Hp & Hpf & Hc & Hn & Hs & Hsf).
  pose proof (with_liked_songs_named _ (all_items saved_pages) Hn) as Hnamed.
  destruct (mapM_total name_key _
              (Forall_impl _ named_name_key Hnamed)) as [keys0 Hkeys].
  destruct (list_sort_spec _ _ _ Hkeys) as (sorted & keys & Hsort & _).
  exists sorted. eexists. split; [|exact Hsort].
  unfold get_user_playlists_and_saved_tracks, bind.
  rewrite (get_user_playlists_serves _ _ _ _ Hp Hpf Hc).
  rewrite (get_saved_tracks_serves _ _ _ _ Hs Hsf).
  fold (with_liked_songs (filter total_positive (all_items playlist_pages))
                         (all_items saved_pages)).
  rewrite Hsort. reflexivity.
Qed.

(** X5.  The sort of the aggregator is stable: the returned playlists
    whose lower-cased names are equal come in the order in which they were
    fetched, and "Liked Songs" comes after the fetched playlists of the
    same lower-cased name. *)
Theorem same_name_playlists_keep_order : forall sp fuel playlist_pages saved_pages w,
  well_listed sp fuel playlist_pages saved_pages ->
  exists playlists w',
    get_user_playlists_and_saved_tracks sp fuel w =
    Returns (playlists, all_items saved_pages) w' /\
    forall k,
      filter (has_key name_key k) playlists =
      filter (has_key name_key k)
             (with_liked_songs (filter total_positive (all_items playlist_pages))
                               (all_items saved_pages)).
Proof.
  intros sp fuel playlist_pages saved_pages w H.
  destruct (aggregator_sorts sp fuel playlist_pages saved_pages w H)
    as (playlists & w' & Hrun & Hsort).
  exists playlists, w'. split; [exact Hrun|].
  intros k. now apply list_sort_stable.
Qed.

(** ** Further properties: the formatter *)

(** X6.  Whatever its input, a record that [format_track_data] returns is
    either the empty record, and then the input failed the validation and
    one error was logged, or a record with exactly the eight fields of a
    formatted track in the order of the export, and then nothing was
    logged. *)
Theorem format_track_data_schema : forall track w record w',
  format_track_data track w = Returns record w' ->
  (record = PDict [] /\
   (isinstance_dict track = false \/ has_track_key track = false) /\
   w' = logged [Log ERROR [Lit "Invalid track data: "; Fmt track]] w) \/
  (formatted_track record /\
   isinstance_dict track = true /\ has_track_key track = true /\
   w' = w).
Proof.
  intros track w record w' H. unfold format_track_data in H.
  destruct (isinstance_dict track) eqn:Hd; simpl in H.
  - destruct (has_track_key track) eqn:Hk; simpl in H.
    + right. unfold track_projection in H.
      repeat match type of H with
             | context [res_bind ?r _] =>
                 let x := fresh "x" in
                 destruct r as [x|]; simpl in H; [|discriminate H]
             end.
      injection H as <- <-. split; [|auto].
      unfold formatted_track. repeat eexists.
    + left. injection H as <- <-. auto.
  - left. injection H as <- <-. auto.
Qed.


(** ** Further properties: the loop over tracks *)

Lemma finish_result : forall A (r r' : res A) w w',
  result (finish r w) = result (finish r' w') -> r = r'.
Proof. intros A [a|e] [a'|e'] w w' H; simpl in H; congruence. Qed.

Lemma bind_result : forall A B (m m' : M A) (k : A -> M B) w,
  event_only m -> event_only m' ->
  (forall a, event_only (k a)) ->
  result (m w) = result (m' w) ->
  result (bind m k w) = result (bind m' k w).
Proof.
  intros A B m m' k w (r & evs & Hm) (r' & evs' & Hm') Hk H.
  rewrite Hm, Hm' in H. apply finish_result in H. subst r'.
  unfold bind. rewrite Hm, Hm'. destruct r as [a|e]; simpl; [|reflexivity].
  now apply event_only_result.
Qed.

Lemma export_tracks_app : forall playlist_name before after lists w,
  export_tracks playlist_name (before ++ after) lists w =
  bind (export_tracks playlist_name before lists) (export_tracks playlist_name after) w.
Proof.
  intros playlist_name before.
  induction before as [|track before IH]; intros after lists w.
  - reflexivity.
  - simpl. unfold bind in *.
    destruct (export_track playlist_name track lists w); try reflexivity.
    now rewrite IH.
Qed.

Lemma export_tracks_skips_none : forall playlist_name before after lists w,
  result (export_tracks playlist_name (before ++ PNone :: after) lists w) =
  result (export_tracks playlist_name (before ++ after) lists w).
Proof.
  intros playlist_name before after lists w.
  rewrite !export_tracks_app. unfold bind.
  destruct (export_tracks playlist_name before lists w) as [lists1 w1|e w1|];
    try reflexivity.
  simpl. destruct lists1 as [full_tracks minimal_tracks].
  unfold bind, logging, emit, ret. simpl.
  apply event_only_result, event_only_export_tracks.
Qed.

Lemma export_entry_tracks : forall playlist_name playlist_info tracks1 tracks2 docs w,
  result (export_tracks playlist_name tracks1 ([], []) w) =
  result (export_tracks playlist_name tracks2 ([], []) w) ->
  result (export_entry playlist_name (entry_of playlist_info tracks1) docs w) =
  result (export_entry playlist_name (entry_of playlist_info tracks2) docs w).
Proof.
  intros playlist_name playlist_info tracks1 tracks2 docs w H.
  destruct (event_only_export_tracks playlist_name tracks1 ([], [])) as (r1 & evs1 & H1).
  destruct (event_only_export_tracks playlist_name tracks2 ([], [])) as (r2 & evs2 & H2).
  rewrite H1, H2 in H. apply finish_result in H. subst r2.
  unfold export_entry, entry_of, bind, logging, emit, get, get_default. simpl.
  destruct (is_none playlist_info); [reflexivity|].
  destruct (full_playlist playlist_info) as [full|]; simpl; [|reflexivity].
  destruct (minimal_playlist playlist_info) as [minimal|]; simpl; [|reflexivity].
  rewrite H1, H2. now destruct r1.
Qed.

(** X7.  A null entry in the track list of a playlist is passed over with
    a warning: the lists of tracks are left as they are, and the
    sub-documents of the playlist are those of the same track list without
    the null entry, so the tracks after it are still exported. *)
Theorem null_track_is_skipped : forall playlist_name playlist_info before after docs lists w,
  export_track playlist_name PNone lists w =
  Returns lists
    (logged [Log WARNING [Lit "Found a None track in "; Fmt (PStr playlist_name)]] w) /\
  result (export_entry playlist_name
            (entry_of playlist_info (before ++ PNone :: after)) docs w) =
  result (export_entry playlist_name
            (entry_of playlist_info (before ++ after)) docs w).
Proof.
  intros playlist_name playlist_info before after docs lists w. split.
  - now destruct lists.
  - apply export_entry_tracks.
    rewrite export_tracks_skips_none. reflexivity.
Qed.

Lemma export_track_returns : forall playlist_name track full_tracks minimal_tracks w,
  exists new_full new_minimal w',
    export_track playlist_name track (full_tracks, minimal_tracks) w =
    Returns (full_tracks ++ new_full, minimal_tracks ++ new_minimal) w' /\
    List.length new_minimal <= List.length new_full <= 1.
Proof.
  intros playlist_name track full_tracks minimal_tracks w.
  unfold export_track.
  destruct (is_none track).
  - exists [], []. eexists. rewrite !app_nil_r. split; [reflexivity | simpl; lia].
  - destruct (event_only_format_track_data track) as ([full_track|e] & evs & Hf).
    + destruct (minimal_track full_track) as [line|e] eqn:Hline.
      * exists [full_track], [line]. eexists.
        unfold try_except, bind. rewrite Hf. simpl. rewrite Hline. simpl.
        split; [reflexivity | simpl; lia].
      * exists [full_track], []. eexists.
        unfold try_except, bind. rewrite Hf. simpl. rewrite Hline. simpl.
        rewrite app_nil_r. split; [reflexivity | simpl; lia].
    + exists [], []. eexists.
      unfold try_except, bind. rewrite Hf. simpl.
      rewrite !app_nil_r. split; [reflexivity | simpl; lia].
Qed.

Lemma format_track_data_invalid : forall track w,
  isinstance_dict track = false \/ has_track_key track = false ->
  format_track_data track w =
  Returns (PDict []) (logged [Log ERROR [Lit "Invalid track data: "; Fmt track]] w).
Proof.
  intros track w H. unfold format_track_data.
  destruct (isinstance_dict track); [|reflexivity].
  destruct H as [H | ->]; [discriminate H | reflexivity].
Qed.

Lemma format_track_data_valid : forall d info artists w,
  dict_lookup "track" d = Some (PDict info) ->
  iterate (field info "artists" (PList [])) = Ok artists ->
  Forall (fun artist => isinstance_dict artist = true) artists ->
  isinstance_dict (field info "album" (PDict [])) = true ->
  isinstance_dict (field info "external_urls" (PDict [])) = true ->
  format_track_data (PDict d) w = Returns (projected d info artists) w.
Proof.
  intros d info artists w Ht Hit Hartists Halbum Hurls.
  unfold format_track_data, has_track_key, dict_contains. cbn [isinstance_dict].
  rewrite Ht. cbn [negb orb]. unfold track_projection.
  cbn [subscript]. rewrite Ht. cbn [res_bind].
  rewrite !get_default_dict. cbn [res_bind]. rewrite Hit. cbn [res_bind].
  rewrite (artist_names _ Hartists). cbn [res_bind].
  rewrite (get_default_field_of _ _ _ Halbum). cbn [res_bind].
  rewrite (get_default_field_of _ _ _ Hurls). reflexivity.
Qed.

Lemma export_tracks_returns : forall playlist_name tracks lists w,
  exists lists' w', export_tracks playlist_name tracks lists w = Returns lists' w'.
Proof.
  intros playlist_name tracks.
  induction tracks as [|track rest IH]; intros [full_tracks minimal_tracks] w.
  - eexists _, _. reflexivity.
  - destruct (export_track_returns playlist_name track full_tracks minimal_tracks w)
      as (f1 & m1 & w1 & H1 & _).
    destruct (IH (full_tracks ++ f1, minimal_tracks ++ m1) w1) as (lists' & w2 & H2).
    exists lists', w2. cbn [export_tracks]. unfold bind. now rewrite H1.
Qed.


(** X9.  A track entry that is not null and fails the validation of
    [format_track_data] (not a dict, or without a [track] key) leaves the
    empty record in the full list of tracks and no line in the minimal
    list, with three errors logged: the record of the full list is
    appended before the minimal line is computed. *)
Theorem invalid_track_leaves_empty_record :
  forall playlist_name track full_tracks minimal_tracks w,
  is_none track = false ->
  isinstance_dict track = false \/ has_track_key track = false ->
  export_track playlist_name track (full_tracks, minimal_tracks) w =
  Returns (full_tracks ++ [PDict []], minimal_tracks)
    (logged [Log ERROR [Lit "Invalid track data: "; Fmt track];
             Log ERROR [Lit "Error formatting track in "; Fmt (PStr playlist_name);
                        Lit ": "; FmtExn (KeyError "artists")];
             Log ERROR [Lit "Problematic track data: "; Fmt track]] w).
Proof.
  intros playlist_name track full_tracks minimal_tracks w Hnone Hinvalid.
  unfold export_track. rewrite Hnone.
  unfold try_except, bind.
  rewrite (format_track_data_invalid track w Hinvalid).
  unfold logged. simpl. now rewrite <- !app_assoc.
Qed.

Lemma join_strings : forall sep names,
  join sep (map PStr names) = Ok (String.concat sep names).
Proof.
  intros sep names. induction names as [|name rest IH]; [reflexivity|].
  destruct rest as [|name2 rest]; [reflexivity|].
  change (join sep (map PStr (name :: name2 :: rest)))
    with (let? r := join sep (map PStr (name2 :: rest)) in
          Ok (name ++ sep ++ r)%string).
  rewrite IH. reflexivity.
Qed.

(** X10.  A well-formed track (a dict whose [track] is a dict, with a
    [str] name, artists that are dicts with [str] names, and dicts for
    [album] and [external_urls] when present) gives one record to the full
    list and the line "name - [artist, artist, ...]" to the minimal list,
    without logging anything. *)
Theorem well_formed_track_is_exported :
  forall playlist_name d info artists names title full_tracks minimal_tracks w,
  dict_lookup "track" d = Some (PDict info) ->
  iterate (field info "artists" (PList [])) = Ok artists ->
  Forall (fun artist => isinstance_dict artist = true) artists ->
  map (fun artist => field_of artist "name" (PStr "")) artists = map PStr names ->
  field info "name" (PStr "") = PStr title ->
  isinstance_dict (field info "album" (PDict [])) = true ->
  isinstance_dict (field info "external_urls" (PDict [])) = true ->
  export_track playlist_name (PDict d) (full_tracks, minimal_tracks) w =
  Returns (full_tracks ++ [projected d info artists],
           minimal_tracks ++
           [PStr (title ++ " - [" ++ String.concat ", " names ++ "]")])
          w.
Proof.
  intros playlist_name d info artists names title full_tracks minimal_tracks w
         Ht Hit Hartists Hnames Htitle Halbum Hurls.
  unfold export_track. cbn [is_none].
  unfold try_except, bind.
  rewrite (format_track_data_valid d info artists w Ht Hit Hartists Halbum Hurls).
  unfold minimal_track, projected. cbn [subscript dict_lookup String.eqb Ascii.eqb Bool.eqb].
  cbn [res_bind iterate]. rewrite Hnames, join_strings. cbn [res_bind].
  rewrite Htitle. reflexivity.
Qed.


(** ** Further properties: what the export does and does not do *)

Lemma emits_ret : forall A P (a : A), emits P (ret a).
Proof.
  intros A P a w. exists []. now rewrite logged_nil.
Qed.

Lemma emits_lift : forall A P (r : res A), emits P (lift r).
Proof.
  intros A P [a|e] w; exists []; now rewrite logged_nil.
Qed.

Lemma emits_emit : forall (P : event -> Prop) ev, P ev -> emits P (emit ev).
Proof.
  intros P ev H w. exists [ev]. split; [reflexivity | now constructor].
Qed.

Lemma emits_bind : forall A B P (m : M A) (k : A -> M B),
  emits P m -> (forall a, emits P (k a)) -> emits P (bind m k).
Proof.
  intros A B P m k Hm Hk w. unfold bind. specialize (Hm w).
  destruct (m w) as [a w1|e w1|]; [| exact Hm | exact I].
  destruct Hm as (evs & -> & Hevs). specialize (Hk a (logged evs w)).
  destruct (k a (logged evs w)) as [b w2|e w2|]; [| | exact I];
    destruct Hk as (evs' & -> & Hevs'); exists (evs ++ evs');
    (split; [now rewrite logged_app | now apply Forall_app]).
Qed.

Lemma emits_try : forall A P (body : M A) (handler : exn -> M A),
  emits P body -> (forall e, emits P (handler e)) -> emits P (try_except body handler).
Proof.
  intros A P body handler Hb Hh w. unfold try_except. specialize (Hb w).
  destruct (body w) as [a w1|e w1|]; [exact Hb | | exact I].
  destruct Hb as (evs & -> & Hevs). specialize (Hh e (logged evs w)).
  destruct (handler e (logged evs w)) as [b w2|e2 w2|]; [| | exact I];
    destruct Hh as (evs' & -> & Hevs'); exists (evs ++ evs');
    (split; [now rewrite logged_app | now apply Forall_app]).
Qed.

Lemma emits_weaken : forall A (P Q : event -> Prop) (m : M A),
  (forall ev, P ev -> Q ev) -> emits P m -> emits Q m.
Proof.
  intros A P Q m HPQ Hm w. specialize (Hm w).
  destruct (m w) as [a w1|e w1|]; [| | exact I];
    destruct Hm as (evs & -> & Hevs); exists evs;
    (split; [reflexivity | now apply (Forall_impl Q HPQ)]).
Qed.

Ltac emits_log_step :=
  first [ apply emits_ret
        | apply emits_lift
        | apply emits_emit; exact I
        | apply emits_try
        | apply emits_bind
        | intro ].

Lemma emits_format_track_data : forall track, emits is_log (format_track_data track).
Proof.
  intros track. unfold format_track_data, logging.
  destruct (negb (isinstance_dict track) || negb (has_track_key track));
    repeat emits_log_step.
Qed.

Lemma emits_export_track : forall playlist_name track lists,
  emits is_log (export_track playlist_name track lists).
Proof.
  intros playlist_name track [full_tracks minimal_tracks].
  unfold export_track, log_track_error, logging.
  destruct (is_none track); repeat emits_log_step.
  apply emits_format_track_data.
Qed.

Lemma emits_export_tracks : forall playlist_name tracks lists,
  emits is_log (export_tracks playlist_name tracks lists).
Proof.
  intros playlist_name tracks.
  induction tracks as [|track rest IH]; intros lists; simpl.
  - apply emits_ret.
  - apply emits_bind; [apply emits_export_track | exact IH].
Qed.

Lemma emits_export_entry : forall playlist_name playlist_data docs,
  emits is_log (export_entry playlist_name playlist_data docs).
Proof.
  intros playlist_name playlist_data docs. unfold export_entry, logging.
  apply emits_bind; [apply emits_emit; exact I | intros _].
  destruct (is_none playlist_data); [repeat emits_log_step|].
  apply emits_bind; [apply emits_lift | intros playlist_info].
  destruct (is_none playlist_info); [repeat emits_log_step|].
  do 3 (apply emits_bind; [apply emits_lift | intro]).
  apply emits_bind.
  - match goal with |- context [is_none ?t] => destruct (is_none t) end;
      repeat emits_log_step.
  - intro. apply emits_bind; [apply emits_lift | intro].
    apply emits_bind; [apply emits_export_tracks | intro].
    apply emits_ret.
Qed.

Lemma emits_export_entries : forall playlists_data docs,
  emits is_log (export_entries playlists_data docs).
Proof.
  induction playlists_data as [|[playlist_name playlist_data] rest IH];
    intros docs; simpl.
  - apply emits_ret.
  - apply emits_bind; [apply emits_export_entry | exact IH].
Qed.

(** X11.  The files are written after the loop over the mapping: when
    that loop raises, as it does on an entry that is ill typed, the export
    whose directory was created raises the same exception after log lines
    only, and neither file is written. *)
Theorem export_writes_nothing_when_it_raises :
  forall script_dir now playlists_data w e,
  result (export_documents playlists_data w) = Some (Err e) ->
  exists evs,
    save_playlists_to_json script_dir now playlists_data w =
    Raises e (logged (MakeDirs (path_join (path_join script_dir "output")
                                          ("spotify_export_" ++ timestamp now)) :: evs) w) /\
    Forall is_log evs.
Proof.
  intros script_dir now_ playlists_data w e H.
  set (output_dir := path_join (path_join script_dir "output")
                               ("spotify_export_" ++ timestamp now_)).
  rewrite (event_only_result _ (export_documents playlists_data) w
             (logged [MakeDirs output_dir] w)
             (event_only_export_entries playlists_data ([], []))) in H.
  pose proof (emits_export_entries playlists_data ([], [])
                (logged [MakeDirs output_dir] w)) as Hloop.
  unfold save_playlists_to_json. fold output_dir.
  unfold bind at 1. unfold emit at 1. unfold bind at 1.
  change (mkWorld (trace w ++ [MakeDirs output_dir]) (memo w))
    with (logged [MakeDirs output_dir] w).
  unfold export_documents in *.
  destruct (export_entries playlists_data ([], []) (logged [MakeDirs output_dir] w))
    as [docs w1|e1 w1|]; [discriminate H| |discriminate H].
  injection H as <-. destruct Hloop as (evs & -> & Hevs).
  exists evs. split; [|exact Hevs].
  now rewrite logged_app.
Qed.

Lemma export_entries_aborts : forall before playlist_name playlist_data after docs docs1 e w,
  result (export_entries before docs w) = Some (Ok docs1) ->
  result (export_entry playlist_name playlist_data docs1 w) = Some (Err e) ->
  result (export_entries (before ++ (playlist_name, playlist_data) :: after) docs w) =
  Some (Err e).
Proof.
  intros before playlist_name playlist_data after docs docs1 e w Hbefore Hentry.
  rewrite export_entries_app. unfold bind.
  destruct (export_entries before docs w) as [d w1|e1 w1|]; try discriminate.
  injection Hbefore as ->. simpl. unfold bind.
  rewrite (event_only_result _ (export_entry playlist_name playlist_data docs1) w w1
             (event_only_export_entry _ _ _)) in Hentry.
  destruct (export_entry playlist_name playlist_data docs1 w1); try discriminate.
  exact Hentry.
Qed.

(** X12.  An entry of the wrong type aborts the export of the whole
    mapping, the entries after it included: a value that is neither null
    nor a dict, or metadata that is neither null nor a dict, raises
    [AttributeError]; a track list that is a number raises [TypeError]. *)
Theorem ill_typed_entry_aborts_export :
  forall playlist_name playlist_data docs1 w,
  (is_none playlist_data = false -> isinstance_dict playlist_data = false ->
   result (export_entry playlist_name playlist_data docs1 w) =
   Some (Err (AttributeError "get"))) /\
  (forall d playlist_info,
     playlist_data = PDict d ->
     dict_lookup "playlist_info" d = Some playlist_info ->
     is_none playlist_info = false -> isinstance_dict playlist_info = false ->
     result (export_entry playlist_name playlist_data docs1 w) =
     Some (Err (AttributeError "get"))) /\
  (forall d playlist_info count,
     playlist_data = PDict d ->
     dict_lookup "playlist_info" d = Some playlist_info ->
     exportable playlist_info ->
     dict_lookup "tracks" d = Some (PInt count) ->
     result (export_entry playlist_name playlist_data docs1 w) =
     Some (Err TypeError)) /\
  (forall before after docs e,
     result (export_entries before docs w) = Some (Ok docs1) ->
     result (export_entry playlist_name playlist_data docs1 w) = Some (Err e) ->
     result (export_entries (before ++ (playlist_name, playlist_data) :: after) docs w) =
     Some (Err e)).
Proof.
  intros playlist_name playlist_data docs1 w. split; [|split; [|split]].
  - intros Hnone Hdict. unfold export_entry, bind, logging, emit.
    rewrite Hnone. now destruct playlist_data.
  - intros d playlist_info -> Hinfo Hnone Hdict.
    unfold export_entry, bind, logging, emit, get, get_default. simpl.
    rewrite Hinfo. simpl. rewrite Hnone.
    now destruct playlist_info.
  - intros d playlist_info count -> Hinfo [full Hfull] Htracks.
    destruct (full_playlist_named _ _ Hfull) as (Hnone & name & _ & Hminimal & _).
    unfold export_entry, bind, logging, emit, get, get_default. simpl.
    rewrite Hinfo. simpl. rewrite Hnone, Hfull. simpl.
    rewrite Hminimal. simpl. rewrite Htracks. reflexivity.
  - intros before after docs e. apply export_entries_aborts.
Qed.

(** ** Further properties: declining the confirmation *)

Lemma emits_api : forall A (P : event -> Prop) call (answer : A),
  P (Api call) -> emits P (api call answer).
Proof.
  intros A P call answer H. unfold api.
  apply emits_bind; [now apply emits_emit | intro; apply emits_ret].
Qed.

Lemma emits_extend_loop : forall sp fuel first tracks,
  emits is_listing_call (extend_loop sp fuel first tracks).
Proof.
  intros sp fuel.
  induction fuel as [|fuel IH]; intros first tracks;
    destruct first as [page|]; simpl; try apply emits_ret; try (intro; exact I).
  destruct (truthy (next page)); [|apply emits_ret].
  apply emits_bind; [apply emits_api; exact I | intro; apply IH].
Qed.

Lemma emits_playlists_loop : forall sp fuel first playlists,
  emits is_listing_call (playlists_loop sp fuel first playlists).
Proof.
  intros sp fuel.
  induction fuel as [|fuel IH]; intros first playlists;
    destruct first as [page|]; simpl; try apply emits_ret; try (intro; exact I).
  apply emits_bind; [apply emits_lift | intro].
  destruct (truthy (next page)); [|apply emits_ret].
  apply emits_bind; [apply emits_api; exact I | intro; apply IH].
Qed.

Lemma emits_aggregator : forall sp fuel,
  emits is_listing_call (get_user_playlists_and_saved_tracks sp fuel).
Proof.
  intros sp fuel.
  unfold get_user_playlists_and_saved_tracks, get_user_playlists, get_saved_tracks.
  apply emits_bind.
  - apply emits_bind; [apply emits_api; exact I | intro; apply emits_playlists_loop].
  - intro. apply emits_bind.
    + apply emits_bind; [apply emits_api; exact I | intro; apply emits_extend_loop].
    + intro. apply emits_bind; [apply emits_lift | intro; apply emits_ret].
Qed.

(** X13.  The aggregator only calls the two listings and [sp.next], on
    any server: it never asks for the tracks of a playlist, never writes
    and leaves the cache as it is.  So does [main] when the confirmation
    is declined, apart from its messages: it returns without creating a
    directory or a file and without fetching the tracks of any playlist. *)
Theorem declined_run_exports_nothing : forall sp fuel script_dir now,
  emits is_listing_call (get_user_playlists_and_saved_tracks sp fuel) /\
  emits (fun ev => is_listing_call ev \/ is_print ev)
        (main sp fuel script_dir now false) /\
  (forall w exported w',
     main sp fuel script_dir now false w = Returns exported w' -> exported = false).
Proof.
  intros sp fuel script_dir now_. split; [apply emits_aggregator|]. split.
  - unfold main, print.
    apply emits_bind; [apply emits_emit; now right | intros _].
    apply emits_bind.
    + apply (emits_weaken _ is_listing_call); [intros ev H; now left|].
      apply emits_aggregator.
    + intros listing. simpl.
      apply emits_bind; [apply emits_emit; now right | intros _; apply emits_ret].
  - intros w exported w' H. unfold main, bind in H. simpl in H.
    destruct (get_user_playlists_and_saved_tracks sp fuel _) as [listing w1|e w1|];
      try discriminate.
    now injection H as <- _.
Qed.

(** ** Further properties: from the confirmed playlists to the documents *)

Lemma dict_set_in : forall k v d k0 v0,
  In (k, v) (dict_set k0 v0 d) -> (k, v) = (k0, v0) \/ In (k, v) d.
Proof.
  clear str_lower repr.
  intros k v d k0 v0. induction d as [|[k1 v1] d IH]; simpl.
  - intuition.
  - destruct (k1 =? k0)%string; simpl; intuition.
Qed.

Lemma keyed_values : forall fs d k v,
  In (k, v) (keyed fs d) ->
  In (k, v) d \/
  exists f, In f fs /\ k = name_of f /\ v = entry_of (playlist_of f) (tracks_of f).
Proof.
  induction fs as [|f fs IH]; intros d k v Hin; simpl in Hin.
  - now left.
  - destruct (IH _ _ _ Hin) as [Hset | (g & Hg & Hk & Hv)].
    + apply dict_set_in in Hset. destruct Hset as [[= -> ->] | Hd]; [|now left].
      right. exists f. simpl. auto.
    + right. exists g. simpl. auto.
Qed.

Lemma export_entry_of : forall playlist_name playlist_info tracks docs w,
  exportable playlist_info ->
  subscript playlist_info "name" = Ok (PStr playlist_name) ->
  exists full_doc minimal_doc w',
    export_entry playlist_name (entry_of playlist_info tracks) docs w =
    Returns (fst docs ++ [full_doc], snd docs ++ [minimal_doc]) w' /\
    subscript full_doc "name" = Ok (PStr playlist_name) /\
    subscript minimal_doc "name" = Ok (PStr playlist_name).
Proof.
  intros playlist_name playlist_info tracks docs w [full Hfull] Hname.
  destruct (full_playlist_named _ _ Hfull) as (Hnone & name & Hget & Hminimal & Hsub).
  assert (name = PStr playlist_name) as ->.
  { destruct playlist_info as [| | | | |d]; try discriminate.
    unfold get, get_default in Hget. unfold subscript in Hname.
    destruct (dict_lookup "name" d); congruence. }
  destruct (event_only_export_tracks playlist_name tracks ([], []))
    as ([lists|e] & evs & Hrun).
  - eexists _, _, _. split.
    + unfold export_entry, entry_of, bind, logging, emit, get, get_default. simpl.
      rewrite Hnone, Hfull. simpl. rewrite Hminimal. simpl.
      rewrite Hrun. simpl. reflexivity.
    + split; [apply Hsub | reflexivity].
  - destruct (export_tracks_returns playlist_name tracks ([], []) w)
      as (lists' & w2 & Hret).
    rewrite Hrun in Hret. discriminate.
Qed.

Lemma export_entries_named : forall playlists_data docs w,
  Forall (fun entry =>
            exists playlist_info tracks,
              snd entry = entry_of playlist_info tracks /\
              exportable playlist_info /\
              subscript playlist_info "name" = Ok (PStr (fst entry)))
         playlists_data ->
  exists new_full new_minimal w',
    export_entries playlists_data docs w =
    Returns (fst docs ++ new_full, snd docs ++ new_minimal) w' /\
    names_of new_full = keys_as_names playlists_data /\
    names_of new_minimal = keys_as_names playlists_data.
Proof.
  induction playlists_data as [|[playlist_name playlist_data] rest IH];
    intros docs w Hall.
  - exists [], [], w. simpl. rewrite !app_nil_r. destruct docs. auto.
  - inversion Hall as [|? ? (info & tracks & Hv & Hx & Hn) Hrest]; subst.
    simpl in Hv, Hn. subst playlist_data.
    destruct (export_entry_of playlist_name info tracks docs w Hx Hn)
      as (full_doc & minimal_doc & w1 & Hrun & Hf & Hm).
    destruct (IH (fst docs ++ [full_doc], snd docs ++ [minimal_doc]) w1 Hrest)
      as (new_full & new_minimal & w2 & Hrun2 & Hnf & Hnm).
    exists (full_doc :: new_full), (minimal_doc :: new_minimal), w2.
    simpl. unfold bind. rewrite Hrun, Hrun2. simpl.
    rewrite <- !app_assoc. simpl.
    unfold names_of, keys_as_names in *. simpl. now rewrite Hf, Hm, Hnf, Hnm.
Qed.

(** X14.  From the confirmed playlists to the documents: when every
    confirmed playlist is fetchable and has well-typed metadata, the loop
    of [main] followed by the export returns both documents with exactly
    one sub-document per distinct playlist name, named by it, in the order
    of the mapping. *)
Theorem one_document_per_name : forall sp fuel fs w,
  memo_sound sp fuel (memo w) ->
  Forall (fetchable sp fuel) fs ->
  Forall (fun f => exportable (playlist_of f)) fs ->
  exists all_playlist_data w1 full minimal w2,
    collect_playlists sp fuel (map playlist_of fs) [] w =
    Returns all_playlist_data w1 /\
    export_documents all_playlist_data w1 = Returns (full, minimal) w2 /\
    names_of full = keys_as_names all_playlist_data /\
    names_of minimal = keys_as_names all_playlist_data /\
    NoDup (map fst all_playlist_data) /\
    (forall name,
       In name (map fst all_playlist_data) <-> In name (map name_of fs)).
Proof.
  intros sp fuel fs w Hsound Hfetch Hexp.
  destruct (collect_playlists_run sp fuel fs [] w Hsound Hfetch) as (w1 & Hrun & _).
  assert (Hentries :
    Forall (fun entry =>
              exists playlist_info tracks,
                snd entry = entry_of playlist_info tracks /\
                exportable playlist_info /\
                subscript playlist_info "name" = Ok (PStr (fst entry)))
           (keyed fs [])).
  { apply Forall_forall. intros [k v] Hin.
    destruct (keyed_values _ _ _ _ Hin) as [[] | (f & Hf & -> & ->)].
    exists (playlist_of f), (tracks_of f). split; [reflexivity|]. split.
    - exact (proj1 (Forall_forall _ _) Hexp f Hf).
    - destruct (proj1 (Forall_forall _ _) Hfetch f Hf) as (id & Hname & _).
      exact Hname. }
  destruct (export_entries_named (keyed fs []) ([], []) w1 Hentries)
    as (full & minimal & w2 & Hexport & Hnf & Hnm).
  exists (keyed fs []), w1, full, minimal, w2.
  split; [exact Hrun|]. split; [exact Hexport|].
  split; [exact Hnf|]. split; [exact Hnm|]. split.
  - apply keyed_nodup. constructor.
  - intros name. rewrite keyed_keys. simpl. clear. tauto.
Qed.


(** ** Further properties: credentials and authorisation *)

Lemma credentials_missing : forall env,
  missing (SPOTIPY_CLIENT_ID env) \/ missing (SPOTIPY_CLIENT_SECRET env) \/
  missing (SPOTIPY_REDIRECT_URI env) ->
  credentials_present env = false.
Proof.
  intros env H. unfold credentials_present.
  destruct H as [[-> | ->] | [[-> | ->] | [-> | ->]]]; simpl;
    rewrite ?andb_false_r; reflexivity.
Qed.

(** X15.  When one of the three variables of the environment is unset or
    empty, [get_spotify_client] prints its diagnostic and exits with
    status 1 without consulting the token cache or reading the console,
    and [main] ends the process with status 1 after its first message and
    that diagnostic. *)
Theorem missing_credentials_exit_1 :
  forall env auth_manager client fuel script_dir now p,
  missing (SPOTIPY_CLIENT_ID env) \/ missing (SPOTIPY_CLIENT_SECRET env) \/
  missing (SPOTIPY_REDIRECT_URI env) ->
  get_spotify_client env auth_manager client p =
  Abrupt (SystemExit 1)
    (mkProcess
       (logged [Print [Lit "Error: Missing Spotify API credentials. Please check your .env file."]]
               (console p))
       (stdin p)) /\
  main_process env auth_manager client fuel script_dir now p =
  Abrupt (SystemExit 1)
    (mkProcess
       (logged [Print [Lit "Starting Spotify authentication process..."];
                Print [Lit "Error: Missing Spotify API credentials. Please check your .env file."]]
               (console p))
       (stdin p)) /\
  exit_status (main_process env auth_manager client fuel script_dir now p) = Some 1%Z.
Proof.
  intros env auth_manager client fuel script_dir now_ p H.
  apply credentials_missing in H.
  assert (Hclient : forall q,
            get_spotify_client env auth_manager client q =
            Abrupt (SystemExit 1)
              (mkProcess
                 (logged [Print [Lit "Error: Missing Spotify API credentials. Please check your .env file."]]
                         (console q))
                 (stdin q))).
  { intros q. unfold get_spotify_client. rewrite H. reflexivity. }
  assert (Hmain : main_process env auth_manager client fuel script_dir now_ p =
                  Abrupt (SystemExit 1)
                    (mkProcess
                       (logged [Print [Lit "Starting Spotify authentication process..."];
                                Print [Lit "Error: Missing Spotify API credentials. Please check your .env file."]]
                               (console p))
                       (stdin p))).
  { unfold main_process, main_try. unfold pbind at 1. unfold say at 1, run, print, emit.
    unfold pbind at 1. rewrite Hclient. simpl.
    unfold logged. simpl. now rewrite <- app_assoc. }
  split; [apply Hclient|]. split; [exact Hmain|]. now rewrite Hmain.
Qed.

(** X16.  With the three credentials set, [get_spotify_client] returns
    the client at once when the cached token is valid: it prints nothing
    and reads nothing.  Otherwise it prints the authorisation URL, reads
    one line, and exchanges the code parsed from that line, stripped, for
    a token; at the end of the input it raises [EOFError]. *)
Theorem authorisation_dialogue : forall env auth_manager client p,
  credentials_present env = true ->
  (cached_token_valid auth_manager = Granted true ->
   get_spotify_client env auth_manager client p = Normal client p) /\
  (forall line rest code,
     cached_token_valid auth_manager = Granted false ->
     stdin p = line :: rest ->
     parse_response_code auth_manager (strip line) = Granted code ->
     get_access_token auth_manager code = Granted tt ->
     get_spotify_client env auth_manager client p =
     Normal client
       (mkProcess
          (logged [Print [Lit "No valid token found. Please authenticate manually."];
                   Print [Lit (String newline
                     "Please navigate to the following URL to authorize the application:")];
                   Print [Fmt (PStr (get_authorize_url auth_manager))];
                   Print [Lit (String newline
                     "After authorizing, you will be redirected to a URL. Please copy and paste that URL here:")];
                   Print [Lit "Enter the URL you were redirected to: "]]
                  (console p))
          rest)) /\
  (cached_token_valid auth_manager = Granted false ->
   stdin p = [] ->
   exists p', get_spotify_client env auth_manager client p = Abrupt EOFError p').
Proof.
  intros env auth_manager client [w lines] Hcred.
  unfold get_spotify_client. rewrite Hcred. simpl negb. cbv iota.
  split; [|split].
  - intros Hvalid. unfold pbind. rewrite Hvalid. reflexivity.
  - intros line rest code Hvalid Hstdin Hparse Haccess. simpl in Hstdin. subst lines.
    unfold pbind, say, run, print, emit, input. rewrite Hvalid. simpl.
    rewrite Hparse. simpl. rewrite Haccess. simpl.
    unfold logged. simpl. now rewrite <- !app_assoc.
  - intros Hvalid Hstdin. simpl in Hstdin. subst lines.
    unfold pbind, say, run, print, emit, input. rewrite Hvalid. simpl.
    eexists. reflexivity.
Qed.

(** ** Further properties: the confirmation *)

Lemma confirm_loop_spec : forall invalid w,
  Forall unclear invalid ->
  (forall line rest,
     is_yes (normalise line) = true ->
     confirm_loop (invalid ++ line :: rest) w =
     Normal true
       (mkProcess (logged (reprompts invalid ++ [Print [Lit confirm_prompt]]) w) rest)) /\
  (forall line rest,
     is_yes (normalise line) = false -> is_no (normalise line) = true ->
     confirm_loop (invalid ++ line :: rest) w =
     Normal false
       (mkProcess (logged (reprompts invalid ++ [Print [Lit confirm_prompt]]) w) rest)) /\
  confirm_loop invalid w =
  Abrupt EOFError
    (mkProcess (logged (reprompts invalid ++ [Print [Lit confirm_prompt]]) w) []).
Proof.
  intros invalid. induction invalid as [|l invalid IH]; intros w Hall.
  - simpl. split; [|split].
    + intros line rest Hyes. now rewrite Hyes.
    + intros line rest Hyes Hno. now rewrite Hyes, Hno.
    + reflexivity.
  - inversion Hall as [|? ? [Hy Hn] Hrest]; subst.
    destruct (IH (logged [Print confirm_complaint]
                    (logged [Print [Lit confirm_prompt]] w)) Hrest)
      as (IHyes & IHno & IHeof).
    assert (E : forall tail,
              logged tail (logged [Print confirm_complaint]
                             (logged [Print [Lit confirm_prompt]] w)) =
              logged (Print [Lit confirm_prompt] :: Print confirm_complaint :: tail) w).
    { intros tail. now rewrite !logged_app. }
    simpl. rewrite Hy, Hn. split; [|split].
    + intros line rest Hyes. rewrite (IHyes line rest Hyes). now rewrite E.
    + intros line rest Hyes Hno. rewrite (IHno line rest Hyes Hno). now rewrite E.
    + rewrite IHeof. now rewrite E.
Qed.

Lemma show_playlists_returns : forall playlists i,
  Forall showable playlists ->
  exists shown,
    List.length shown = List.length playlists /\ Forall is_print shown /\
    forall w, show_playlists i playlists w = Returns tt (logged shown w).
Proof.
  induction playlists as [|playlist rest IH]; intros i Hall.
  - exists []. split; [reflexivity|]. split; [constructor|].
    intros w. simpl. unfold ret. now rewrite logged_nil.
  - inversion Hall as [|? ? (name & tracks & total & Hn & Ht & Htot) Hrest]; subst.
    destruct (IH (i + 1)%Z Hrest) as (shown & Hlen & Hprint & Hrun).
    exists (Print [Fmt (PInt i); Lit ". "; Fmt name; Lit " ("; Fmt total;
                   Lit " tracks)"] :: shown).
    split; [simpl; now rewrite Hlen|].
    split; [constructor; [exact I | exact Hprint]|].
    intros w. simpl. unfold bind. rewrite Hn. simpl. rewrite Ht. simpl.
    rewrite Htot. simpl. rewrite Hrun.
    unfold logged. simpl. now rewrite <- app_assoc.
Qed.

Lemma confirm_playlists_loop : forall playlists w,
  Forall showable playlists ->
  exists shown,
    List.length shown = List.length playlists /\ Forall is_print shown /\
    forall lines,
      confirm_playlists playlists (mkProcess w lines) =
      confirm_loop lines
        (logged (Print [Lit (String newline "The following playlists were found:")]
                 :: shown) w).
Proof.
  intros playlists w Hshow.
  destruct (show_playlists_returns playlists 1%Z Hshow) as (shown & Hlen & Hprint & Hrun).
  exists shown. split; [exact Hlen|]. split; [exact Hprint|].
  intros lines. unfold confirm_playlists, pbind, say, run, print, emit. simpl.
  rewrite Hrun. unfold logged. simpl. now rewrite <- app_assoc.
Qed.

Lemma confirm_playlists_spec : forall playlists invalid w,
  Forall showable playlists ->
  Forall unclear invalid ->
  exists shown,
    List.length shown = List.length playlists /\ Forall is_print shown /\
    let asked :=
      logged (Print [Lit (String newline "The following playlists were found:")]
              :: shown ++ reprompts invalid ++ [Print [Lit confirm_prompt]]) w in
    (forall line rest,
       is_yes (normalise line) = true ->
       confirm_playlists playlists (mkProcess w (invalid ++ line :: rest)) =
       Normal true (mkProcess asked rest)) /\
    (forall line rest,
       is_yes (normalise line) = false -> is_no (normalise line) = true ->
       confirm_playlists playlists (mkProcess w (invalid ++ line :: rest)) =
       Normal false (mkProcess asked rest)) /\
    confirm_playlists playlists (mkProcess w invalid) =
    Abrupt EOFError (mkProcess asked []).
Proof.
  intros playlists invalid w Hshow Hinvalid.
  destruct (confirm_playlists_loop playlists w Hshow) as (shown & Hlen & Hprint & E).
  exists shown. split; [exact Hlen|]. split; [exact Hprint|].
  destruct (confirm_loop_spec invalid
              (logged (Print [Lit (String newline "The following playlists were found:")]
                       :: shown) w) Hinvalid) as (Hyes & Hno & Heof).
  rewrite logged_app in Hyes, Hno, Heof. cbv zeta. split; [|split].
  - intros line rest H. rewrite E. now apply Hyes.
  - intros line rest H1 H2. rewrite E. now apply Hno.
  - rewrite E. exact Heof.
Qed.

(** X17.  [confirm_playlists] shows one line per playlist and asks until
    it understands: for every response that, lower-cased and stripped, is
    none of y, yes, n, no it prints its complaint and asks again; it
    returns true on the first y or yes, false on the first n or no, having
    read the console up to that response; when the input ends first it
    raises [EOFError]. *)
Theorem confirmation_asks_until_answered : forall playlists invalid w,
  Forall showable playlists ->
  Forall unclear invalid ->
  exists shown,
    List.length shown = List.length playlists /\ Forall is_print shown /\
    let asked :=
      logged (Print [Lit (String newline "The following playlists were found:")]
              :: shown ++ reprompts invalid ++ [Print [Lit confirm_prompt]]) w in
    (forall line rest,
       is_yes (normalise line) = true ->
       confirm_playlists playlists (mkProcess w (invalid ++ line :: rest)) =
       Normal true (mkProcess asked rest)) /\
    (forall line rest,
       is_yes (normalise line) = false -> is_no (normalise line) = true ->
       confirm_playlists playlists (mkProcess w (invalid ++ line :: rest)) =
       Normal false (mkProcess asked rest)) /\
    confirm_playlists playlists (mkProcess w invalid) =
    Abrupt EOFError (mkProcess asked []).
Proof.
  intros playlists invalid w Hshow Hinvalid.
  destruct (confirm_playlists_loop playlists w Hshow) as (shown & Hlen & Hprint & Hloop).
  destruct (confirm_loop_spec invalid
              (logged (Print [Lit (String newline "The following playlists were found:")]
                       :: shown) w) Hinvalid) as (Hyes & Hno & Heof).
  exists shown. split; [exact Hlen|]. split; [exact Hprint|].
  cbv zeta.
  replace (logged (Print [Lit (String newline "The following playlists were found:")]
                   :: shown ++ reprompts invalid ++ [Print [Lit confirm_prompt]]) w)
    with (logged (reprompts invalid ++ [Print [Lit confirm_prompt]])
            (logged (Print [Lit (String newline "The following playlists were found:")]
                     :: shown) w))
    by (now rewrite logged_app).
  split; [|split].
  - intros line rest Hy. rewrite Hloop. exact (Hyes line rest Hy).
  - intros line rest Hy Hn. rewrite Hloop. exact (Hno line rest Hy Hn).
  - rewrite Hloop. exact Heof.
Qed.

(** ** Further properties: the exit status *)

Lemma exits_pret : forall A (a : A), exits_0_or_1 (pret a).
Proof. intros A a p code p' H. discriminate H. Qed.

Lemma exits_run : forall A (m : M A), exits_0_or_1 (run m).
Proof.
  intros A m p code p' H. unfold run in H.
  destruct (m (console p)); discriminate H.
Qed.

Lemma exits_calls_oauth : forall A (answer : oauth A), exits_0_or_1 (calls_oauth answer).
Proof. intros A [a|message] p code p' H; discriminate H. Qed.

Lemma exits_input : forall prompt, exits_0_or_1 (input prompt).
Proof.
  intros prompt p code p' H. unfold input in H. destruct (stdin p); discriminate H.
Qed.

Lemma exits_sys_exit : forall A code,
  code = 0%Z \/ code = 1%Z -> exits_0_or_1 (@sys_exit A code).
Proof. intros A code Hc p c p' H. injection H as <- _. exact Hc. Qed.

Lemma exits_pbind : forall A B (m : P A) (k : A -> P B),
  exits_0_or_1 m -> (forall a, exits_0_or_1 (k a)) -> exits_0_or_1 (pbind m k).
Proof.
  intros A B m k Hm Hk p code p' H. unfold pbind in H.
  destruct (m p) as [a p1|r p1|] eqn:E; [| |discriminate H].
  - exact (Hk a p1 code p' H).
  - injection H as Hr Hp. subst r p1. exact (Hm p code p' E).
Qed.

Lemma exits_confirm_loop : forall lines w code p',
  confirm_loop lines w = Abrupt (SystemExit code) p' -> code = 0%Z \/ code = 1%Z.
Proof.
  induction lines as [|line rest IH]; intros w code p' H; simpl in H.
  - discriminate H.
  - destruct (is_yes (normalise line)); [discriminate H|].
    destruct (is_no (normalise line)); [discriminate H|].
    exact (IH _ _ _ H).
Qed.

Ltac exits_step :=
  first [ apply exits_pret
        | apply exits_run
        | apply exits_calls_oauth
        | apply exits_input
        | apply exits_sys_exit; auto
        | apply exits_pbind
        | intro ].

Lemma exits_main_try : forall env auth_manager client fuel script_dir now,
  exits_0_or_1 (main_try env auth_manager client fuel script_dir now).
Proof.
  intros env auth_manager client fuel script_dir now_. unfold main_try, say.
  apply exits_pbind; [apply exits_run | intros _].
  apply exits_pbind.
  - unfold get_spotify_client, say.
    destruct (negb (credentials_present env)); [repeat exits_step|].
    apply exits_pbind; [apply exits_calls_oauth | intros valid].
    apply exits_pbind; [|intros _; apply exits_pret].
    destruct (negb valid); repeat exits_step.
  - intros sp. apply exits_pbind; [apply exits_run | intros _].
    apply exits_pbind; [apply exits_run | intros listing].
    apply exits_pbind.
    + unfold confirm_playlists, say.
      apply exits_pbind; [apply exits_run | intros _].
      apply exits_pbind; [apply exits_run | intros _].
      intros p code p' H. exact (exits_confirm_loop _ _ _ _ H).
    + intros confirmed. apply exits_pbind.
      * destruct (negb confirmed); unfold say; repeat exits_step.
      * intros _. repeat exits_step.
Qed.

(** X18.  Whatever the environment, the server and the console, when
    [main] ends it ends the process with status 0 or 1: no exception other
    than [SystemExit] leaves it.  Every exception of the pipeline is
    turned into status 1 by the last handler. *)
Theorem main_exit_status_0_or_1 :
  forall env auth_manager client fuel script_dir now p,
  (exit_status (main_process env auth_manager client fuel script_dir now p) = None \/
   exit_status (main_process env auth_manager client fuel script_dir now p) = Some 0%Z \/
   exit_status (main_process env auth_manager client fuel script_dir now p) = Some 1%Z) /\
  (forall r p',
     main_process env auth_manager client fuel script_dir now p = Abrupt r p' ->
     r = SystemExit 0 \/ r = SystemExit 1) /\
  (forall r p',
     main_try env auth_manager client fuel script_dir now p = Abrupt r p' ->
     (forall code, r <> SystemExit code) -> r <> KeyboardInterrupt ->
     main_process env auth_manager client fuel script_dir now p =
     Abrupt (SystemExit 1)
       (mkProcess (logged [Print [Lit "An error occurred: "; error_text r]] (console p'))
                  (stdin p'))).
Proof.
  intros env auth_manager client fuel script_dir now_ p.
  assert (Habrupt : forall r p',
            main_process env auth_manager client fuel script_dir now_ p = Abrupt r p' ->
            r = SystemExit 0 \/ r = SystemExit 1).
  { intros r p' H. unfold main_process in H.
    destruct (main_try env auth_manager client fuel script_dir now_ p)
      as [a p1|r1 p1|] eqn:E; try discriminate H.
    destruct r1; simpl in H; injection H as <- _; auto.
    destruct (exits_main_try _ _ _ _ _ _ _ _ _ E) as [-> | ->]; auto. }
  split; [|split; [exact Habrupt|]].
  - destruct (main_process env auth_manager client fuel script_dir now_ p)
      as [a p1|r p1|] eqn:E; simpl; auto.
    destruct (Habrupt r p1 eq_refl) as [-> | ->]; auto.
  - intros r p' H Hexit Hint. unfold main_process. rewrite H.
    destruct r; try reflexivity.
    + now contradiction Hint.
    + now contradiction (Hexit code).
Qed.


(** ** Further properties: whole runs *)

Lemma pbind_normal : forall A B (m : P A) (k : A -> P B) p a p',
  m p = Normal a p' -> pbind m k p = k a p'.
Proof. intros A B m k p a p' H. unfold pbind. now rewrite H. Qed.

Lemma pbind_abrupt : forall A B (m : P A) (k : A -> P B) p r p',
  m p = Abrupt r p' -> pbind m k p = Abrupt r p'.
Proof. intros A B m k p r p' H. unfold pbind. now rewrite H. Qed.

Lemma say_run : forall msg w lines,
  say msg (mkProcess w lines) = Normal tt (mkProcess (logged [Print msg] w) lines).
Proof. reflexivity. Qed.

Lemma run_returns : forall A (m : M A) w lines a w',
  m w = Returns a w' -> run m (mkProcess w lines) = Normal a (mkProcess w' lines).
Proof. intros A m w lines a w' H. unfold run. simpl. now rewrite H. Qed.

Lemma reprompts_print : forall lines, Forall is_print (reprompts lines).
Proof.
  induction lines as [|line rest IH]; simpl; repeat constructor. exact IH.
Qed.

Lemma counted_showable : forall playlist,
  counted playlist -> named playlist -> showable playlist.
Proof.
  intros playlist [keep Hk] [name Hn]. unfold has_tracks in Hk.
  destruct (subscript playlist "tracks") as [tracks|] eqn:Ht; [|discriminate].
  simpl in Hk.
  destruct (subscript tracks "total") as [total|] eqn:Htot; [|discriminate].
  exists (PStr name), tracks, total. auto.
Qed.

Lemma listed_showable : forall sp fuel playlist_pages saved_pages,
  well_listed sp fuel playlist_pages saved_pages ->
  Forall showable (listed playlist_pages saved_pages).
Proof.
  intros sp fuel playlist_pages saved_pages (_ & _ & Hc & Hn & _ & _).
  assert (Hkept : Forall showable (filter total_positive (all_items playlist_pages))).
  { apply Forall_forall. intros playlist Hin. apply counted_showable.
    - apply filter_In in Hin. exact (proj1 (Forall_forall _ _) Hc _ (proj1 Hin)).
    - exact (proj1 (Forall_forall _ _) Hn _ Hin). }
  unfold listed, with_liked_songs.
  destruct (all_items saved_pages) as [|saved_track saved]; [exact Hkept|].
  apply Forall_app. split; [exact Hkept|].
  constructor; [|constructor].
  eexists _, _, _. repeat split; reflexivity.
Qed.

(** The start of every run that gets to the confirmation: the credentials
    are there, the cached token is valid and the server lists. *)
Lemma main_try_until_confirmation :
  forall env auth_manager sp fuel script_dir now playlist_pages saved_pages w lines,
  credentials_present env = true ->
  cached_token_valid auth_manager = Granted true ->
  well_listed sp fuel playlist_pages saved_pages ->
  exists playlists evs,
    Permutation playlists (listed playlist_pages saved_pages) /\
    Forall (fun ev => is_listing_call ev \/ is_print ev) evs /\
    main_try env auth_manager sp fuel script_dir now (mkProcess w lines) =
    pbind (confirm_playlists playlists)
      (fun confirmed =>
         (if negb confirmed
          then say [Lit "Operation cancelled by user. Exiting..."] ;;; sys_exit 0
          else pret tt) ;;;
         all_playlist_data <-- run (collect_playlists sp fuel playlists []) ;;
         say [Lit "Exporting all playlist data to JSON..."] ;;;
         run (save_playlists_to_json script_dir now all_playlist_data) ;;;
         say [Lit "Export completed successfully!"])
      (mkProcess (logged evs w) lines).
Proof.
  intros env auth_manager sp fuel script_dir now_ playlist_pages saved_pages w lines
         Hcred Hvalid Hlisted.
  set (w2 := logged [Print [Lit "Authentication successful. Fetching user playlists and saved tracks..."]]
                    (logged [Print [Lit "Starting Spotify authentication process..."]] w)).
  destruct (aggregator_returns sp fuel playlist_pages saved_pages w2 Hlisted)
    as (playlists & keys & Hrun & Hperm & _).
  pose proof (emits_aggregator sp fuel w2) as Hemits. rewrite Hrun in Hemits.
  destruct Hemits as (calls & Hw & Hcalls).
  exists playlists,
    (Print [Lit "Starting Spotify authentication process..."]
     :: Print [Lit "Authentication successful. Fetching user playlists and saved tracks..."]
     :: calls).
  split; [exact Hperm|]. split.
  - constructor; [right; exact I|]. constructor; [right; exact I|].
    eapply Forall_impl; [|exact Hcalls]. intros ev H. now left.
  - unfold main_try.
    rewrite (pbind_normal _ _ _ _ _ _ _ (say_run _ _ _)).
    assert (Hclient : get_spotify_client env auth_manager sp
                        (mkProcess (logged [Print [Lit "Starting Spotify authentication process..."]] w)
                                   lines) =
                      Normal sp
                        (mkProcess (logged [Print [Lit "Starting Spotify authentication process..."]] w)
                                   lines)).
    { unfold get_spotify_client. rewrite Hcred. simpl negb. cbv iota.
      unfold pbind. rewrite Hvalid. reflexivity. }
    rewrite (pbind_normal _ _ _ _ _ _ _ Hclient).
    rewrite (pbind_normal _ _ _ _ _ _ _ (say_run _ _ _)).
    fold w2. rewrite (pbind_normal _ _ _ _ _ _ _ (run_returns _ _ _ lines _ _ Hrun)).
    rewrite Hw. unfold w2. rewrite !logged_app. reflexivity.
Qed.

(** X19.  A run with credentials, a valid cached token and a server that
    lists, in which the operator answers n or no (after any number of
    unclear responses): the process ends with status 0, having only
    printed and called the two listings and [sp.next]; no directory or
    file is created and no playlist's tracks are fetched. *)
Theorem declined_process_exits_0 :
  forall env auth_manager sp fuel script_dir now playlist_pages saved_pages
         w invalid line rest,
  credentials_present env = true ->
  cached_token_valid auth_manager = Granted true ->
  well_listed sp fuel playlist_pages saved_pages ->
  Forall unclear invalid ->
  is_yes (normalise line) = false ->
  is_no (normalise line) = true ->
  exists evs,
    main_process env auth_manager sp fuel script_dir now
                 (mkProcess w (invalid ++ line :: rest)) =
    Abrupt (SystemExit 0) (mkProcess (logged evs w) rest) /\
    Forall (fun ev => is_listing_call ev \/ is_print ev) evs.
Proof.
  intros env auth_manager sp fuel script_dir now_ playlist_pages saved_pages
         w invalid line rest Hcred Hvalid Hlisted Hinvalid Hyes Hno.
  destruct (main_try_until_confirmation env auth_manager sp fuel script_dir now_
              playlist_pages saved_pages w (invalid ++ line :: rest)
              Hcred Hvalid Hlisted) as (playlists & evs & Hperm & Hevs & Htry).
  assert (Hshow : Forall showable playlists).
  { apply (Permutation_Forall (Permutation_sym Hperm)).
    exact (listed_showable _ _ _ _ Hlisted). }
  destruct (confirm_playlists_spec playlists invalid (logged evs w) Hshow Hinvalid)
    as (shown & _ & Hprint & _ & Hanswer & _).
  cbv zeta in Hanswer. specialize (Hanswer line rest Hyes Hno).
  eexists. split.
  - unfold main_process. rewrite Htry.
    rewrite (pbind_normal _ _ _ _ _ _ _ Hanswer). simpl negb. cbv iota.
    rewrite (pbind_abrupt _ _ _ _ _ (SystemExit 0) _
               (pbind_normal _ _ _ _ _ _ _ (say_run _ _ _))).
    simpl. rewrite !logged_app. reflexivity.
  - apply Forall_app. split; [exact Hevs|].
    apply Forall_app. split.
    + constructor; [right; exact I|].
      apply Forall_app. split; [|apply Forall_app; split].
      * eapply Forall_impl; [|exact Hprint]. intros ev H. now right.
      * eapply Forall_impl; [|apply reprompts_print]. intros ev H. now right.
      * constructor; [right; exact I | constructor].
    + constructor; [right; exact I | constructor].
Qed.


Lemma fetched_exists : forall sp fuel playlists,
  Forall (fun playlist => named playlist /\ ready sp fuel playlist) playlists ->
  exists fs,
    map playlist_of fs = playlists /\
    Forall (fetchable sp fuel) fs /\
    Forall (fun f => exportable (playlist_of f)) fs.
Proof.
  intros sp fuel playlists H.
  induction H as [|playlist rest [[name Hn] [Hx (id & tracks & Hid & Hserved)]] _
                   (fs & Hmap & Hfetch & Hexp)].
  - exists []. auto.
  - exists ((playlist, name, tracks) :: fs). simpl. rewrite Hmap.
    split; [reflexivity|]. split; constructor; try assumption.
    exists id. auto.
Qed.

Lemma listed_ready : forall sp fuel playlist_pages saved_pages,
  well_listed sp fuel playlist_pages saved_pages ->
  Forall (ready sp fuel) (filter total_positive (all_items playlist_pages)) ->
  Forall (fun playlist => named playlist /\ ready sp fuel playlist)
         (listed playlist_pages saved_pages).
Proof.
  intros sp fuel playlist_pages saved_pages (_ & _ & _ & Hn & Hs & Hsf) Hready.
  assert (Hkept : Forall (fun playlist => named playlist /\ ready sp fuel playlist)
                         (filter total_positive (all_items playlist_pages))).
  { apply Forall_forall. intros playlist Hin. split.
    - exact (proj1 (Forall_forall _ _) Hn _ Hin).
    - exact (proj1 (Forall_forall _ _) Hready _ Hin). }
  unfold listed, with_liked_songs.
  destruct (all_items saved_pages) as [|saved_track saved] eqn:E; [exact Hkept|].
  apply Forall_app. split; [exact Hkept|].
  constructor; [|constructor]. split; [apply liked_songs_named|]. split.
  - eexists. reflexivity.
  - exists "liked_songs", (saved_track :: saved). split; [reflexivity|].
    exists saved_pages. auto.
Qed.


Lemma save_writes : forall script_dir now playlists_data w full minimal w1,
  export_documents playlists_data (logged [MakeDirs (export_dir script_dir now)] w) =
  Returns (full, minimal) w1 ->
  exists w2,
    save_playlists_to_json script_dir now playlists_data w = Returns tt w2 /\
    In (WriteFile (path_join (export_dir script_dir now) "full_export.json")
                  (dumps 0 (export_data (export_date_full now) full)))
       (trace w2) /\
    In (WriteFile (path_join (export_dir script_dir now) "minimal_export.json")
                  (dumps 0 (export_data (export_date_minimal now) minimal)))
       (trace w2).
Proof.
  intros script_dir now_ playlists_data w full minimal w1 H.
  unfold save_playlists_to_json. fold (export_dir script_dir now_).
  unfold bind at 1. unfold emit at 1. unfold bind at 1.
  change (mkWorld (trace w ++ [MakeDirs (export_dir script_dir now_)]) (memo w))
    with (logged [MakeDirs (export_dir script_dir now_)] w).
  rewrite H. eexists. split; [reflexivity|].
  cbn [fst snd trace]. split.
  - do 4 (apply in_or_app; left). apply in_or_app. right. now left.
  - do 3 (apply in_or_app; left). apply in_or_app. right. now left.
Qed.

(** ** What [main] hands to the export, and what is written from it *)

Lemma dict_lookup_some_in : forall d k v,
  dict_lookup k d = Some v -> In (k, v) d.
Proof.
  induction d as [|[k0 v0] d IH]; intros k v H; simpl in H.
  - discriminate H.
  - destruct (k0 =? k)%string eqn:E.
    + apply String.eqb_eq in E. injection H as ->. subst k0. now left.
    + right. now apply IH.
Qed.

Lemma entries_of_names : forall kept, map fst (entries_of kept) = map name_of kept.
Proof.
  intros kept. unfold entries_of. rewrite map_map. reflexivity.
Qed.

Lemma entries_of_exist : forall (Q : fetched -> Prop) (d : pydict),
  Forall (fun entry =>
            exists f, Q f /\
              entry = (name_of f, entry_of (playlist_of f) (tracks_of f))) d ->
  exists kept, d = entries_of kept /\ Forall Q kept.
Proof.
  intros Q d H. induction H as [|entry d (f & Hf & ->) _ (kept & -> & Hkept)].
  - exists []. split; [reflexivity | constructor].
  - exists (f :: kept). split; [reflexivity | now constructor].
Qed.

Lemma keyed_kept : forall fs,
  exists kept,
    keyed fs [] = entries_of kept /\
    NoDup (map name_of kept) /\
    (forall f, In f kept <-> last_of_its_name fs f).
Proof.
  intros fs.
  assert (Hnd : NoDup (map fst (keyed fs []))) by (apply keyed_nodup; constructor).
  assert (Hentries :
    Forall (fun entry =>
              exists f, last_of_its_name fs f /\
                entry = (name_of f, entry_of (playlist_of f) (tracks_of f)))
           (keyed fs [])).
  { apply Forall_forall. intros [name playlist_data] Hin.
    assert (Hname : In name (map name_of fs)).
    { apply (in_map fst) in Hin. apply keyed_keys in Hin.
      destruct Hin as [[] | Hin]. exact Hin. }
    destruct (last_of_name _ _ Hname) as (before & f & after & -> & Hf & Hafter).
    subst name. exists f. split; [exists before, after; auto|].
    pose proof (dict_lookup_in _ _ _ Hnd Hin) as Hlook.
    rewrite (keyed_lookup_last before f after [] Hafter) in Hlook.
    congruence. }
  destruct (entries_of_exist _ _ Hentries) as (kept & Hkeyed & Hkept).
  exists kept. split; [exact Hkeyed|]. split.
  - rewrite <- entries_of_names, <- Hkeyed. exact Hnd.
  - intros f. split.
    + intros Hin. exact (proj1 (Forall_forall _ _) Hkept f Hin).
    + intros (before & after & -> & Hafter).
      pose proof (keyed_lookup_last before f after [] Hafter) as Hlook.
      apply dict_lookup_some_in in Hlook. rewrite Hkeyed in Hlook.
      unfold entries_of in Hlook. apply in_map_iff in Hlook.
      destruct Hlook as (g & Hg & Hin).
      assert (g = f) as <-; [|exact Hin].
      destruct g as [[pg ng] tg], f as [[pf nf] tf].
      unfold name_of, playlist_of, tracks_of, entry_of in Hg. simpl in Hg.
      congruence.
Qed.

Lemma export_entry_alone : forall playlist_name playlist_info tracks,
  exportable playlist_info ->
  subscript playlist_info "name" = Ok (PStr playlist_name) ->
  exists full_doc minimal_doc,
    forall docs w, exists w',
      export_entry playlist_name (entry_of playlist_info tracks) docs w =
      Returns (fst docs ++ [full_doc], snd docs ++ [minimal_doc]) w'.
Proof.
  intros playlist_name playlist_info tracks [full Hfull] Hname.
  destruct (full_playlist_named _ _ Hfull) as (Hnone & name & Hget & Hminimal & Hsub).
  destruct (event_only_export_tracks playlist_name tracks ([], []))
    as ([lists|e] & evs & Hrun).
  - exists (PDict (full ++ [("tracks", PList (fst lists))])),
           (PDict ([("name", name)] ++ [("tracks", PList (snd lists))])).
    intros docs w. eexists.
    unfold export_entry, entry_of, bind, logging, emit, get, get_default. simpl.
    rewrite Hnone, Hfull. simpl. rewrite Hminimal. simpl.
    rewrite Hrun. simpl. reflexivity.
  - destruct (export_tracks_returns playlist_name tracks ([], []) w0)
      as (lists' & w2 & Hret).
    rewrite Hrun in Hret. discriminate.
Qed.

Lemma export_entries_alone : forall kept docs w,
  Forall (fun f => exportable (playlist_of f) /\
                   subscript (playlist_of f) "name" = Ok (PStr (name_of f))) kept ->
  exists ds w',
    export_entries (entries_of kept) docs w =
    Returns (fst docs ++ map fst ds, snd docs ++ map snd ds) w' /\
    Forall2 exported_alone kept ds.
Proof.
  induction kept as [|f kept IH]; intros docs w Hall.
  - exists [], w. simpl. rewrite !app_nil_r. destruct docs.
    split; [reflexivity | constructor].
  - inversion Hall as [|? ? [Hx Hn] Hrest]; subst.
    destruct (export_entry_alone (name_of f) (playlist_of f) (tracks_of f) Hx Hn)
      as (full_doc & minimal_doc & Hentry).
    destruct (Hentry docs w) as (w1 & Hrun).
    destruct (IH (fst docs ++ [full_doc], snd docs ++ [minimal_doc]) w1 Hrest)
      as (ds & w2 & Hrun2 & Hds).
    exists ((full_doc, minimal_doc) :: ds), w2. split.
    + simpl. unfold bind. rewrite Hrun, Hrun2. simpl.
      now rewrite <- !app_assoc.
    + constructor; [|exact Hds].
      intros w'. destruct (Hentry ([], []) w') as (w'' & Halone).
      unfold export_documents, entries_of. simpl. unfold bind.
      rewrite Halone. reflexivity.
Qed.

(** C10.  [main] keys [all_playlist_data] by playlist name.  On a server
    that lists and whose kept playlists can be fetched and have well-typed
    metadata, the confirmed run of [main] returns after it has handed to
    [save_playlists_to_json] a mapping with one entry per distinct name:
    the entries are those of the playlists that are the last of their
    name in the sorted listing, each with its own metadata and tracks.
    Both files are written, and their sub-documents are, one for one, what
    the export builds from these playlists alone: an earlier playlist of
    the same name gives no sub-document and none of its tracks to either
    file. *)
Theorem main_keys_by_name :
  forall sp fuel script_dir now playlist_pages saved_pages w,
  well_listed sp fuel playlist_pages saved_pages ->
  memo_sound sp fuel (memo w) ->
  Forall (ready sp fuel) (filter total_positive (all_items playlist_pages)) ->
  exists fs kept docs w1 w2 w3,
    get_user_playlists_and_saved_tracks sp fuel
      (logged [Print [Lit "Authentication successful. Fetching user playlists and saved tracks..."]] w) =
    Returns (map playlist_of fs, all_items saved_pages) w1 /\
    Forall (fetchable sp fuel) fs /\
    collect_playlists sp fuel (map playlist_of fs) [] w1 =
    Returns (entries_of kept) w2 /\
    NoDup (map name_of kept) /\
    (forall f, In f kept <-> last_of_its_name fs f) /\
    save_playlists_to_json script_dir now (entries_of kept)
      (logged [Print [Lit "Exporting all playlist data to JSON..."]] w2) =
    Returns tt w3 /\
    Forall2 exported_alone kept docs /\
    In (WriteFile (path_join (export_dir script_dir now) "full_export.json")
                  (dumps 0 (export_data (export_date_full now) (map fst docs))))
       (trace w3) /\
    In (WriteFile (path_join (export_dir script_dir now) "minimal_export.json")
                  (dumps 0 (export_data (export_date_minimal now) (map snd docs))))
       (trace w3) /\
    main sp fuel script_dir now true w =
    Returns true (logged [Print [Lit "Export completed successfully!"]] w3).
Proof.
  intros sp fuel script_dir now_ playlist_pages saved_pages w Hlisted Hsound Hready.
  set (w0' := logged [Print [Lit "Authentication successful. Fetching user playlists and saved tracks..."]] w).
  destruct (aggregator_returns sp fuel playlist_pages saved_pages w0' Hlisted)
    as (playlists & keys & Hrun & Hperm & _ & _).
  destruct (fetched_exists sp fuel playlists
              (Permutation_Forall (Permutation_sym Hperm)
                 (listed_ready _ _ _ _ Hlisted Hready)))
    as (fs & Hmap & Hfetch & Hexp).
  subst playlists.
  set (w1 := called (CurrentUserPlaylists :: next_calls playlist_pages
                     ++ CurrentUserSavedTracks :: next_calls saved_pages) w0') in *.
  destruct (collect_playlists_run sp fuel fs [] w1 Hsound Hfetch)
    as (w2 & Hcollect & _).
  destruct (keyed_kept fs) as (kept & Hkeyed & Hnodup & Hkept).
  rewrite Hkeyed in Hcollect.
  assert (Hall : Forall (fun f => exportable (playlist_of f) /\
                   subscript (playlist_of f) "name" = Ok (PStr (name_of f))) kept).
  { apply Forall_forall. intros f Hin. apply Hkept in Hin.
    destruct Hin as (before & after & E & _).
    assert (Hf : In f fs) by (rewrite E; apply in_elt).
    split.
    - exact (proj1 (Forall_forall _ _) Hexp f Hf).
    - destruct (proj1 (Forall_forall _ _) Hfetch f Hf) as (id & Hname & _).
      exact Hname. }
  set (w2' := logged [Print [Lit "Exporting all playlist data to JSON..."]] w2).
  destruct (export_entries_alone kept ([], [])
              (logged [MakeDirs (export_dir script_dir now_)] w2') Hall)
    as (ds & w3 & Hexport & Hds).
  destruct (save_writes script_dir now_ (entries_of kept) w2' (map fst ds) (map snd ds)
              w3 Hexport)
    as (w4 & Hsave & Hfile_full & Hfile_minimal).
  exists fs, kept, ds, w1, w2, w4.
  repeat (split; [assumption|]).
  unfold main, bind, print. unfold emit at 1.
  change (mkWorld (trace w ++ [Print [Lit "Authentication successful. Fetching user playlists and saved tracks..."]]) (memo w))
    with w0'.
  rewrite Hrun. cbn [negb fst]. rewrite Hcollect.
  unfold emit at 1.
  change (mkWorld (trace w2 ++ [Print [Lit "Exporting all playlist data to JSON..."]]) (memo w2))
    with w2'.
  rewrite Hsave. reflexivity.
Qed.



(** ** Further properties: the strings of the export files *)

Lemma unescape_escape_char : forall c rest,
  unescape_head (escape_char c ++ rest) = Some (c, rest).
Proof.
  intros [[|] [|] [|] [|] [|] [|] [|] [|]] rest; reflexivity.
Qed.

Lemma escape_injective : forall s1 s2, escape s1 = escape s2 -> s1 = s2.
Proof.
  induction s1 as [|c1 s1 IH]; intros [|c2 s2] H; simpl in H.
  - reflexivity.
  - apply (f_equal unescape_head) in H.
    rewrite unescape_escape_char in H. discriminate H.
  - apply (f_equal unescape_head) in H.
    rewrite unescape_escape_char in H. discriminate H.
  - apply (f_equal unescape_head) in H.
    rewrite !unescape_escape_char in H. injection H as -> H.
    now rewrite (IH _ H).
Qed.

Lemma list_of_append : forall a b : string,
  list_ascii_of_string (a ++ b) = list_ascii_of_string a ++ list_ascii_of_string b.
Proof.
  induction a as [|c a IH]; intros b; simpl; [reflexivity | now rewrite IH].
Qed.

Lemma append_inv_tail : forall a b c : string, (a ++ c = b ++ c)%string -> a = b.
Proof.
  intros a b c H. apply (f_equal list_ascii_of_string) in H.
  rewrite !list_of_append in H. apply app_inv_tail in H.
  rewrite <- (string_of_list_ascii_of_string a), <- (string_of_list_ascii_of_string b).
  now rewrite H.
Qed.

Lemma escape_char_printable : forall c,
  Forall (fun x => (32 <=? nat_of_ascii x)%nat = true)
         (list_ascii_of_string (escape_char c)).
Proof.
  intros c. apply Forall_forall. apply forallb_forall.
  destruct c as [[|] [|] [|] [|] [|] [|] [|] [|]]; reflexivity.
Qed.

Lemma escape_printable : forall s,
  Forall (fun x => (32 <=? nat_of_ascii x)%nat = true)
         (list_ascii_of_string (escape s)).
Proof.
  induction s as [|c s IH]; simpl; [constructor|].
  rewrite list_of_append. apply Forall_app. split; [apply escape_char_printable | exact IH].
Qed.

Lemma escape_char_plain : forall c,
  plain c -> escape_char c = String c "".
Proof.
  intros c (H32 & Hq & Hb).
  destruct c as [[|] [|] [|] [|] [|] [|] [|] [|]];
    try reflexivity;
    try (vm_compute in H32; discriminate H32);
    try (exfalso; apply Hq; reflexivity);
    exfalso; apply Hb; reflexivity.
Qed.

Lemma escape_plain : forall s,
  Forall plain (list_ascii_of_string s) -> escape s = s.
Proof.
  induction s as [|c s IH]; intros H; simpl in *; [reflexivity|].
  inversion H as [|? ? Hc Hs]; subst.
  now rewrite (escape_char_plain c Hc), (IH Hs).
Qed.

(** X21.  The strings of the export files are written without loss: two
    strings with the same JSON text are the same string.  The JSON text of
    a string holds no character below U+0020, hence no line feed, no
    carriage return and no tab, whatever the string (a track name with a
    line feed, say).  The characters from U+0020 on other than the quote
    and the backslash are not escaped: a string of such characters is
    written as it is between two quotes, DEL and U+0085 included. *)
Theorem strings_written_without_loss : forall s1 s2,
  (encode_basestring s1 = encode_basestring s2 -> s1 = s2) /\
  Forall (fun c => (32 <=? nat_of_ascii c)%nat = true)
         (list_ascii_of_string (encode_basestring s1)) /\
  (Forall plain (list_ascii_of_string s1) ->
   encode_basestring s1 = (String dquote s1 ++ String dquote "")%string).
Proof.
  intros s1 s2. split; [|split].
  - unfold encode_basestring. simpl. intros H. injection H as H.
    apply append_inv_tail in H. now apply escape_injective.
  - unfold encode_basestring. simpl. constructor; [reflexivity|].
    rewrite list_of_append. apply Forall_app. split; [apply escape_printable|].
    repeat constructor.
  - intros H. unfold encode_basestring. now rewrite (escape_plain s1 H).
Qed.


(** ** The sort keys and the names *)

Lemma name_keys_lowered : forall playlists keys,
  mapM name_key playlists = Ok keys ->
  exists names, named_by playlists names /\ keys = map str_lower names.
Proof.
  induction playlists as [|playlist rest IH]; intros keys H; simpl in H.
  - injection H as <-. exists []. split; [constructor | reflexivity].
  - unfold name_key at 1 in H.
    destruct (subscript playlist "name") as [name|e] eqn:Hname; [|discriminate H].
    destruct name as [| | |name| |]; try discriminate H. simpl in H.
    destruct (mapM name_key rest) as [ks|e] eqn:Hrest; [|discriminate H].
    simpl in H. injection H as <-.
    destruct (IH ks eq_refl) as (names & Hnames & ->).
    exists (name :: names). split; [now constructor | reflexivity].
Qed.

Lemma sorted_by_key : forall (key : string -> string) names,
  StronglySorted (fun a b => String.leb a b = true) (map key names) ->
  StronglySorted (fun a b => String.leb (key a) (key b) = true) names.
Proof.
  intros key names. induction names as [|name rest IH]; intros H; simpl in H.
  - constructor.
  - inversion H as [|? ? Hrest Hhead]; subst. constructor; [now apply IH|].
    now apply Forall_map in Hhead.
Qed.

Lemma sorted_caseless : forall names,
  Forall lowered_as_ascii names ->
  StronglySorted (fun a b => String.leb (str_lower a) (str_lower b) = true) names ->
  StronglySorted caseless_le names.
Proof.
  intros names Hlow H. induction H as [|name rest Hrest IH Hhead].
  - constructor.
  - inversion Hlow as [|? ? Hname Hothers]; subst.
    constructor; [now apply IH|].
    apply Forall_forall. intros other Hin.
    unfold caseless_le.
    rewrite <- Hname, <- (proj1 (Forall_forall _ _) Hothers other Hin).
    exact (proj1 (Forall_forall _ _) Hhead other Hin).
Qed.

End Runtime.

Arguments Normal {A} a p.
Arguments Abrupt {A} r p.
Arguments Unfinished {A}.
Arguments Granted {A} a.
Arguments Refused {A} message.

(** ** Sorting by name, and the claims on concrete runs *)

(** C7.  The playlists that the aggregator returns are the kept playlists
    (with "Liked Songs", if any track is saved) sorted by name, ascending
    and without regard to case: the lower-cased names [str.lower] of the
    returned playlists ascend in the order of [str], so that wherever the
    runtime lower-cases the names as ASCII text is lower-cased, each name
    is no later than the names after it in the order that ignores case.
    The names "b", "A", "c" come out as "A", "b", "c", and the names "b",
    "A", "C" as "A", "b", "C", where the order of [str] itself has "C"
    before "b". *)
Theorem playlists_sorted_by_name :
  (forall str_lower sp fuel playlist_pages saved_pages w,
     well_listed sp fuel playlist_pages saved_pages ->
     exists playlists names w',
       get_user_playlists_and_saved_tracks str_lower sp fuel w =
       Returns (playlists, all_items saved_pages) w' /\
       Permutation playlists (listed playlist_pages saved_pages) /\
       named_by playlists names /\
       StronglySorted (fun a b => String.leb (str_lower a) (str_lower b) = true) names /\
       (Forall (lowered_as_ascii str_lower) names ->
        StronglySorted caseless_le names)) /\
  (exists w',
     get_user_playlists_and_saved_tracks ascii_lower names_sp 1 w0 =
     Returns ([playlist "n2" "A" 1; playlist "n1" "b" 1; playlist "n3" "c" 1], []) w') /\
  (exists w',
     get_user_playlists_and_saved_tracks ascii_lower mixed_case_sp 1 w0 =
     Returns ([playlist "m2" "A" 1; playlist "m1" "b" 1; playlist "m3" "C" 1], []) w') /\
  String.leb "C" "b" = true /\ ~ caseless_le "C" "b".
Proof.
  split; [|split; [|split; [|split]]].
  - intros str_lower sp fuel playlist_pages saved_pages w H.
    destruct (aggregator_returns str_lower sp fuel playlist_pages saved_pages w H)
      as (playlists & keys & Hrun & Hperm & Hkeys & Hsorted).
    destruct (name_keys_lowered str_lower playlists keys Hkeys) as (names & Hnames & ->).
    apply sorted_by_key in Hsorted.
    exists playlists, names. eexists.
    split; [exact Hrun|]. split; [exact Hperm|]. split; [exact Hnames|].
    split; [exact Hsorted|].
    intros Hlow. exact (sorted_caseless str_lower names Hlow Hsorted).
  - eexists. vm_compute. reflexivity.
  - eexists. vm_compute. reflexivity.
  - reflexivity.
  - discriminate.
Qed.

Ltac by_evaluation :=
  vm_compute; repeat split; try reflexivity; try discriminate.

Lemma demo_well_listed :
  well_listed demo_sp 2 [playlists_page1; playlists_page2] [saved_page1; saved_page2].
Proof.
  unfold well_listed. repeat split; try (simpl; lia).
  - repeat constructor; eexists; reflexivity.
  - repeat constructor; eexists; reflexivity.
Defined.

Lemma empty_memo_sound : forall sp fuel, memo_sound sp fuel (memo w0).
Proof. intros sp fuel playlist_id tracks H. discriminate H. Defined.

Lemma paginated_fetch_concatenates_witness :
  (serves demo_sp (current_user_saved_tracks demo_sp) [saved_page1; saved_page2] /\
   get_saved_tracks demo_sp 2 w0 =
   Returns [track "S1" "x"; track "S2" "y"]
           (called [CurrentUserSavedTracks; Next saved_page1] w0)) /\
  (serves demo_sp (playlist_tracks demo_sp "p1") [p1_page1; p1_page2] /\
   get_playlist_tracks demo_sp 2 "p1" w0 =
   Returns [track "T1" "x"; track "T2" "y"; track "T3" "z"]
           (mkWorld (map Api [PlaylistTracks "p1"; Next p1_page1])
                    [("p1", [track "T1" "x"; track "T2" "y"; track "T3" "z"])])) /\
  (serves demo_sp (current_user_playlists demo_sp) [playlists_page1; playlists_page2] /\
   get_user_playlists demo_sp 2 w0 =
   Returns [playlist "p1" "Mix" 3; playlist "p3" "Rock" 2; playlist "p5" "Mix" 1]
           (called [CurrentUserPlaylists; Next playlists_page1] w0)).
Proof.
  destruct (paginated_fetch_concatenates demo_sp 2 w0) as (Hsaved & Htracks & Hplaylists).
  assert (Hs : serves demo_sp (current_user_saved_tracks demo_sp)
                      [saved_page1; saved_page2]) by (simpl; repeat split; reflexivity).
  assert (Ht : serves demo_sp (playlist_tracks demo_sp "p1") [p1_page1; p1_page2])
    by (simpl; repeat split; reflexivity).
  assert (Hp : serves demo_sp (current_user_playlists demo_sp)
                      [playlists_page1; playlists_page2])
    by (simpl; repeat split; reflexivity).
  split; [|split]; (split; [assumption|]).
  - exact (Hsaved _ Hs (le_n 2)).
  - exact (Htracks "p1" _ eq_refl eq_refl Ht (le_n 2)).
  - apply (Hplaylists _ Hp (le_n 2)).
    repeat constructor; eexists; reflexivity.
Defined.

(** C1, as stated, fails on the playlist listing: the listing of a server
    with an empty playlist is not the concatenation of the pages' items. *)
Lemma playlist_listing_drops_empty_playlists :
  serves demo_sp (current_user_playlists demo_sp) [playlists_page1; playlists_page2] /\
  result (get_user_playlists demo_sp 2 w0) =
  Some (Ok [playlist "p1" "Mix" 3; playlist "p3" "Rock" 2; playlist "p5" "Mix" 1]) /\
  result (get_user_playlists demo_sp 2 w0) <>
  Some (Ok (all_items [playlists_page1; playlists_page2])).
Proof. by_evaluation. Qed.



Lemma export_passes_over_null_metadata_witness :
  null_metadata (PDict [("playlist_info", PNone); ("tracks", PList [])]) /\
  (exists warning,
     export_entry repr_scalar "Gone" (PDict [("playlist_info", PNone); ("tracks", PList [])])
                  ([], []) w0 =
     Returns ([], [])
       (logged [Log INFO [Lit "Processing playlist: "; Fmt (PStr "Gone")];
                Log WARNING [Lit warning; Fmt (PStr "Gone")]] w0)) /\
  result (export_entries repr_scalar null_info_data ([], []) w0) =
  result (export_entries repr_scalar (tl null_info_data) ([], []) w0) /\
  export_entry repr_scalar "Mix"
    (PDict [("playlist_info", playlist "p1" "Mix" 3); ("tracks", PNone)]) ([], []) w0 =
  Returns ([PDict [("id", PStr "p1"); ("name", PStr "Mix"); ("description", PStr "");
                   ("owner", PStr "You"); ("tracks_count", PInt 3);
                   ("tracks", PList [])]],
           [PDict [("name", PStr "Mix"); ("tracks", PList [])]])
    (logged [Log INFO [Lit "Processing playlist: "; Fmt (PStr "Mix")];
             Log WARNING [Lit "Tracks is None for "; Fmt (PStr "Mix")]] w0).
Proof.
  assert (Hnull : null_metadata (PDict [("playlist_info", PNone); ("tracks", PList [])])).
  { right. eexists. split; [reflexivity|]. right. reflexivity. }
  split; [exact Hnull|]. split; [|split].
  - exact (proj1 (export_passes_over_null_metadata repr_scalar "Gone" _ ([], []) w0) Hnull).
  - exact (proj1 (proj2 (export_passes_over_null_metadata repr_scalar "Gone" _ ([], []) w0))
                 Hnull [] (tl null_info_data) ([], [])).
  - exact (proj2 (proj2 (export_passes_over_null_metadata repr_scalar "Mix"
                           (PDict [("playlist_info", playlist "p1" "Mix" 3); ("tracks", PNone)])
                           ([], []) w0))
                 _ (playlist "p1" "Mix" 3) _ _ eq_refl eq_refl eq_refl eq_refl eq_refl).
Defined.

(** C3, as stated, fails for a null track list: the entry is exported, to
    both documents, with an empty track list. *)
Lemma null_track_list_is_exported :
  dict_lookup "tracks" [("playlist_info", playlist "p1" "Mix" 3); ("tracks", PNone)]
  = Some PNone /\
  result (export_documents repr_scalar null_tracks_data w0) =
  Some (Ok ([PDict [("id", PStr "p1"); ("name", PStr "Mix"); ("description", PStr "");
                    ("owner", PStr "You"); ("tracks_count", PInt 3);
                    ("tracks", PList [])]],
            [PDict [("name", PStr "Mix"); ("tracks", PList [])]])).
Proof. by_evaluation. Qed.

Lemma liked_songs_id_lists_saved_tracks_witness :
  memo_sound demo_sp 2 (memo w0) /\
  (exists calls table,
     get_playlist_tracks demo_sp 2 "liked_songs" w0 =
     Returns (all_items [saved_page1; saved_page2])
             (mkWorld (trace w0 ++ map Api calls) table) /\
     result (get_playlist_tracks demo_sp 2 "liked_songs" w0) =
     result (get_saved_tracks demo_sp 2 w0) /\
     (calls = [] \/ calls = CurrentUserSavedTracks :: next_calls [saved_page1; saved_page2])) /\
  (exists calls table,
     get_playlist_tracks demo_sp 2 "p1" w0 =
     Returns (all_items [p1_page1; p1_page2])
             (mkWorld (trace w0 ++ map Api calls) table) /\
     (calls = [] \/ calls = PlaylistTracks "p1" :: next_calls [p1_page1; p1_page2])).
Proof.
  pose proof (empty_memo_sound demo_sp 2) as Hsound.
  destruct (liked_songs_id_lists_saved_tracks demo_sp 2 w0 Hsound) as (Hliked & Hother).
  split; [exact Hsound|]. split.
  - apply Hliked; [simpl; repeat split; reflexivity | simpl; lia].
  - apply Hother; [discriminate | simpl; repeat split; reflexivity | simpl; lia].
Defined.

Lemma liked_songs_appended_iff_saved_witness :
  well_listed demo_sp 2 [playlists_page1; playlists_page2] [saved_page1; saved_page2] /\
  exists playlists w',
    get_user_playlists_and_saved_tracks ascii_lower demo_sp 2 w0 =
    Returns (playlists, [track "S1" "x"; track "S2" "y"]) w' /\
    In (liked_songs_playlist [track "S1" "x"; track "S2" "y"]) playlists.
Proof.
  split; [exact demo_well_listed|].
  destruct (liked_songs_appended_iff_saved ascii_lower demo_sp 2 _ _ w0 demo_well_listed)
    as (playlists & w' & Hrun & _ & Hsome & _).
  exists playlists, w'. split; [exact Hrun|].
  apply (Permutation_in _ (Permutation_sym (Hsome ltac:(discriminate)))).
  apply in_or_app. right. left. reflexivity.
Defined.

Lemma empty_playlists_excluded_witness :
  well_listed demo_sp 2 [playlists_page1; playlists_page2] [saved_page1; saved_page2] /\
  exists playlists w',
    get_user_playlists_and_saved_tracks ascii_lower demo_sp 2 w0 =
    Returns (playlists, [track "S1" "x"; track "S2" "y"]) w' /\
    ~ In (playlist "p2" "Jazz" 0) playlists /\
    In (playlist "p3" "Rock" 2) playlists.
Proof.
  split; [exact demo_well_listed|].
  destruct (empty_playlists_excluded ascii_lower demo_sp 2 _ _ w0 demo_well_listed)
    as (playlists & w' & Hrun & Hzero & Hkept).
  exists playlists, w'. split; [exact Hrun|]. split.
  - apply (Hzero _ (PDict [("total", PInt 0)])); reflexivity.
  - apply (Hkept _ (PDict [("total", PInt 2)]) 2%Z); try reflexivity; [|lia].
    simpl. auto 10.
Defined.

Lemma mixed_case_well_listed :
  well_listed mixed_case_sp 1 [mixed_case_page] [mkPage [] None].
Proof.
  unfold well_listed. repeat split; try (simpl; lia).
  - repeat constructor; eexists; reflexivity.
  - repeat constructor; eexists; reflexivity.
Defined.

Lemma playlists_sorted_by_name_witness :
  well_listed mixed_case_sp 1 [mixed_case_page] [mkPage [] None] /\
  Forall (lowered_as_ascii ascii_lower) ["A"; "b"; "C"] /\
  exists w',
    get_user_playlists_and_saved_tracks ascii_lower mixed_case_sp 1 w0 =
    Returns ([playlist "m2" "A" 1; playlist "m1" "b" 1; playlist "m3" "C" 1], []) w' /\
    named_by [playlist "m2" "A" 1; playlist "m1" "b" 1; playlist "m3" "C" 1]
             ["A"; "b"; "C"] /\
    StronglySorted caseless_le ["A"; "b"; "C"].
Proof.
  split; [exact mixed_case_well_listed|].
  assert (Hlow : Forall (lowered_as_ascii ascii_lower) ["A"; "b"; "C"])
    by (repeat constructor).
  split; [exact Hlow|].
  destruct (proj1 playlists_sorted_by_name ascii_lower mixed_case_sp 1 _ _ w0
              mixed_case_well_listed)
    as (playlists & names & w' & Hrun & _ & Hnames & _ & Hcaseless).
  assert (Hp : playlists =
               [playlist "m2" "A" 1; playlist "m1" "b" 1; playlist "m3" "C" 1])
    by (pose proof Hrun as H; vm_compute in H; injection H as H _;
        rewrite <- H; reflexivity).
  subst playlists.
  assert (Hn : names = ["A"; "b"; "C"]).
  { inversion Hnames as [|? n1 ? l1 H1 T1]; subst.
    inversion T1 as [|? n2 ? l2 H2 T2]; subst.
    inversion T2 as [|? n3 ? l3 H3 T3]; subst.
    inversion T3; subst.
    vm_compute in H1, H2, H3. congruence. }
  subst names.
  exists w'. split; [exact Hrun|]. split; [exact Hnames|].
  exact (Hcaseless Hlow).
Defined.

Lemma exported_names_copied_witness :
  exists full minimal w',
    export_documents repr_scalar null_info_data w0 = Returns (full, minimal) w' /\
    Forall nonempty_name full /\ Forall nonempty_name minimal.
Proof.
  destruct (export_documents repr_scalar null_info_data w0)
    as [[full minimal] w'|e w'|] eqn:Hrun;
    [|vm_compute in Hrun; discriminate Hrun|vm_compute in Hrun; discriminate Hrun].
  exists full, minimal, w'. split; [reflexivity|].
  apply (proj2 (exported_names_copied repr_scalar null_info_data w0 full minimal w' Hrun)).
  intros playlist_name playlist_data playlist_info [Hin|[Hin|[]]] Hget;
    injection Hin as <- <-; injection Hget as <-.
  - left. reflexivity.
  - right. exists "Rock". split; [reflexivity | discriminate].
Defined.

(** C8, as stated, fails: the export accepts a mapping whose metadata has
    an empty name and gives that name to both sub-documents. *)
Lemma empty_name_is_exported :
  result (export_documents repr_scalar unnamed_data w0) =
  Some (Ok ([PDict [("id", PStr "p9"); ("name", PStr ""); ("description", PStr "");
                    ("owner", PStr "You"); ("tracks_count", PInt 1);
                    ("tracks",
                     PList [PDict [("id", PStr "T1");
                                   ("name", PStr "T1");
                                   ("artists", PList [PStr "x"]);
                                   ("album", PStr "");
                                   ("duration_ms", PInt 0);
                                   ("added_at", PStr "2024-05-01T10:00:00Z");
                                   ("uri", PStr "");
                                   ("external_url", PStr "")]])]],
            [PDict [("name", PStr ""); ("tracks", PList [PStr "T1 - [x]"])]])) /\
  ~ nonempty_name (PDict [("name", PStr ""); ("tracks", PList [PStr "T1 - [x]"])]).
Proof.
  split; [vm_compute; reflexivity|].
  intros (name & Hname & Hne). injection Hname as <-. now apply Hne.
Qed.

Lemma demo_fetchable : Forall (fetchable demo_sp 2) demo_fetched.
Proof.
  constructor; [|constructor; [|constructor]].
  - exists "p1". split; [reflexivity|]. split; [reflexivity|].
    exists [p1_page1; p1_page2].
    split; [simpl; lia|]. split; [simpl; repeat split; reflexivity | reflexivity].
  - exists "p5". split; [reflexivity|]. split; [reflexivity|].
    exists [p5_page].
    split; [simpl; lia|]. split; [simpl; repeat split; reflexivity | reflexivity].
Defined.

(** The scenario "Rock (2 tracks), Jazz (0 tracks), one saved track" lists
    "Liked Songs" then "Rock". *)
Example scenario_listing :
  result (get_user_playlists_and_saved_tracks ascii_lower scenario_sp 1 w0) =
  Some (Ok ([liked_songs_playlist [track "S1" "x"]; playlist "r" "Rock" 2],
            [track "S1" "x"])).
Proof. vm_compute. reflexivity. Qed.

(** A whole run on [demo_sp], where two playlists are named "Mix": the
    minimal file has one "Mix" playlist, with the track of the later one. *)
Example main_exports_one_playlist_per_name :
  exists w',
    main ascii_lower repr_scalar demo_sp 2 "" demo_clock true w0 = Returns true w' /\
    In (WriteFile "output/spotify_export_2024_05_01_10_00_00/minimal_export.json"
          (dumps 0
             (export_data "2024-05-01T10:00:00.000200"
                [PDict [("name", PStr "Liked Songs");
                        ("tracks", PList [PStr "S1 - [x]"; PStr "S2 - [y]"])];
                 PDict [("name", PStr "Mix");
                        ("tracks", PList [PStr "U1 - [u]"])];
                 PDict [("name", PStr "Rock");
                        ("tracks", PList [])]])))
       (trace w').
Proof.
  eexists. split; [vm_compute; reflexivity|].
  vm_compute. auto 30.
Qed.


(** ** The further properties on concrete runs *)

Lemma saved_tracks_walk_witness :
  walks dangling_sp (current_user_saved_tracks dangling_sp) [dangling_page] /\
  get_saved_tracks dangling_sp 1 w0 =
  Returns [track "S1" "x"] (called [CurrentUserSavedTracks; Next dangling_page] w0) /\
  exists pages,
    walks dangling_sp (current_user_saved_tracks dangling_sp) pages /\
    List.length pages <= 1 /\
    [track "S1" "x"] = all_items pages /\
    called [CurrentUserSavedTracks; Next dangling_page] w0 =
    called (CurrentUserSavedTracks :: cursor_calls pages) w0.
Proof.
  destruct (saved_tracks_walk dangling_sp 1 w0) as (Hforward & Hback).
  assert (Hw : walks dangling_sp (current_user_saved_tracks dangling_sp) [dangling_page])
    by (simpl; split; [reflexivity | right; reflexivity]).
  pose proof (Hforward [dangling_page] Hw (le_n 1)) as Hrun.
  split; [exact Hw|]. split; [exact Hrun|].
  exact (Hback _ _ Hrun).
Defined.

Lemma circular_endless : endless circular_sp.
Proof. intros page H. exists circular_page. split; reflexivity. Defined.

Lemma endless_listing_never_returns_witness :
  endless circular_sp /\
  get_saved_tracks circular_sp 1000 w0 = OutOfFuel /\
  get_playlist_tracks circular_sp 1000 "p1" w0 = OutOfFuel.
Proof.
  destruct (endless_listing_never_returns circular_sp 1000 w0 circular_endless)
    as (Hsaved & Htracks).
  split; [exact circular_endless|]. split.
  - exact (Hsaved circular_page eq_refl eq_refl).
  - exact (Htracks "p1" circular_page eq_refl eq_refl eq_refl).
Defined.

Lemma playlist_tracks_fetched_once_witness :
  exists w1 w2,
    get_playlist_tracks demo_sp 2 "p1" w0 =
    Returns [track "T1" "x"; track "T2" "y"; track "T3" "z"] w1 /\
    get_playlist_tracks demo_sp 2 "p5" w1 = Returns [track "U1" "u"] w2 /\
    get_playlist_tracks demo_sp 0 "p1" w1 =
    Returns [track "T1" "x"; track "T2" "y"; track "T3" "z"] w1 /\
    get_playlist_tracks demo_sp 0 "p1" w2 =
    Returns [track "T1" "x"; track "T2" "y"; track "T3" "z"] w2.
Proof.
  eexists. eexists.
  assert (H1 : get_playlist_tracks demo_sp 2 "p1" w0 =
               Returns [track "T1" "x"; track "T2" "y"; track "T3" "z"]
                 (mkWorld (map Api [PlaylistTracks "p1"; Next p1_page1])
                          [("p1", [track "T1" "x"; track "T2" "y"; track "T3" "z"])]))
    by reflexivity.
  assert (H2 : get_playlist_tracks demo_sp 2 "p5"
                 (mkWorld (map Api [PlaylistTracks "p1"; Next p1_page1])
                          [("p1", [track "T1" "x"; track "T2" "y"; track "T3" "z"])]) =
               Returns [track "U1" "u"]
                 (mkWorld (map Api [PlaylistTracks "p1"; Next p1_page1; PlaylistTracks "p5"])
                          [("p5", [track "U1" "u"]);
                           ("p1", [track "T1" "x"; track "T2" "y"; track "T3" "z"])]))
    by reflexivity.
  split; [exact H1|]. split; [exact H2|].
  exact (playlist_tracks_fetched_once demo_sp 2 2 0 "p1" "p5" _ _ _ _ _ H1 H2).
Defined.

Lemma listing_raises_on_malformed_playlist_witness :
  serves null_item_sp (current_user_playlists null_item_sp)
         ([null_item_page1] ++ null_item_page2 :: []) /\
  has_tracks PNone = Err TypeError /\
  get_user_playlists_and_saved_tracks ascii_lower null_item_sp 2 w0 =
  Raises TypeError (called [CurrentUserPlaylists; Next null_item_page1] w0).
Proof.
  assert (Hs : serves null_item_sp (current_user_playlists null_item_sp)
                      ([null_item_page1] ++ null_item_page2 :: []))
    by (simpl; repeat split; reflexivity).
  split; [exact Hs|]. split; [reflexivity|].
  refine (listing_raises_on_malformed_playlist ascii_lower null_item_sp 2
            [null_item_page1] null_item_page2 [] [playlist "p3" "Rock" 2] PNone
            [playlist "p5" "Mix" 1] TypeError w0 Hs (le_n 2) _ eq_refl _ eq_refl).
  - repeat constructor. eexists. reflexivity.
  - repeat constructor. eexists. reflexivity.
Defined.

Lemma same_name_playlists_keep_order_witness :
  well_listed demo_sp 2 [playlists_page1; playlists_page2] [saved_page1; saved_page2] /\
  exists playlists w',
    get_user_playlists_and_saved_tracks ascii_lower demo_sp 2 w0 =
    Returns (playlists, [track "S1" "x"; track "S2" "y"]) w' /\
    filter (has_key (name_key ascii_lower) "mix") playlists =
    [playlist "p1" "Mix" 3; playlist "p5" "Mix" 1].
Proof.
  split; [exact demo_well_listed|].
  destruct (same_name_playlists_keep_order ascii_lower demo_sp 2 _ _ w0 demo_well_listed)
    as (playlists & w' & Hrun & Horder).
  exists playlists, w'. split; [exact Hrun|].
  exact (Horder "mix").
Defined.

Lemma format_track_data_schema_witness :
  format_track_data (track "T1" "x") w0 =
  Returns (projected [("added_at", PStr "2024-05-01T10:00:00Z")]
                     [("id", PStr "T1"); ("name", PStr "T1");
                      ("artists", PList [PDict [("name", PStr "x")]])]
                     [PDict [("name", PStr "x")]]) w0 /\
  formatted_track (projected [("added_at", PStr "2024-05-01T10:00:00Z")]
                     [("id", PStr "T1"); ("name", PStr "T1");
                      ("artists", PList [PDict [("name", PStr "x")]])]
                     [PDict [("name", PStr "x")]]).
Proof.
  assert (H : format_track_data (track "T1" "x") w0 =
              Returns (projected [("added_at", PStr "2024-05-01T10:00:00Z")]
                         [("id", PStr "T1"); ("name", PStr "T1");
                          ("artists", PList [PDict [("name", PStr "x")]])]
                         [PDict [("name", PStr "x")]]) w0) by reflexivity.
  split; [exact H|].
  destruct (format_track_data_schema _ _ _ _ H) as [(E & _) | (Hf & _)].
  - discriminate E.
  - exact Hf.
Defined.

Lemma invalid_track_leaves_empty_record_witness :
  is_none (PStr "T1") = false /\
  isinstance_dict (PStr "T1") = false /\
  export_track repr_scalar "Mix" (PStr "T1") ([], []) w0 =
  Returns ([PDict []], [])
    (logged [Log ERROR [Lit "Invalid track data: "; Fmt (PStr "T1")];
             Log ERROR [Lit "Error formatting track in "; Fmt (PStr "Mix");
                        Lit ": "; FmtExn (KeyError "artists")];
             Log ERROR [Lit "Problematic track data: "; Fmt (PStr "T1")]] w0).
Proof.
  split; [reflexivity|]. split; [reflexivity|].
  exact (invalid_track_leaves_empty_record repr_scalar "Mix" (PStr "T1") [] [] w0
           eq_refl (or_introl eq_refl)).
Defined.

Lemma well_formed_track_is_exported_witness :
  export_track repr_scalar "Mix" (track "T1" "x") ([], []) w0 =
  Returns ([projected [("added_at", PStr "2024-05-01T10:00:00Z");
                       ("track", PDict [("id", PStr "T1"); ("name", PStr "T1");
                                        ("artists", PList [PDict [("name", PStr "x")]])])]
                      [("id", PStr "T1"); ("name", PStr "T1");
                       ("artists", PList [PDict [("name", PStr "x")]])]
                      [PDict [("name", PStr "x")]]],
           [PStr "T1 - [x]"]) w0.
Proof.
  refine (well_formed_track_is_exported repr_scalar "Mix"
            [("added_at", PStr "2024-05-01T10:00:00Z");
             ("track", PDict [("id", PStr "T1"); ("name", PStr "T1");
                              ("artists", PList [PDict [("name", PStr "x")]])])]
            [("id", PStr "T1"); ("name", PStr "T1");
             ("artists", PList [PDict [("name", PStr "x")]])]
            [PDict [("name", PStr "x")]] ["x"] "T1" [] [] w0
            eq_refl eq_refl _ eq_refl eq_refl eq_refl eq_refl).
  repeat constructor.
Defined.

Lemma export_writes_nothing_when_it_raises_witness :
  result (export_documents repr_scalar ill_typed_data w0) =
  Some (Err (AttributeError "get")) /\
  exists evs,
    save_playlists_to_json repr_scalar "" demo_clock ill_typed_data w0 =
    Raises (AttributeError "get")
           (logged (MakeDirs "output/spotify_export_2024_05_01_10_00_00" :: evs) w0) /\
    Forall is_log evs.
Proof.
  split; [reflexivity|].
  exact (export_writes_nothing_when_it_raises repr_scalar "" demo_clock ill_typed_data
           w0 (AttributeError "get") eq_refl).
Defined.

Lemma ill_typed_entry_aborts_export_witness :
  result (export_entry repr_scalar "Oops" (PStr "not an entry") ([], []) w0) =
  Some (Err (AttributeError "get")) /\
  result (export_entry repr_scalar "Oops"
            (PDict [("playlist_info", PStr "Rock"); ("tracks", PList [])]) ([], []) w0) =
  Some (Err (AttributeError "get")) /\
  result (export_entry repr_scalar "Oops"
            (PDict [("playlist_info", playlist "p3" "Rock" 2); ("tracks", PInt 2)])
            ([], []) w0) =
  Some (Err TypeError) /\
  result (export_entries repr_scalar
            ([] ++ ("Oops", PStr "not an entry") :: tl null_info_data) ([], []) w0) =
  Some (Err (AttributeError "get")).
Proof.
  split; [|split; [|split]].
  - exact (proj1 (ill_typed_entry_aborts_export repr_scalar "Oops" (PStr "not an entry")
                    ([], []) w0) eq_refl eq_refl).
  - exact (proj1 (proj2 (ill_typed_entry_aborts_export repr_scalar "Oops"
                           (PDict [("playlist_info", PStr "Rock"); ("tracks", PList [])])
                           ([], []) w0))
             [("playlist_info", PStr "Rock"); ("tracks", PList [])]
             (PStr "Rock") eq_refl eq_refl eq_refl eq_refl).
  - refine (proj1 (proj2 (proj2 (ill_typed_entry_aborts_export repr_scalar "Oops"
                                   (PDict [("playlist_info", playlist "p3" "Rock" 2);
                                           ("tracks", PInt 2)])
                                   ([], []) w0)))
              [("playlist_info", playlist "p3" "Rock" 2); ("tracks", PInt 2)]
              (playlist "p3" "Rock" 2) 2%Z eq_refl eq_refl _ eq_refl).
    eexists. reflexivity.
  - exact (proj2 (proj2 (proj2 (ill_typed_entry_aborts_export repr_scalar "Oops"
                                  (PStr "not an entry") ([], []) w0)))
             [] (tl null_info_data) ([], []) _ eq_refl eq_refl).
Defined.

Lemma declined_run_exports_nothing_witness :
  exists w',
    main ascii_lower repr_scalar demo_sp 2 "" demo_clock false w0 = Returns false w'.
Proof.
  destruct (main ascii_lower repr_scalar demo_sp 2 "" demo_clock false w0)
    as [exported w'|e w'|] eqn:Hrun;
    [|vm_compute in Hrun; discriminate Hrun|vm_compute in Hrun; discriminate Hrun].
  exists w'.
  now rewrite (proj2 (proj2 (declined_run_exports_nothing ascii_lower repr_scalar
                               demo_sp 2 "" demo_clock)) w0 exported w' Hrun).
Defined.

Lemma demo_exportable : Forall (fun f => exportable (playlist_of f)) demo_fetched.
Proof. repeat constructor; eexists; reflexivity. Defined.

Lemma one_document_per_name_witness :
  memo_sound demo_sp 2 (memo w0) /\
  Forall (fetchable demo_sp 2) demo_fetched /\
  exists all_playlist_data w1 full minimal w2,
    collect_playlists demo_sp 2 (map playlist_of demo_fetched) [] w0 =
    Returns all_playlist_data w1 /\
    export_documents repr_scalar all_playlist_data w1 = Returns (full, minimal) w2 /\
    names_of full = keys_as_names all_playlist_data /\
    names_of minimal = keys_as_names all_playlist_data /\
    NoDup (map fst all_playlist_data) /\
    (forall name,
       In name (map fst all_playlist_data) <-> In name (map name_of demo_fetched)).
Proof.
  split; [apply empty_memo_sound|]. split; [exact demo_fetchable|].
  exact (one_document_per_name repr_scalar demo_sp 2 demo_fetched w0
           (empty_memo_sound demo_sp 2) demo_fetchable demo_exportable).
Defined.

Lemma missing_credentials_exit_1_witness :
  missing (SPOTIPY_CLIENT_SECRET empty_secret_env) /\
  exit_status (main_process ascii_lower repr_scalar empty_secret_env valid_auth demo_sp 2
                 "" demo_clock (mkProcess w0 ["y"])) = Some 1%Z.
Proof.
  assert (H : missing (SPOTIPY_CLIENT_SECRET empty_secret_env)) by (right; reflexivity).
  split; [exact H|].
  exact (proj2 (proj2 (missing_credentials_exit_1 ascii_lower repr_scalar empty_secret_env
                         valid_auth demo_sp 2 "" demo_clock (mkProcess w0 ["y"])
                         (or_intror (or_introl H))))).
Defined.


Lemma authorisation_dialogue_witness :
  credentials_present demo_env = true /\
  get_spotify_client demo_env valid_auth demo_sp (mkProcess w0 ["y"]) =
  Normal demo_sp (mkProcess w0 ["y"]) /\
  get_spotify_client demo_env stale_auth demo_sp
    (mkProcess w0 ["  http://localhost:8888/callback?code=abc  "; "y"]) =
  Normal demo_sp
    (mkProcess
       (logged [Print [Lit "No valid token found. Please authenticate manually."];
                Print [Lit (String newline
                  "Please navigate to the following URL to authorize the application:")];
                Print [Fmt (PStr "https://accounts.spotify.com/authorize")];
                Print [Lit (String newline
                  "After authorizing, you will be redirected to a URL. Please copy and paste that URL here:")];
                Print [Lit "Enter the URL you were redirected to: "]]
               w0)
       ["y"]) /\
  exists p',
    get_spotify_client demo_env stale_auth demo_sp (mkProcess w0 []) = Abrupt EOFError p'.
Proof.
  split; [reflexivity|]. split; [|split].
  - exact (proj1 (authorisation_dialogue demo_env valid_auth demo_sp (mkProcess w0 ["y"])
                    eq_refl) eq_refl).
  - exact (proj1 (proj2 (authorisation_dialogue demo_env stale_auth demo_sp
                           (mkProcess w0 ["  http://localhost:8888/callback?code=abc  "; "y"])
                           eq_refl))
             "  http://localhost:8888/callback?code=abc  " ["y"]
             "http://localhost:8888/callback?code=abc" eq_refl eq_refl eq_refl eq_refl).
  - exact (proj2 (proj2 (authorisation_dialogue demo_env stale_auth demo_sp
                           (mkProcess w0 []) eq_refl)) eq_refl eq_refl).
Defined.

Lemma demo_showable : Forall showable [playlist "p1" "Mix" 3].
Proof. repeat constructor. eexists _, _, _. repeat split; reflexivity. Defined.

Lemma maybe_unclear : Forall (unclear ascii_lower) ["maybe"].
Proof. repeat constructor. Defined.

Lemma confirmation_asks_until_answered_witness :
  Forall showable [playlist "p1" "Mix" 3] /\
  Forall (unclear ascii_lower) ["maybe"] /\
  is_yes (normalise ascii_lower " YES ") = true /\
  exists asked,
    confirm_playlists ascii_lower [playlist "p1" "Mix" 3]
                      (mkProcess w0 ["maybe"; " YES "; "later"]) =
    Normal true (mkProcess asked ["later"]).
Proof.
  split; [exact demo_showable|]. split; [exact maybe_unclear|]. split; [reflexivity|].
  destruct (confirmation_asks_until_answered ascii_lower [playlist "p1" "Mix" 3] ["maybe"]
              w0 demo_showable maybe_unclear) as (shown & _ & _ & Hyes & _ & _).
  eexists. exact (Hyes " YES " ["later"] eq_refl).
Defined.

Lemma main_exit_status_0_or_1_witness :
  exists p',
    main_try ascii_lower repr_scalar demo_env valid_auth null_item_sp 2 "" demo_clock
             (mkProcess w0 ["y"]) = Abrupt (Exception TypeError) p' /\
    main_process ascii_lower repr_scalar demo_env valid_auth null_item_sp 2 "" demo_clock
                 (mkProcess w0 ["y"]) =
    Abrupt (SystemExit 1)
      (mkProcess (logged [Print [Lit "An error occurred: "; FmtExn TypeError]] (console p'))
                 (stdin p')).
Proof.
  destruct (main_try ascii_lower repr_scalar demo_env valid_auth null_item_sp 2 ""
              demo_clock (mkProcess w0 ["y"])) as [a p'|r p'|] eqn:Hrun;
    [vm_compute in Hrun; discriminate Hrun| |vm_compute in Hrun; discriminate Hrun].
  assert (r = Exception TypeError) as ->
    by (pose proof Hrun as H; vm_compute in H; congruence).
  exists p'. split; [reflexivity|].
  refine (proj2 (proj2 (main_exit_status_0_or_1 ascii_lower repr_scalar demo_env valid_auth
                          null_item_sp 2 "" demo_clock (mkProcess w0 ["y"])))
            (Exception TypeError) p' Hrun _ _); discriminate.
Defined.

Lemma what_unclear : Forall (unclear ascii_lower) ["what?"].
Proof. repeat constructor. Defined.

Lemma declined_process_exits_0_witness :
  credentials_present demo_env = true /\
  well_listed demo_sp 2 [playlists_page1; playlists_page2] [saved_page1; saved_page2] /\
  is_no (normalise ascii_lower "N") = true /\
  exists evs,
    main_process ascii_lower repr_scalar demo_env valid_auth demo_sp 2 "" demo_clock
                 (mkProcess w0 (["what?"] ++ "N" :: ["later"])) =
    Abrupt (SystemExit 0) (mkProcess (logged evs w0) ["later"]) /\
    Forall (fun ev => is_listing_call ev \/ is_print ev) evs.
Proof.
  split; [reflexivity|]. split; [exact demo_well_listed|]. split; [reflexivity|].
  exact (declined_process_exits_0 ascii_lower repr_scalar demo_env valid_auth demo_sp 2 ""
           demo_clock _ _ w0 ["what?"] "N" ["later"]
           eq_refl eq_refl demo_well_listed what_unclear eq_refl eq_refl).
Defined.

Lemma demo_ready :
  Forall (ready demo_sp 2)
         (filter total_positive (all_items [playlists_page1; playlists_page2])).
Proof.
  change (Forall (ready demo_sp 2)
            [playlist "p1" "Mix" 3; playlist "p3" "Rock" 2; playlist "p5" "Mix" 1]).
  constructor; [|constructor; [|constructor; [|constructor]]].
  - split; [eexists; reflexivity|].
    exists "p1", (all_items [p1_page1; p1_page2]). split; [reflexivity|].
    exists [p1_page1; p1_page2].
    split; [simpl; lia|]. split; [simpl; repeat split; reflexivity | reflexivity].
  - split; [eexists; reflexivity|].
    exists "p3", []. split; [reflexivity|].
    exists []. split; [simpl; lia|]. split; reflexivity.
  - split; [eexists; reflexivity|].
    exists "p5", (all_items [p5_page]). split; [reflexivity|].
    exists [p5_page].
    split; [simpl; lia|]. split; [simpl; repeat split; reflexivity | reflexivity].
Defined.

Lemma main_keys_by_name_witness :
  well_listed demo_sp 2 [playlists_page1; playlists_page2] [saved_page1; saved_page2] /\
  memo_sound demo_sp 2 (memo w0) /\
  Forall (ready demo_sp 2)
         (filter total_positive (all_items [playlists_page1; playlists_page2])) /\
  exists fs kept docs w',
    main ascii_lower repr_scalar demo_sp 2 "" demo_clock true w0 = Returns true w' /\
    map name_of fs = ["Liked Songs"; "Mix"; "Mix"; "Rock"] /\
    map name_of kept = ["Liked Songs"; "Mix"; "Rock"] /\
    (forall f, In f kept <-> last_of_its_name fs f) /\
    Forall2 (exported_alone repr_scalar) kept docs /\
    In (WriteFile (path_join (export_dir "" demo_clock) "minimal_export.json")
                  (dumps 0 (export_data (export_date_minimal demo_clock) (map snd docs))))
       (trace w').
Proof.
  split; [exact demo_well_listed|]. split; [apply empty_memo_sound|].
  split; [exact demo_ready|].
  destruct (main_keys_by_name ascii_lower repr_scalar demo_sp 2 "" demo_clock
              [playlists_page1; playlists_page2] [saved_page1; saved_page2] w0
              demo_well_listed (empty_memo_sound demo_sp 2) demo_ready)
    as (fs & kept & docs & w1 & w2 & w3 & Hlist & Hfetch & Hcollect & _ & Hkept & _
        & Hdocs & _ & Hminimal & Hmain).
  assert (Hrun : exists wa wb data,
    get_user_playlists_and_saved_tracks ascii_lower demo_sp 2
      (logged [Print [Lit "Authentication successful. Fetching user playlists and saved tracks..."]] w0) =
    Returns ([liked_songs_playlist [track "S1" "x"; track "S2" "y"];
              playlist "p1" "Mix" 3; playlist "p5" "Mix" 1; playlist "p3" "Rock" 2],
             [track "S1" "x"; track "S2" "y"]) wa /\
    collect_playlists demo_sp 2
      [liked_songs_playlist [track "S1" "x"; track "S2" "y"];
       playlist "p1" "Mix" 3; playlist "p5" "Mix" 1; playlist "p3" "Rock" 2] [] wa =
    Returns data wb /\
    map fst data = ["Liked Songs"; "Mix"; "Rock"]).
  { eexists _, _, _. split; [vm_compute; reflexivity|].
    split; [vm_compute; reflexivity | reflexivity]. }
  destruct Hrun as (wa & wb & data & Ha & Hb & Hdata).
  rewrite Hlist in Ha. injection Ha as Hp Hw. subst w1.
  rewrite Hp, Hb in Hcollect. injection Hcollect as Hd _.
  exists fs, kept, docs. eexists.
  split; [exact Hmain|]. split; [|split].
  - clear - Hp Hfetch.
    destruct fs as [|f1 [|f2 [|f3 [|f4 [|f5 fs]]]]]; try discriminate Hp.
    simpl in Hp. injection Hp as H1 H2 H3 H4.
    inversion Hfetch as [|? ? (i1 & N1 & _) T1]; subst.
    inversion T1 as [|? ? (i2 & N2 & _) T2]; subst.
    inversion T2 as [|? ? (i3 & N3 & _) T3]; subst.
    inversion T3 as [|? ? (i4 & N4 & _) _]; subst.
    rewrite H1 in N1. rewrite H2 in N2. rewrite H3 in N3. rewrite H4 in N4.
    change (Ok (PStr "Liked Songs") = Ok (PStr (name_of f1))) in N1.
    change (Ok (PStr "Mix") = Ok (PStr (name_of f2))) in N2.
    change (Ok (PStr "Mix") = Ok (PStr (name_of f3))) in N3.
    change (Ok (PStr "Rock") = Ok (PStr (name_of f4))) in N4.
    injection N1 as N1. injection N2 as N2. injection N3 as N3. injection N4 as N4.
    simpl. now rewrite <- N1, <- N2, <- N3, <- N4.
  - rewrite <- entries_of_names, <- Hd. exact Hdata.
  - split; [exact Hkept|]. split; [exact Hdocs|].
    unfold logged. cbn [trace]. apply in_or_app. left. exact Hminimal.
Defined.


Lemma strings_written_without_loss_witness :
  encode_basestring (String "a" (String newline "b")) =
  String dquote (String "a" (String backslash (String "n" (String "b" (String dquote ""))))) /\
  String "a" (String newline "b") = String "a" (String newline "b") /\
  Forall (fun c => (32 <=? nat_of_ascii c)%nat = true)
         (list_ascii_of_string (encode_basestring (String "a" (String newline "b")))) /\
  Forall plain (list_ascii_of_string (String "127" (String "133" ""))) /\
  encode_basestring (String "127" (String "133" "")) =
  String dquote (String "127" (String "133" (String dquote ""))).
Proof.
  destruct (strings_written_without_loss (String "a" (String newline "b"))
                                         (String "a" (String newline "b")))
    as (Hsame & Hcodes & _).
  destruct (strings_written_without_loss (String "127" (String "133" "")) "")
    as (_ & _ & Hplain).
  assert (H : Forall plain (list_ascii_of_string (String "127" (String "133" ""))))
    by (repeat constructor; discriminate).
  split; [reflexivity|]. split; [exact (Hsame eq_refl)|]. split; [exact Hcodes|].
  split; [exact H | exact (Hplain H)].
Defined.

(** A whole run of the process on [demo_sp]: an unclear response, then
    yes. *)
Example process_run :
  exit_status (main_process ascii_lower repr_scalar demo_env valid_auth demo_sp 2 ""
                 demo_clock (mkProcess w0 ["what?"; "Yes"])) = Some 0%Z /\
  exit_status (main_process ascii_lower repr_scalar demo_env valid_auth demo_sp 2 ""
                 demo_clock (mkProcess w0 ["what?"; "no"])) = Some 0%Z /\
  exit_status (main_process ascii_lower repr_scalar demo_env valid_auth demo_sp 2 ""
                 demo_clock (mkProcess w0 ["what?"])) = Some 1%Z /\
  exit_status (main_process ascii_lower repr_scalar demo_env valid_auth circular_sp 50 ""
                 demo_clock (mkProcess w0 ["y"])) = None.
Proof. repeat split; vm_compute; reflexivity. Qed.
